(** * CINN: the IR mutator framework and the compute-inline expansion pass

    A shallow embedding of
      - [cinn/ir/ir_mutator.h]            (the default traversal [IRMutator]),
      - [cinn/optim/compute_inline_expand.cc]
                                          ([TensorInlineExpandMutator],
                                           [SSABuilder],
                                           [ComputeInlineExpand]),
      - [cinn/optim/transform_gpu_forloop.h]
                                          ([GatherAxisInfoFromStages], header only),
    together with the properties the specification states about them and
    further properties of the code. *)

From Stdlib Require Import ZArith Lia.
From stdpp Require Import base strings list gmap.

Local Open Scope string_scope.
Set Warnings "-register-all".

(** ** Strings

    [utils::Startswith], [utils::Endswith] and [std::string::substr], as the
    pass uses them. *)

(** Modelled from the spec: [utils::Startswith] is missing; the spec speaks of
    "a variable named as a block-index axis", i.e. a name that begins with
    the axis prefix. *)
Definition Startswith (x str : string) : bool := String.prefix str x.

(** Modelled from the spec: [utils::Endswith] is missing; the spec speaks of a
    "buffer name [that] ends with a cache-buffer suffix". *)
Definition Endswith (x str : string) : bool :=
  if Nat.leb (String.length str) (String.length x)
  then String.eqb (String.substring (String.length x - String.length str)
                             (String.length str) x) str
  else false.

(** [size_t] arithmetic: [name.size() - 13] wraps around below zero. *)
Definition size_t_sub (a b : Z) : Z := ((a - b) mod 2 ^ 64)%Z.

(** [std::string::substr(pos, count)]: throws when [pos > size()], otherwise
    the characters from [pos], at most [count] of them. *)
Definition substr (s : string) (pos count : Z) : option string :=
  let size := Z.of_nat (String.length s) in
  if (size <? pos)%Z then None
  else Some (String.substring (Z.to_nat pos) (Z.to_nat (Z.min count (size - pos))) s).

(** ** The IR node model *)

(** Modelled from the spec: [cinn/ir/ir.h] is missing; a buffer or tensor
    carries "a memory-scope tag (heap / device-shared / device-local /
    stack)"; [Heap] and [GPULocal] are the names the pass tests. *)
Inductive MemoryType := Heap | Stack | GPUShared | GPULocal.

Definition MemoryType_eqb (a b : MemoryType) : bool :=
  match a, b with
  | Heap, Heap | Stack, Stack | GPUShared, GPUShared | GPULocal, GPULocal => true
  | _, _ => false
  end.

(** What the pass reads of a tensor's backing [_Buffer_]: [buffer->name] and
    [buffer->memory_type]. *)
Record Buffer := mkBuffer {
  buffer_name : string;
  memory_type : MemoryType
}.

Inductive UnaryOp := Minus | Not.
Inductive BinaryOp :=
  Add | Sub | Mul | Div | Mod | EQ | NE | LT | LE | GT | GE | And | Or | Min | Max.

(** Modelled from the spec: [cinn/ir/ir.h] is missing; the node kinds are
    those of section 3 ("a closed, tagged-union tree of node kinds"), one
    for each handler of [ir_mutator.h], with the children the spec says each
    kind owns and the field names the handlers use ([PolyFor] "owns min,
    extent, body, and an increment expression").  A child that the code
    tests with [defined()] is an [option]; a sequence is a [list].  A tensor
    handle carries its name, shape, optional buffer and "an optional
    inline-expansion expression", [body], "parameterized over its own index
    variables", [axis]. *)
Inductive Expr :=
| IntImm (value : Z)
| UIntImm (value : Z)
| FloatImm (literal : string)
| StringImm (value : string)
| Unary (op : UnaryOp) (v : Expr)
| Binary (op : BinaryOp) (a b : Expr)
| FracOp (a b : Expr)
| Power (a b : Expr)
| Cast (v : Expr)
| For (loop_var : string) (min extent body : Expr)
| PolyFor (iterator : string) (min extent inc body : Expr)
| Select (condition true_value false_value : Expr)
| IfThenElse (condition true_case : Expr) (false_case : option Expr)
| Block (stmts : list Expr)
| Call (name : string) (read_args write_args : list Expr)
| _Module_ (name : string) (functions buffers submodules : list Expr)
| _Var_ (name : string) (is_reduce_axis : bool) (lower_bound upper_bound : option Expr)
| Load (tensor : Expr) (indices : list Expr)
| Store (tensor value : Expr) (indices : list Expr)
| Alloc (destination : string) (extents : list Expr) (condition body : option Expr)
| Free (destination : string)
| _Range_
| _IterVar_
| _Buffer_ (name : string) (shape strides : list Expr) (elem_offset : Expr)
           (mem : MemoryType)
| _Tensor_ (name : string) (shape : list Expr) (buffer : option Buffer)
           (axis : list string) (body : option Expr)
| _LoweredFunc_ (name : string) (body : Expr)
| Let (symbol : Expr) (body : option Expr)
| Reduce (init body : Expr)
| Ramp (base stride : Expr)
| Broadcast (value : Expr)
| Product (operands : list Expr)
| Sum (operands : list Expr).

(** [ir::Tensor]: a handle on a [_Tensor_] node. *)
Record Tensor := mkTensor {
  tensor_name : string;
  tensor_shape : list Expr;
  tensor_buffer : option Buffer;
  tensor_axis : list string;
  tensor_body : option Expr
}.

Definition Expr_of_Tensor (t : Tensor) : Expr :=
  _Tensor_ (tensor_name t) (tensor_shape t) (tensor_buffer t) (tensor_axis t)
           (tensor_body t).

(** [Expr::as_tensor()]: null unless the node is a [_Tensor_]. *)
Definition as_tensor (e : Expr) : option Tensor :=
  match e with
  | _Tensor_ n sh b ax bd => Some (mkTensor n sh b ax bd)
  | _ => None
  end.

Definition opt_list {A} (o : option A) : list A :=
  match o with Some x => [x] | None => [] end.

(** The child expressions a node owns (section 3 of the spec).  The
    inline-expansion expression of a tensor handle is not a child: it is a
    template over the handle's own formal indices. *)
Definition children (e : Expr) : list Expr :=
  match e with
  | IntImm _ | UIntImm _ | FloatImm _ | StringImm _
  | Free _ | _Range_ | _IterVar_ => []
  | Unary _ v | Cast v | Broadcast v => [v]
  | Binary _ a b | FracOp a b | Power a b => [a; b]
  | For _ mn ext bd => [mn; ext; bd]
  | PolyFor _ mn ext inc bd => [mn; ext; inc; bd]
  | Select c t f => [c; t; f]
  | IfThenElse c t f => c :: t :: opt_list f
  | Block stmts => stmts
  | Call _ r w => r ++ w
  | _Module_ _ fs bs ss => fs ++ bs ++ ss
  | _Var_ _ r lb ub => if r then opt_list lb ++ opt_list ub else []
  | Load t idx => t :: idx
  | Store t v idx => v :: t :: idx
  | Alloc _ ext c b => ext ++ opt_list c ++ opt_list b
  | _Buffer_ _ sh st off _ => sh ++ st ++ [off]
  | _Tensor_ _ sh _ _ _ => sh
  | _LoweredFunc_ _ bd => [bd]
  | Let s b => s :: opt_list b
  | Reduce i b => [i; b]
  | Ramp b s => [b; s]
  | Product ops | Sum ops => ops
  end.

Definition heights (height : Expr -> nat) (l : list Expr) : nat :=
  foldr (fun c m => Nat.max (height c) m) 0 l.

Definition height_opt (height : Expr -> nat) (o : option Expr) : nat :=
  match o with Some c => height c | None => 0 end.

(** Nesting depth of a tree, counting the owned children only. *)
Fixpoint height (e : Expr) : nat :=
  S match e with
    | IntImm _ | UIntImm _ | FloatImm _ | StringImm _
    | Free _ | _Range_ | _IterVar_ => 0
    | Unary _ v | Cast v | Broadcast v => height v
    | Binary _ a b | FracOp a b | Power a b => Nat.max (height a) (height b)
    | For _ mn ext bd => Nat.max (height mn) (Nat.max (height ext) (height bd))
    | PolyFor _ mn ext inc bd =>
        Nat.max (height mn) (Nat.max (height ext) (Nat.max (height inc) (height bd)))
    | Select c t f => Nat.max (height c) (Nat.max (height t) (height f))
    | IfThenElse c t f => Nat.max (height c) (Nat.max (height t) (height_opt height f))
    | Block stmts => heights height stmts
    | Call _ r w => Nat.max (heights height r) (heights height w)
    | _Module_ _ fs bs ss =>
        Nat.max (heights height fs) (Nat.max (heights height bs) (heights height ss))
    | _Var_ _ _ lb ub => Nat.max (height_opt height lb) (height_opt height ub)
    | Load t idx => Nat.max (height t) (heights height idx)
    | Store t v idx => Nat.max (height v) (Nat.max (height t) (heights height idx))
    | Alloc _ ext c b =>
        Nat.max (heights height ext)
                (Nat.max (height_opt height c) (height_opt height b))
    | _Buffer_ _ sh st off _ =>
        Nat.max (heights height sh) (Nat.max (heights height st) (height off))
    | _Tensor_ _ sh _ _ _ => heights height sh
    | _LoweredFunc_ _ bd => height bd
    | Let s b => Nat.max (height s) (height_opt height b)
    | Reduce i b => Nat.max (height i) (height b)
    | Ramp b s => Nat.max (height b) (height s)
    | Product ops | Sum ops => heights height ops
    end.

Definition nodes_opt (nodes : Expr -> list Expr) (o : option Expr) : list Expr :=
  match o with Some c => nodes c | None => [] end.

(** Every node of a tree, in pre-order. *)
Fixpoint sub_exprs (e : Expr) : list Expr :=
  e ::
  match e with
  | IntImm _ | UIntImm _ | FloatImm _ | StringImm _
  | Free _ | _Range_ | _IterVar_ => []
  | Unary _ v | Cast v | Broadcast v => sub_exprs v
  | Binary _ a b | FracOp a b | Power a b => sub_exprs a ++ sub_exprs b
  | For _ mn ext bd => sub_exprs mn ++ sub_exprs ext ++ sub_exprs bd
  | PolyFor _ mn ext inc bd =>
      sub_exprs mn ++ sub_exprs ext ++ sub_exprs inc ++ sub_exprs bd
  | Select c t f => sub_exprs c ++ sub_exprs t ++ sub_exprs f
  | IfThenElse c t f =>
      sub_exprs c ++ sub_exprs t ++ nodes_opt sub_exprs f
  | Block stmts => flat_map sub_exprs stmts
  | Call _ r w => flat_map sub_exprs r ++ flat_map sub_exprs w
  | _Module_ _ fs bs ss =>
      flat_map sub_exprs fs ++ flat_map sub_exprs bs ++ flat_map sub_exprs ss
  | _Var_ _ r lb ub =>
      if r then nodes_opt sub_exprs lb ++ nodes_opt sub_exprs ub else []
  | Load t idx => sub_exprs t ++ flat_map sub_exprs idx
  | Store t v idx => sub_exprs v ++ sub_exprs t ++ flat_map sub_exprs idx
  | Alloc _ ext c b =>
      flat_map sub_exprs ext ++ nodes_opt sub_exprs c ++ nodes_opt sub_exprs b
  | _Buffer_ _ sh st off _ =>
      flat_map sub_exprs sh ++ flat_map sub_exprs st ++ sub_exprs off
  | _Tensor_ _ sh _ _ _ => flat_map sub_exprs sh
  | _LoweredFunc_ _ bd => sub_exprs bd
  | Let s b => sub_exprs s ++ nodes_opt sub_exprs b
  | Reduce i b => sub_exprs i ++ sub_exprs b
  | Ramp b s => sub_exprs b ++ sub_exprs s
  | Product ops | Sum ops => flat_map sub_exprs ops
  end.

(** ** Outcomes and the mutator monad

    A handler either completes, aborts the compilation unit (a failed
    [CHECK], [std::map::at] on a missing key, a null handle) or, in this
    embedding, exhausts the recursion budget.  Handlers thread the mutable
    fields of the mutator object as a state. *)

Inductive Outcome (A : Type) :=
| Done (a : A)
| Fatal (msg : string)
| OutOfFuel.
Arguments Done {A} a.
Arguments Fatal {A} msg.
Arguments OutOfFuel {A}.

Definition M (St A : Type) : Type := St -> Outcome (A * St).

Definition ret {St A} (a : A) : M St A := fun s => Done (a, s).

Definition bind {St A B} (m : M St A) (k : A -> M St B) : M St B :=
  fun s =>
    match m s with
    | Done (a, s') => k a s'
    | Fatal msg => Fatal msg
    | OutOfFuel => OutOfFuel
    end.

Definition fatal {St A} (msg : string) : M St A := fun _ => Fatal msg.
Definition get {St} : M St St := fun s => Done (s, s).
Definition put {St} (s : St) : M St unit := fun _ => Done (tt, s).

Declare Scope mut_scope.
Delimit Scope mut_scope with mut.
Notation "x <- c1 ;; c2" := (bind c1 (fun x => c2))
  (at level 100, c1 at next level, right associativity) : mut_scope.
Notation "c1 ;;; c2" := (bind c1 (fun _ => c2))
  (at level 100, right associativity) : mut_scope.
Local Open Scope mut_scope.

Fixpoint mapM_st {St A B} (f : A -> M St B) (l : list A) : M St (list B) :=
  match l with
  | [] => ret []
  | x :: l' => y <- f x ;; ys <- mapM_st f l' ;; ret (y :: ys)
  end.

(** What a handler did to the slot [op] it was given: it either mutated the
    node the slot points to in place ([Kept], with the node as it is now) or
    overwrote the slot with another expression ([Replaced]). *)
Inductive Slot :=
| Kept (e : Expr)
| Replaced (e : Expr).

Definition slot_expr (r : Slot) : Expr :=
  match r with Kept e | Replaced e => e end.

(** ** The default traversal, [IRMutator<T>::Visit] of [ir_mutator.h]

    [self] is the virtual dispatch [IRVisitorBase<void, T>::Visit(expr, op)]
    of the most derived mutator. *)
Section IRMutator.
Context {St : Type}.
Variable self : Expr -> M St Slot.

(** [IRVisitorBase<void, T>::Visit(&node->x, &node->x)]: the slot of the
    child is the one visited, so the parent sees a replacement. *)
Definition visit (c : Expr) : M St Expr :=
  r <- self c ;; ret (slot_expr r).

(** [if (node->x.defined()) Visit(&node->x, &node->x)]. *)
Definition visit_opt (o : option Expr) : M St (option Expr) :=
  match o with
  | Some c => c' <- visit c ;; ret (Some c')
  | None => ret None
  end.

(** Modelled from the spec: [IRVisitorBase::Visit] is missing; visiting an
    undefined expression is a structural mismatch, which the spec makes
    fatal. *)
Definition visit_defined (o : option Expr) : M St (option Expr) :=
  match o with
  | Some c => c' <- visit c ;; ret (Some c')
  | None => fatal "visit of an undefined expression"
  end.

(** [Expr body(node->body); Visit(&node->body, &body)] of [Alloc]: the
    handler gets a detached slot; what it does to the node in place shows
    in the tree, a replacement of the slot is lost. *)
Definition visit_detached (o : option Expr) : M St (option Expr) :=
  match o with
  | Some b =>
      r <- self b ;;
      ret (Some match r with Kept b' => b' | Replaced _ => b end)
  | None => ret None
  end.

Definition IRMutator_Visit (e : Expr) : M St Expr :=
  match e with
  | IntImm _ | UIntImm _ | FloatImm _ | StringImm _ => ret e
  | Unary op v => v' <- visit v ;; ret (Unary op v')
  | Binary op a b => a' <- visit a ;; b' <- visit b ;; ret (Binary op a' b')
  | FracOp a b => a' <- visit a ;; b' <- visit b ;; ret (FracOp a' b')
  | Power a b => a' <- visit a ;; b' <- visit b ;; ret (Power a' b')
  | Cast v => v' <- visit v ;; ret (Cast v')
  | For x mn ext bd =>
      mn' <- visit mn ;; ext' <- visit ext ;; bd' <- visit bd ;;
      ret (For x mn' ext' bd')
  | PolyFor x mn ext inc bd =>
      bd' <- visit bd ;; inc' <- visit inc ;;
      ret (PolyFor x mn ext inc' bd')
  | Select c t f =>
      c' <- visit c ;; t' <- visit t ;; f' <- visit f ;; ret (Select c' t' f')
  | IfThenElse c t f =>
      c' <- visit c ;; t' <- visit t ;; f' <- visit_opt f ;;
      ret (IfThenElse c' t' f')
  | Block stmts => stmts' <- mapM_st visit stmts ;; ret (Block stmts')
  | Call n r w =>
      r' <- mapM_st visit r ;; w' <- mapM_st visit w ;; ret (Call n r' w')
  | _Module_ n fs bs ss =>
      fs' <- mapM_st visit fs ;; bs' <- mapM_st visit bs ;; ss' <- mapM_st visit ss ;;
      ret (_Module_ n fs' bs' ss')
  | _Var_ n r lb ub =>
      if r then
        lb' <- visit_defined lb ;; ub' <- visit_defined ub ;;
        ret (_Var_ n r lb' ub')
      else ret e
  | Load t idx => idx' <- mapM_st visit idx ;; ret (Load t idx')
  | Store t v idx =>
      v' <- visit v ;; t' <- visit t ;; idx' <- mapM_st visit idx ;;
      ret (Store t' v' idx')
  | Alloc d ext c b =>
      ext' <- mapM_st visit ext ;; c' <- visit_opt c ;; b' <- visit_detached b ;;
      ret (Alloc d ext' c' b')
  | Free _ | _Range_ | _IterVar_ => ret e
  | _Buffer_ n sh st off m =>
      sh' <- mapM_st visit sh ;; st' <- mapM_st visit st ;; off' <- visit off ;;
      ret (_Buffer_ n sh' st' off' m)
  | _Tensor_ n sh b ax bd => sh' <- mapM_st visit sh ;; ret (_Tensor_ n sh' b ax bd)
  | _LoweredFunc_ n bd => bd' <- visit bd ;; ret (_LoweredFunc_ n bd')
  | Let s b => s' <- visit s ;; b' <- visit_opt b ;; ret (Let s' b')
  | Reduce i b => i' <- visit i ;; b' <- visit b ;; ret (Reduce i' b')
  | Ramp b s => b' <- visit b ;; s' <- visit s ;; ret (Ramp b' s')
  | Broadcast v => v' <- visit v ;; ret (Broadcast v')
  | Product ops => ops' <- mapM_st visit ops ;; ret (Product ops')
  | Sum ops => ops' <- mapM_st visit ops ;; ret (Sum ops')
  end.

(** The children the default handler of a node recurses into, in the order
    of the calls. *)
Definition visited_children (e : Expr) : list Expr :=
  match e with
  | IntImm _ | UIntImm _ | FloatImm _ | StringImm _
  | Free _ | _Range_ | _IterVar_ => []
  | Unary _ v | Cast v | Broadcast v => [v]
  | Binary _ a b | FracOp a b | Power a b => [a; b]
  | For _ mn ext bd => [mn; ext; bd]
  | PolyFor _ _ _ inc bd => [bd; inc]
  | Select c t f => [c; t; f]
  | IfThenElse c t f => c :: t :: opt_list f
  | Block stmts => stmts
  | Call _ r w => r ++ w
  | _Module_ _ fs bs ss => fs ++ bs ++ ss
  | _Var_ _ r lb ub => if r then opt_list lb ++ opt_list ub else []
  | Load _ idx => idx
  | Store t v idx => v :: t :: idx
  | Alloc _ ext c b => ext ++ opt_list c ++ opt_list b
  | _Buffer_ _ sh st off _ => sh ++ st ++ [off]
  | _Tensor_ _ sh _ _ _ => sh
  | _LoweredFunc_ _ bd => [bd]
  | Let s b => s :: opt_list b
  | Reduce i b => [i; b]
  | Ramp b s => [b; s]
  | Product ops | Sum ops => ops
  end.
End IRMutator.

(** ** Substitution of variables

    [optim::IRCopy], [optim::ReplaceVarWithExpr] and
    [_Tensor_::inline_expanded], as the pass calls them. *)

Fixpoint lookup_var (sigma : list (string * Expr)) (n : string) : option Expr :=
  match sigma with
  | [] => None
  | (x, a) :: sigma' => if String.eqb x n then Some a else lookup_var sigma' n
  end.

(** Simultaneous replacement of the variables bound by [sigma] in a tree (the
    owned children; the expansion template of a tensor handle has its own
    formals and is left alone). *)
Fixpoint subst_vars (sigma : list (string * Expr)) (e : Expr) : Expr :=
  match e with
  | IntImm _ | UIntImm _ | FloatImm _ | StringImm _
  | Free _ | _Range_ | _IterVar_ => e
  | Unary op v => Unary op (subst_vars sigma v)
  | Binary op a b => Binary op (subst_vars sigma a) (subst_vars sigma b)
  | FracOp a b => FracOp (subst_vars sigma a) (subst_vars sigma b)
  | Power a b => Power (subst_vars sigma a) (subst_vars sigma b)
  | Cast v => Cast (subst_vars sigma v)
  | For x mn ext bd =>
      For x (subst_vars sigma mn) (subst_vars sigma ext) (subst_vars sigma bd)
  | PolyFor x mn ext inc bd =>
      PolyFor x (subst_vars sigma mn) (subst_vars sigma ext)
              (subst_vars sigma inc) (subst_vars sigma bd)
  | Select c t f =>
      Select (subst_vars sigma c) (subst_vars sigma t) (subst_vars sigma f)
  | IfThenElse c t f =>
      IfThenElse (subst_vars sigma c) (subst_vars sigma t)
                 (option_map (subst_vars sigma) f)
  | Block stmts => Block (map (subst_vars sigma) stmts)
  | Call n r w => Call n (map (subst_vars sigma) r) (map (subst_vars sigma) w)
  | _Module_ n fs bs ss =>
      _Module_ n (map (subst_vars sigma) fs) (map (subst_vars sigma) bs)
               (map (subst_vars sigma) ss)
  | _Var_ n r lb ub =>
      match lookup_var sigma n with
      | Some a => a
      | None =>
          if r
          then _Var_ n r (option_map (subst_vars sigma) lb)
                     (option_map (subst_vars sigma) ub)
          else e
      end
  | Load t idx => Load (subst_vars sigma t) (map (subst_vars sigma) idx)
  | Store t v idx =>
      Store (subst_vars sigma t) (subst_vars sigma v) (map (subst_vars sigma) idx)
  | Alloc d ext c b =>
      Alloc d (map (subst_vars sigma) ext)
            (option_map (subst_vars sigma) c) (option_map (subst_vars sigma) b)
  | _Buffer_ n sh st off m =>
      _Buffer_ n (map (subst_vars sigma) sh) (map (subst_vars sigma) st)
               (subst_vars sigma off) m
  | _Tensor_ n sh b ax bd => _Tensor_ n (map (subst_vars sigma) sh) b ax bd
  | _LoweredFunc_ n bd => _LoweredFunc_ n (subst_vars sigma bd)
  | Let s b => Let (subst_vars sigma s) (option_map (subst_vars sigma) b)
  | Reduce i b => Reduce (subst_vars sigma i) (subst_vars sigma b)
  | Ramp b s => Ramp (subst_vars sigma b) (subst_vars sigma s)
  | Broadcast v => Broadcast (subst_vars sigma v)
  | Product ops => Product (map (subst_vars sigma) ops)
  | Sum ops => Sum (map (subst_vars sigma) ops)
  end.

(** Modelled from the spec: [optim::IRCopy] is missing; "each Expr exclusively
    owns its children", trees are values here, so the deep copy of a tree is
    that tree. *)
Definition IRCopy (e : Expr) : Expr := e.

(** Modelled from the spec: [optim::ReplaceVarWithExpr] is missing; the index
    expressions have the named axis variable "replaced by the constant
    zero", at every occurrence. *)
Definition ReplaceVarWithExpr (source : Expr) (var : string) (expr : Expr) : Expr :=
  subst_vars [(var, expr)] source.

(** Modelled from the spec: [_Tensor_::inline_expanded] is missing; the result
    is the tensor's "inline-expansion expression with the load's actual index
    expressions bound to the expansion's formal index variables", the
    substitution being "positional and exact"; "an inline tensor missing its
    expansion expression" is fatal ([None]), and so is here a load whose
    number of indices is not the number of formals. *)
Definition inline_expanded (t : Tensor) (indices : list Expr) : option Expr :=
  match tensor_body t with
  | Some b =>
      if Nat.eqb (length (tensor_axis t)) (length indices)
      then Some (subst_vars (zip (tensor_axis t) indices) b)
      else None
  | None => None
  end.

(** ** Stage metadata *)

(** [ComputeAtRelation::level], an [int]. *)
Record ComputeAtRelation := mkComputeAt { level : Z }.

(** Modelled from the spec: [cinn/poly/stage.h] is missing; the stage
    metadata is the "inlined flag, memory-scope, compute-at target + nesting
    level, ordered axis names"; the pass reads [inlined()], [axis_names()]
    and [GetComputeAts()] (a map from the parent tensor's name). *)
Record Stage := mkStage {
  inlined : bool;
  axis_names : list string;
  GetComputeAts : list (string * ComputeAtRelation)
}.

(** ** [TensorInlineExpandMutator] *)

(** The mutable fields of the mutator object. *)
Record MutatorState := mkState {
  inline_code : bool;
  temp_buffer : bool;
  memory_local : bool
}.

Definition set_inline_code (v : bool) (s : MutatorState) : MutatorState :=
  mkState v (temp_buffer s) (memory_local s).
Definition set_temp_buffer (v : bool) (s : MutatorState) : MutatorState :=
  mkState (inline_code s) v (memory_local s).
Definition set_memory_local (v : bool) (s : MutatorState) : MutatorState :=
  mkState (inline_code s) (temp_buffer s) v.

Definition modify {St} (f : St -> St) : M St unit := fun s => Done (tt, f s).

(** The inner loop [for (j = 0; j <= level_tmp; j++)] on one index: [n]
    iterations remain, [j] is the loop counter; [axis_names[j]] out of range
    is fatal ([None]). *)
Fixpoint zero_axes (names : list string) (j n : nat) (idx : Expr) : option Expr :=
  match n with
  | 0 => Some idx
  | S n' =>
      match names !! j with
      | Some x => zero_axes names (S j) n' (ReplaceVarWithExpr (IRCopy idx) x (IntImm 0))
      | None => None
      end
  end.

(** [op->name.substr(0, op->name.size() - 12)] of [Visit(_Tensor_)]. *)
Definition no_cache_name_of_tensor (name : string) : option string :=
  substr name 0 (size_t_sub (Z.of_nat (String.length name)) 12).

(** [tensor->buffer->name.substr(1, tensor->buffer->name.size() - 13)] of
    [Visit(Load)]: the buffer name without its first character and without
    the suffix. *)
Definition no_cache_name_of_buffer (name : string) : option string :=
  substr name 1 (size_t_sub (Z.of_nat (String.length name)) 13).

(** The three suffixes of the second cache branch of [Visit(Load)]. *)
Definition cache_suffix (name : string) : bool :=
  Endswith name "_write_cache" || Endswith name "_read_cache"
  || Endswith name "_temp_buffer".

Section TensorInlineExpandMutator.
Variable tensor_name_ : string.
Variable all_tensor_map_ : gmap string Tensor.
(** [poly::StageMap]: the stage metadata is "external to the tree, looked up
    by tensor name". *)
Variable stages_ : string -> Stage.

(** [all_tensor_map_->at(name)->buffer->memory_type]. *)
Definition at_memory_type (name : string) : M MutatorState MemoryType :=
  match all_tensor_map_ !! name with
  | Some t =>
      match tensor_buffer t with
      | Some b => ret (memory_type b)
      | None => fatal "all_tensor_map: tensor without buffer"
      end
  | None => fatal "all_tensor_map.at: no such tensor"
  end.

(** [Visit(const ir::_Var_ *expr, Expr *op)]. *)
Definition Visit_Var (e : Expr) (name : string) : M MutatorState Slot :=
  s <- get ;;
  if inline_code s && temp_buffer s then
    if Startswith name "blockIdx" || (Startswith name "threadIdx" && memory_local s)
    then ret (Replaced (IntImm 0))
    else ret (Kept e)
  else ret (Kept e).

(** [Visit(const ir::_Tensor_ *op, Expr *expr)]. *)
Definition Visit_Tensor (e : Expr) (name : string) : M MutatorState Slot :=
  s <- get ;;
  if inline_code s && Endswith name "_write_cache" then
    mt <- at_memory_type name ;;
    if MemoryType_eqb mt Heap then
      match no_cache_name_of_tensor name with
      | Some no_cache_name =>
          match all_tensor_map_ !! no_cache_name with
          | Some t => ret (Replaced (Expr_of_Tensor t))
          | None => fatal "CHECK(all_tensor_map_->count(no_cache_name))"
          end
      | None => fatal "substr: position out of range"
      end
    else ret (Kept e)
  else ret (Kept e).

(** The compute-at erasure of both cache branches of [Visit(Load)]: with
    exactly one compute-at relation of level [level_tmp], the axis
    variables of levels [0..level_tmp] become zero in every index. *)
Definition erase_compute_at (t : Tensor) (indices : list Expr)
  : M MutatorState (list Expr) :=
  let axis_names := axis_names (stages_ (tensor_name t)) in
  let compute_ats := GetComputeAts (stages_ (tensor_name t)) in
  match compute_ats with
  | [] => ret indices
  | [(_, rel)] =>
      mapM_st (fun idx =>
              match zero_axes axis_names 0 (Z.to_nat (level rel + 1)) idx with
              | Some idx' => ret idx'
              | None => fatal "axis_names: index out of range"
              end) indices
  | _ => fatal "CHECK_LE(compute_ats.size(), 1)"
  end.

Section Load.
(** The dispatch of the mutator on a child. *)
Variable Visit : Expr -> M MutatorState Slot.

(** The last branch: the tensor handle, then a copy of each index. *)
Definition visit_tensor_and_indices (tensor : Expr) (indices : list Expr)
  : M MutatorState Slot :=
  tensor' <- visit Visit tensor ;;
  indices' <- mapM_st (fun idx => visit Visit (IRCopy idx)) indices ;;
  ret (Kept (Load tensor' indices')).

(** The end of the second cache branch: the tensor handle and the
    indices are visited with [temp_buffer] set, and [memory_local] set
    when the buffer is device-local; both flags are put back. *)
Definition visit_temp_buffer (t : Tensor) (tensor : Expr) (indices : list Expr)
  : M MutatorState Slot :=
  s0 <- get ;;
  let keep_buffer := temp_buffer s0 in
  modify (set_temp_buffer true) ;;;
  let keep_memory_local := memory_local s0 in
  mt <- at_memory_type (tensor_name t) ;;
  (if MemoryType_eqb mt GPULocal
   then modify (set_memory_local true) else ret tt) ;;;
  tensor' <- visit Visit tensor ;;
  indices' <- mapM_st (fun idx => visit Visit (IRCopy idx)) indices ;;
  modify (set_temp_buffer keep_buffer) ;;;
  modify (set_memory_local keep_memory_local) ;;;
  ret (Kept (Load tensor' indices')).

(** [Visit(const ir::Load *op, Expr *expr)]. *)
Definition Visit_Load (tensor : Expr) (indices : list Expr)
  : M MutatorState Slot :=
  s <- get ;;
  match as_tensor tensor with
  | Some t =>
      if String.eqb (tensor_name t) tensor_name_ then
        match inline_expanded t indices with
        | Some e' =>
            modify (set_inline_code true) ;;;
            r <- Visit e' ;;
            modify (set_inline_code false) ;;;
            ret (Replaced (slot_expr r))
        | None => fatal "inline_expanded: not a compute tensor"
        end
      else if inline_code s then
        match tensor_buffer t with
        | Some b =>
            mt <- at_memory_type (tensor_name t) ;;
            let is_heap := MemoryType_eqb mt Heap in
            if Endswith (buffer_name b) "_write_cache" && is_heap then
              match no_cache_name_of_buffer (buffer_name b) with
              | Some no_cache_name =>
                  match all_tensor_map_ !! no_cache_name with
                  | Some _ =>
                      tensor' <- visit Visit tensor ;;
                      ret (Kept (Load tensor' indices))
                  | None =>
                      indices' <- erase_compute_at t indices ;;
                      ret (Kept (Load tensor indices'))
                  end
              | None => fatal "substr: position out of range"
              end
            else if cache_suffix (buffer_name b) then
              indices0 <- erase_compute_at t indices ;;
              visit_temp_buffer t tensor indices0
            else visit_tensor_and_indices tensor indices
        | None => visit_tensor_and_indices tensor indices
        end
      else visit_tensor_and_indices tensor indices
  | None =>
      if inline_code s
      then fatal "tensor->buffer: null tensor"
      else visit_tensor_and_indices tensor indices
  end.
End Load.

(** The dispatch of [TensorInlineExpandMutator]: the three overrides, the
    default traversal for every other kind.  [fuel] bounds the nesting of
    the calls (the tree and the expansions visited inside it). *)
Fixpoint Visit (fuel : nat) (e : Expr) : M MutatorState Slot :=
  match fuel with
  | 0 => fun _ => OutOfFuel
  | S n =>
      match e with
      | _Var_ name _ _ _ => Visit_Var e name
      | _Tensor_ name _ _ _ _ => Visit_Tensor e name
      | Load tensor indices => Visit_Load (Visit n) tensor indices
      | _ => e' <- IRMutator_Visit (Visit n) e ;; ret (Kept e')
      end
  end.

Definition initial_state : MutatorState := mkState false false false.

(** [void operator()(Expr *expr) { ir::IRMutator<>::Visit(expr, expr); }] on
    a freshly constructed mutator. *)
Definition TensorInlineExpandMutator (fuel : nat) (expr : Expr) : Outcome Expr :=
  match Visit fuel expr initial_state with
  | Done (r, _) => Done (slot_expr r)
  | Fatal msg => Fatal msg
  | OutOfFuel => OutOfFuel
  end.
End TensorInlineExpandMutator.

(** ** [ComputeInlineExpand] *)

(** The tensor handles that the [Load] nodes of a tree reference. *)
Definition load_tensors (x : Expr) : list Expr :=
  flat_map (fun n => match n with Load t _ => [t] | _ => [] end) (sub_exprs x).

(** Modelled from the spec: [ir::CollectIRNodes] is missing; it "scans the
    target expression tree" for the nodes the teller accepts. *)
Definition CollectIRNodes (x : Expr) (teller : Expr -> bool) : list Expr :=
  List.filter teller (sub_exprs x).

(** Modelled from the spec: [ir::CollectLoadTensors] is missing; the "re-scan
    for tensors that are still referenced" by a [Load] and accepted by the
    teller. *)
Definition CollectLoadTensors (x : Expr) (teller : Expr -> bool) : list Expr :=
  List.filter teller (load_tensors x).

(** The distinct tensors of a collection, by name, in the order of the scan:
    the loop below only reads [tensor->name]. *)
Definition tensor_names (ts : list Expr) : list string :=
  remove_dups (omap (fun x => tensor_name <$> as_tensor x) ts).

Section ComputeInlineExpand.
Variable stages : string -> Stage.
Variable all_tensor_map : gmap string Tensor.

(** The teller
    [x->as_tensor() && stages[x->as_tensor()]->inlined()]. *)
Definition is_inline_tensor (x : Expr) : bool :=
  match as_tensor x with
  | Some t => inlined (stages (tensor_name t))
  | None => false
  end.

(** [for (const auto &t : inline_tensors)
       TensorInlineExpandMutator(tensor->name, all_tensor_map, stages)(expr);] *)
Fixpoint expand_each (fuel : nat) (names : list string) (expr : Expr)
  : Outcome Expr :=
  match names with
  | [] => Done expr
  | name :: names' =>
      match TensorInlineExpandMutator name all_tensor_map stages fuel expr with
      | Done expr' => expand_each fuel names' expr'
      | Fatal msg => Fatal msg
      | OutOfFuel => OutOfFuel
      end
  end.

(** [while (!inline_tensors.empty()) { ... }]: [rounds] bounds the number
    of iterations, [fuel] the nesting inside one run of the mutator. *)
Fixpoint expand_loop (fuel rounds : nat) (inline_tensors : list Expr)
    (expr : Expr) : Outcome Expr :=
  match inline_tensors with
  | [] => Done expr
  | _ :: _ =>
      match rounds with
      | 0 => OutOfFuel
      | S rounds' =>
          match expand_each fuel (tensor_names inline_tensors) expr with
          | Done expr' =>
              expand_loop fuel rounds'
                (CollectLoadTensors expr' is_inline_tensor) expr'
          | Fatal msg => Fatal msg
          | OutOfFuel => OutOfFuel
          end
      end
  end.

Definition ComputeInlineExpand (fuel rounds : nat) (expr : Expr) : Outcome Expr :=
  expand_loop fuel rounds (CollectIRNodes expr is_inline_tensor) expr.
End ComputeInlineExpand.

(** ** [ComputeInlineExpand] over any two scans

    [ir::CollectIRNodes] and [ir::CollectLoadTensors] are not among the
    files of the repository.  The loop of the pass, with the two calls as
    parameters: what is proved of it holds whatever the two scans report. *)
Section Scans.
Variable collect_ir_nodes collect_load_tensors : Expr -> (Expr -> bool) -> list Expr.
Variable stages : string -> Stage.
Variable all_tensor_map : gmap string Tensor.

Fixpoint expand_loop_with (fuel rounds : nat) (inline_tensors : list Expr)
    (expr : Expr) : Outcome Expr :=
  match inline_tensors with
  | [] => Done expr
  | _ :: _ =>
      match rounds with
      | 0 => OutOfFuel
      | S rounds' =>
          match expand_each stages all_tensor_map fuel
                  (tensor_names inline_tensors) expr with
          | Done expr' =>
              expand_loop_with fuel rounds'
                (collect_load_tensors expr' (is_inline_tensor stages)) expr'
          | Fatal msg => Fatal msg
          | OutOfFuel => OutOfFuel
          end
      end
  end.

Definition ComputeInlineExpand_with (fuel rounds : nat) (expr : Expr)
  : Outcome Expr :=
  expand_loop_with fuel rounds (collect_ir_nodes expr (is_inline_tensor stages))
                   expr.
End Scans.

(** ** [SSABuilder]

    The second mutator of [compute_inline_expand.cc]: it leaves the tree as
    it is and records, for every [Store] it reaches, the tensor written and
    the tensors it depends on. *)

(** Modelled from the spec: [common::Graph] ([cinn/common/graph_utils.h]) is
    missing; it is the "lightweight graph" of the pass, "node = tensor, edge
    = 'depends on'".  The graph of the builder is represented by the calls
    that change it, in the order they are made. *)
Inductive GraphCall :=
| RegisterNode (id : string)
| LinkTo (source sink : string).

Definition Graph : Type := list GraphCall.

(** The ids of the registered nodes, in the order of their registration. *)
Definition registered (g : Graph) : list string :=
  omap (fun c => match c with RegisterNode id => Some id | LinkTo _ _ => None end) g.

(** [graph.RetrieveNode(id)]: the node registered under [id], null when
    there is none (the builder tests the result before it registers). *)
Definition RetrieveNode (g : Graph) (id : string) : bool :=
  bool_decide (id ∈ registered g).

(** [auto *n = graph.RetrieveNode(id);
     if (!n) n = graph.RegisterNode(id, new SSANode(id));] *)
Definition retrieve_or_register (id : string) : M Graph unit :=
  g <- get ;;
  if RetrieveNode g id then ret tt
  else modify (fun g => (g ++ [RegisterNode id])%list).

Section SSABuilder.
(** [_Tensor_::GetDependTensorNames()], not part of the sources. *)
Variable GetDependTensorNames : Tensor -> list string.

(** [SSABuilder::Visit(const ir::Store *op, Expr *expr)]: the node of the
    tensor written is retrieved or registered, then the node of every
    tensor it depends on, which is linked to it.  The handler does not call
    the default handler: nothing below the [Store] is visited. *)
Definition SSABuilder_Visit_Store (e tensor : Expr) : M Graph Slot :=
  match as_tensor tensor with
  | Some t =>
      retrieve_or_register (tensor_name t) ;;;
      mapM_st (fun dep =>
                 retrieve_or_register dep ;;;
                 modify (fun g => (g ++ [LinkTo dep (tensor_name t)])%list))
              (GetDependTensorNames t) ;;;
      ret (Kept e)
  | None => fatal "as_tensor: the target of the store is not a tensor"
  end.

(** The dispatch of [SSABuilder]: the override of [Store], the default
    traversal for every other kind. *)
Fixpoint SSABuilder_Visit (fuel : nat) (e : Expr) : M Graph Slot :=
  match fuel with
  | 0 => fun _ => OutOfFuel
  | S n =>
      match e with
      | Store tensor _ _ => SSABuilder_Visit_Store e tensor
      | _ => e' <- IRMutator_Visit (SSABuilder_Visit n) e ;; ret (Kept e')
      end
  end.

(** [SSABuilder()(expr)] on a fresh builder: the expression as the builder
    leaves it and the graph it has built. *)
Definition SSABuilder (fuel : nat) (expr : Expr) : Outcome (Expr * Graph) :=
  match SSABuilder_Visit fuel expr [] with
  | Done (r, g) => Done (slot_expr r, g)
  | Fatal msg => Fatal msg
  | OutOfFuel => OutOfFuel
  end.
End SSABuilder.

(** ** The default traversal on its own

    A mutator that overrides nothing and records every expression its
    dispatch is called on. *)
Fixpoint trace_Visit (fuel : nat) (e : Expr) : M (list Expr) Slot :=
  match fuel with
  | 0 => fun _ => OutOfFuel
  | S n =>
      modify (fun log : list Expr => (log ++ [e])%list) ;;;
      e' <- IRMutator_Visit (trace_Visit n) e ;;
      ret (Kept e')
  end.

(** The expressions the default traversal reaches from [e], in the order of
    the visits. *)
Fixpoint visited (e : Expr) : list Expr :=
  e ::
  match e with
  | IntImm _ | UIntImm _ | FloatImm _ | StringImm _
  | Free _ | _Range_ | _IterVar_ => []
  | Unary _ v | Cast v | Broadcast v => visited v
  | Binary _ a b | FracOp a b | Power a b => visited a ++ visited b
  | For _ mn ext bd => visited mn ++ visited ext ++ visited bd
  | PolyFor _ _ _ inc bd => visited bd ++ visited inc
  | Select c t f => visited c ++ visited t ++ visited f
  | IfThenElse c t f => visited c ++ visited t ++ nodes_opt visited f
  | Block stmts => flat_map visited stmts
  | Call _ r w => flat_map visited r ++ flat_map visited w
  | _Module_ _ fs bs ss =>
      flat_map visited fs ++ flat_map visited bs ++ flat_map visited ss
  | _Var_ _ r lb ub =>
      if r then nodes_opt visited lb ++ nodes_opt visited ub else []
  | Load _ idx => flat_map visited idx
  | Store t v idx => visited v ++ visited t ++ flat_map visited idx
  | Alloc _ ext c b =>
      flat_map visited ext ++ nodes_opt visited c ++ nodes_opt visited b
  | _Buffer_ _ sh st off _ =>
      flat_map visited sh ++ flat_map visited st ++ visited off
  | _Tensor_ _ sh _ _ _ => flat_map visited sh
  | _LoweredFunc_ _ bd => visited bd
  | Let s b => visited s ++ nodes_opt visited b
  | Reduce i b => visited i ++ visited b
  | Ramp b s => visited b ++ visited s
  | Product ops | Sum ops => flat_map visited ops
  end.

(** ** Launch dimensions, [GatherAxisInfoFromStages]

    Only the declaration and its comment are in [transform_gpu_forloop.h]:
    "Collect the grid and block dims from a group of stages.  The dims is the
    maximum extent of each GPU related forloops." *)

Inductive DeviceAxis := GridDim (offset : nat) | BlockDim (offset : nat).

Definition DeviceAxis_eqb (a b : DeviceAxis) : bool :=
  match a, b with
  | GridDim i, GridDim j | BlockDim i, BlockDim j => Nat.eqb i j
  | _, _ => false
  end.

(** The loops a stage binds to device axes, each with its extent. *)
Record AxisStage := mkAxisStage { bindings : list (DeviceAxis * Z) }.

(** [ir::CudaAxisInfo]: the launch dimension gathered for each axis, if a
    loop is bound to it. *)
Definition CudaAxisInfo : Type := DeviceAxis -> option Z.

Definition bind_extent (info : CudaAxisInfo) (b : DeviceAxis * Z) : CudaAxisInfo :=
  fun ax =>
    if DeviceAxis_eqb (fst b) ax
    then Some match info ax with
              | Some m => Z.max (snd b) m
              | None => snd b
              end
    else info ax.

Definition gather_stage (info : CudaAxisInfo) (st : AxisStage) : CudaAxisInfo :=
  fold_left bind_extent (bindings st) info.

(** Modelled from the spec: the body of [GatherAxisInfoFromStages] is
    missing; it collects, "per axis identity, the maximum extent required
    across all stages that use that axis", "the maximum observed extent, not
    a sum". *)
Definition GatherAxisInfoFromStages (stage_group : list AxisStage) : CudaAxisInfo :=
  fold_left gather_stage stage_group (fun _ => None).

(** The extents of the loops that the stages of a group bind to an axis. *)
Definition extents_of (ax : DeviceAxis) (stage_group : list AxisStage) : list Z :=
  flat_map (fun st =>
              flat_map (fun b : DeviceAxis * Z =>
                          if DeviceAxis_eqb (fst b) ax then [snd b] else [])
                       (bindings st))
           stage_group.

(** ** The handlers as functions on trees *)

(** The default handler of a node when the dispatch leaves [g c] in the slot
    of each child [c] it is called on and keeps the state. *)
Definition rebuild (g : Expr -> Slot) (e : Expr) : Expr :=
  let v c := slot_expr (g c) in
  match e with
  | IntImm _ | UIntImm _ | FloatImm _ | StringImm _
  | Free _ | _Range_ | _IterVar_ => e
  | Unary op a => Unary op (v a)
  | Binary op a b => Binary op (v a) (v b)
  | FracOp a b => FracOp (v a) (v b)
  | Power a b => Power (v a) (v b)
  | Cast a => Cast (v a)
  | For x mn ext bd => For x (v mn) (v ext) (v bd)
  | PolyFor x mn ext inc bd => PolyFor x mn ext (v inc) (v bd)
  | Select c t f => Select (v c) (v t) (v f)
  | IfThenElse c t f => IfThenElse (v c) (v t) (option_map v f)
  | Block stmts => Block (map v stmts)
  | Call n r w => Call n (map v r) (map v w)
  | _Module_ n fs bs ss => _Module_ n (map v fs) (map v bs) (map v ss)
  | _Var_ n r lb ub => if r then _Var_ n r (option_map v lb) (option_map v ub) else e
  | Load t idx => Load t (map v idx)
  | Store t a idx => Store (v t) (v a) (map v idx)
  | Alloc d ext c b =>
      Alloc d (map v ext) (option_map v c)
            (option_map (fun b => match g b with Kept b' => b' | Replaced _ => b end) b)
  | _Buffer_ n sh st off m => _Buffer_ n (map v sh) (map v st) (v off) m
  | _Tensor_ n sh b ax bd => _Tensor_ n (map v sh) b ax bd
  | _LoweredFunc_ n bd => _LoweredFunc_ n (v bd)
  | Let a b => Let (v a) (option_map v b)
  | Reduce i b => Reduce (v i) (v b)
  | Ramp b a => Ramp (v b) (v a)
  | Broadcast a => Broadcast (v a)
  | Product ops => Product (map v ops)
  | Sum ops => Sum (map v ops)
  end.

Section Inline_all.
Variable tensor_name_ : string.

(** What a run of [TensorInlineExpandMutator] for [tensor_name_] leaves in
    the slot of [e] when every expansion comes back from the traversal as it
    is: a load of the tensor is replaced by its expansion (its indices are
    not visited before they are substituted), a variable and a tensor handle
    are kept, every other node is rebuilt by its (default) handler from what
    is left in the slots of the children that the handler visits. *)
Fixpoint inline_all (e : Expr) : Slot :=
  match e with
  | Load tensor indices =>
      match as_tensor tensor with
      | Some t =>
          if String.eqb (tensor_name t) tensor_name_
          then match inline_expanded t indices with
               | Some e' => Replaced e'
               | None => Kept e
               end
          else Kept (Load tensor (map (fun i => slot_expr (inline_all i)) indices))
      | None =>
          Kept (Load (slot_expr (inline_all tensor))
                     (map (fun i => slot_expr (inline_all i)) indices))
      end
  | _Var_ _ _ _ _ | _Tensor_ _ _ _ _ _ => Kept e
  | _ => Kept (rebuild inline_all e)
  end.
End Inline_all.


(** ** Predicates and measures used in the statements *)

(** Every result of [m] is a result of [m']. *)
Definition le_M {St A} (m m' : M St A) : Prop :=
  forall s r, m s = Done r -> m' s = Done r.

(** The two scratch flags agree in [s] and [s']. *)
Definition same_scratch (s s' : MutatorState) : Prop :=
  temp_buffer s' = temp_buffer s /\ memory_local s' = memory_local s.

(** A reduction axis has its two bounds. *)
Definition bounds_defined (e : Expr) : Prop :=
  match e with
  | _Var_ _ true lb ub => is_Some lb /\ is_Some ub
  | _ => True
  end.

(** None of the three cache suffixes. *)
Definition no_cache_suffix (name : string) : bool := negb (cache_suffix name).

Section Quiet.
Variable tensor_name_ : string.
Variable all_tensor_map_ : gmap string Tensor.

(** [all_tensor_map_->at(name)->buffer] is there. *)
Definition has_buffer (name : string) : bool :=
  match all_tensor_map_ !! name with
  | Some t => bool_decide (is_Some (tensor_buffer t))
  | None => false
  end.

(** A node on which no override of the mutator acts, outside inline code
    ([inl = false]) or inside it: a load of another tensor (inside inline
    code: of a tensor without buffer, or with a registered buffer that has
    none of the cache suffixes), a tensor handle that is not a write cache
    inside inline code, any node of another kind. *)
Definition quiet_node (inl : bool) (node : Expr) : bool :=
  match node with
  | Load t _ =>
      match as_tensor t with
      | Some t' =>
          negb (String.eqb (tensor_name t') tensor_name_)
          && (negb inl
              || match tensor_buffer t' with
                 | Some b => has_buffer (tensor_name t')
                             && no_cache_suffix (buffer_name b)
                 | None => true
                 end)
      | None => negb inl
      end
  | _Tensor_ n _ _ _ _ => negb inl || negb (Endswith n "_write_cache")
  | _ => true
  end.

Definition quiet (inl : bool) (e : Expr) : bool :=
  forallb (quiet_node inl) (sub_exprs e).
End Quiet.

(** No [Load] of the tree references a tensor that is flagged inlined. *)
Definition no_inline_load (stages : string -> Stage) (e : Expr) : Prop :=
  forall t idx, Load t idx ∈ sub_exprs e -> is_inline_tensor stages t = false.

(** The names of the variables that occur in a tree. *)
Definition var_names (e : Expr) : list string :=
  omap (fun n => match n with _Var_ x _ _ _ => Some x | _ => None end)
       (sub_exprs e).

(** The substitution that sends each of the names to the constant zero. *)
Definition zeros (names : list string) : list (string * Expr) :=
  map (fun x => (x, IntImm 0)) names.

(** The axes that the erasure replaces for a tensor that computes at level
    [lvl]. *)
Definition erased_axes (stages_ : string -> Stage) (name : string) (lvl : Z)
  : list string :=
  take (Z.to_nat (lvl + 1)) (axis_names (stages_ name)).

(** The state after the handlers of the expressions [l] ran in turn, when
    the handler of [c] takes the state [s] to [f c s]. *)
Definition thread {St} (f : Expr -> St -> St) (s : St) (l : list Expr) : St :=
  foldl (fun s c => f c s) s l.

(** The maximum of a list of extents, if there is one. *)
Definition max_extent (l : list Z) : option Z :=
  foldl (fun acc x => Some match acc with Some m => Z.max x m | None => x end)
        None l.

(** The handler of the dispatch, called on [c] in some state, completed and
    left [c'] in the slot. *)
Definition lands {St} (self : Expr -> M St Slot) (c c' : Expr) : Prop :=
  exists s1 r s2, self c s1 = Done (r, s2) /\ c' = slot_expr r.

(** The scratch flags agree in [s] and [s'], and [inline_code] is not set in
    [s'] unless it is in [s]. *)
Definition settled (s s' : MutatorState) : Prop :=
  same_scratch s s' /\ (inline_code s' = true -> inline_code s = true).

(** Every node of the graph is registered once and every edge joins
    registered nodes. *)
Definition well_linked (g : Graph) : Prop :=
  NoDup (registered g)
  /\ forall a b, LinkTo a b ∈ g -> a ∈ registered g /\ b ∈ registered g.

(** [g'] is [g] followed by further calls, and is well linked if [g] is. *)
Definition graph_extends (g g' : Graph) : Prop :=
  (exists l, g' = (g ++ l)%list) /\ (well_linked g -> well_linked g').

(** Every [Store] of the tree writes to a tensor. *)
Definition stores_to_tensors (e : Expr) : Prop :=
  forall t v idx, Store t v idx ∈ sub_exprs e -> is_Some (as_tensor t).

(** No [Load] of the tree references a tensor called [name]. *)
Definition not_loaded (name : string) (e : Expr) : Prop :=
  forall tensor idx t,
    Load tensor idx ∈ sub_exprs e -> as_tensor tensor = Some t ->
    tensor_name t <> name.

(** Every load of the tensor [name] in the tree has an expansion, of depth
    at most [bound], that the traversal of inline code leaves as it is. *)
Definition expansions_quiet (name : string) (all_tensor_map : gmap string Tensor)
    (bound : nat) (e : Expr) : Prop :=
  forall tensor idx t,
    Load tensor idx ∈ sub_exprs e -> as_tensor tensor = Some t ->
    tensor_name t = name ->
    exists x, inline_expanded t idx = Some x
              /\ quiet name all_tensor_map true x = true
              /\ height x <= bound.

(** [name] is the only inlined tensor that the tree loads. *)
Definition only_inlined_load (stages : string -> Stage) (name : string) (e : Expr)
  : Prop :=
  forall tensor idx t,
    Load tensor idx ∈ sub_exprs e -> as_tensor tensor = Some t ->
    inlined (stages (tensor_name t)) = true -> tensor_name t = name.

(** The children of a node that no handler of [TensorInlineExpandMutator]
    passes to the dispatch: the lower bound and the extent of a [PolyFor],
    the bounds of a variable, the shape of a tensor handle. *)
Definition skipped_children (e : Expr) : list Expr :=
  match e with
  | PolyFor _ mn ext _ _ => [mn; ext]
  | _Var_ _ _ _ _ | _Tensor_ _ _ _ _ _ => children e
  | _ => []
  end.

(** The traversal of [TensorInlineExpandMutator] reaches every load of the
    tensor [name] in the tree, in a slot of the tree: every load has a
    tensor handle, no child that the traversal skips loads the tensor, and
    no load of the tensor is the body of an [Alloc]. *)
Definition reaches_loads (name : string) (e : Expr) : Prop :=
  forall node, node ∈ sub_exprs e ->
    (forall c, c ∈ skipped_children node -> not_loaded name c)
    /\ match node with
       | Load tensor _ => is_Some (as_tensor tensor)
       | Alloc _ _ _ (Some (Load tensor _)) =>
           forall t, as_tensor tensor = Some t -> tensor_name t <> name
       | _ => True
       end.

(** [Load t i] is in the tree with some indices and [t] is not the tensor
    [name], or it is in the expansion of a load of [name] in the tree. *)
Definition load_origin (name : string) (e : Expr) (t : Expr) (i : list Expr) : Prop :=
  (exists idx, Load t idx ∈ sub_exprs e
               /\ forall tt, as_tensor t = Some tt -> tensor_name tt <> name)
  \/ (exists tensor idx tt x,
        Load tensor idx ∈ sub_exprs e /\ as_tensor tensor = Some tt
        /\ tensor_name tt = name /\ inline_expanded tt idx = Some x
        /\ Load t i ∈ sub_exprs x).

(** Every expansion of a load of the tensor [name] in the tree loads no
    inlined tensor. *)
Definition expansions_final (stages : string -> Stage) (name : string) (e : Expr)
  : Prop :=
  forall tensor idx t x,
    Load tensor idx ∈ sub_exprs e -> as_tensor tensor = Some t ->
    tensor_name t = name -> inline_expanded t idx = Some x ->
    no_inline_load stages x.

(** No run of the mutator, for whatever tensor, changes the tree. *)
Definition handed_back (stages : string -> Stage)
    (all_tensor_map : gmap string Tensor) (e : Expr) : Prop :=
  forall name fuel e',
    TensorInlineExpandMutator name all_tensor_map stages fuel e = Done e' ->
    e' = e.


(** ** Concrete trees *)

Module Ex.
Definition var (n : string) : Expr := _Var_ n false None None.

(** A materialised tensor in heap memory, buffer [_name]. *)
Definition heap_tensor (n : string) : Tensor :=
  mkTensor n [] (Some (mkBuffer ("_" ++ n) Heap)) [] None.
Definition heap (n : string) : Expr := Expr_of_Tensor (heap_tensor n).

(** A cache or scratch tensor [name] with buffer [_name] in scope [m]. *)
Definition cache_tensor (n : string) (m : MemoryType) : Tensor :=
  mkTensor n [] (Some (mkBuffer ("_" ++ n) m)) [] None.
Definition cache (n : string) (m : MemoryType) : Expr :=
  Expr_of_Tensor (cache_tensor n m).

(** [U(k) = A[k] * 2], [T(i, j) = U[i] + B[j]], both inlined. *)
Definition U : Expr :=
  _Tensor_ "U" [] None ["k"]
    (Some (Binary Mul (Load (heap "A") [var "k"]) (IntImm 2))).
Definition T : Expr :=
  _Tensor_ "T" [] None ["i"; "j"]
    (Some (Binary Add (Load U [var "i"]) (Load (heap "B") [var "j"]))).

(** The tensor of the spec's example, [E(i, j) = A[i, j] + B[j]]. *)
Definition E : Expr :=
  _Tensor_ "E" [] None ["i"; "j"]
    (Some (Binary Add (Load (heap "A") [var "i"; var "j"])
                      (Load (heap "B") [var "j"]))).

(** [R(i) = S_read_cache[i]]: the expansion reads a cache. *)
Definition R : Expr :=
  _Tensor_ "R" [] None ["i"]
    (Some (Load (cache "S_read_cache" GPUShared) [var "i"])).

(** [K(i) = 1]: no dependency at all. *)
Definition K : Expr := _Tensor_ "K" [] None ["i"] (Some (IntImm 1)).

Definition all_tensor_map : gmap string Tensor :=
  list_to_map
    [("A", heap_tensor "A"); ("B", heap_tensor "B"); ("C", heap_tensor "C");
     ("C_write_cache", cache_tensor "C_write_cache" Heap);
     ("D_write_cache", cache_tensor "D_write_cache" Heap);
     ("S_read_cache", cache_tensor "S_read_cache" GPUShared);
     ("L_temp_buffer", cache_tensor "L_temp_buffer" GPULocal)].

Definition is_cache (n : string) : bool :=
  bool_decide (n ∈ ["C_write_cache"; "D_write_cache"; "S_read_cache";
                     "L_temp_buffer"]).

(** [T], [U], [E], [R] and [K] are inlined; the caches compute at level 1
    of a nest with the axes [i], [j], [k]. *)
Definition stages (n : string) : Stage :=
  mkStage (bool_decide (n ∈ ["T"; "U"; "E"; "R"; "K"]))
          (if is_cache n then ["i"; "j"; "k"] else [])
          (if is_cache n then [("C", mkComputeAt 1)] else []).

Definition inline : MutatorState := mkState true false false.

(** [C[x, y] = T[x + 1, y]]. *)
Definition store_T : Expr :=
  Store (heap "C") (Load T [Binary Add (var "x") (IntImm 1); var "y"])
        [var "x"; var "y"].

Definition store_T_expanded : Expr :=
  Store (heap "C")
        (Binary Add
           (Binary Mul (Load (heap "A") [Binary Add (var "x") (IntImm 1)])
                   (IntImm 2))
           (Load (heap "B") [var "y"]))
        [var "x"; var "y"].

(** A loop whose lower bound loads the inlined [K]. *)
Definition poly_loop : Expr :=
  PolyFor "i" (Load K [IntImm 0]) (IntImm 10) (IntImm 1)
          (Store (heap "C") (var "i") [var "i"]).

(** A reduction over the axis [k], whose upper bound loads the inlined [K]. *)
Definition reduce_bound : Expr :=
  Store (heap "C")
        (Reduce (IntImm 0)
           (Load (heap "A")
                 [_Var_ "k" true (Some (IntImm 0)) (Some (Load K [IntImm 0]))]))
        [var "x"].
(** A scratch allocation whose body is, directly, a load of the inlined
    [K]. *)
Definition alloc_K : Expr :=
  Alloc "tmp" [IntImm 4] None (Some (Load K [IntImm 0])).

(** A buffer-backed tensor that the tensor map does not hold. *)
Definition unregistered : Expr :=
  _Tensor_ "Z" [] (Some (mkBuffer "_Z" Heap)) [] None.

(** Stage metadata in which every tensor computes at two parents. *)
Definition two_parents (n : string) : Stage :=
  mkStage false ["i"; "j"; "k"] [("A", mkComputeAt 0); ("B", mkComputeAt 1)].

(** [C] depends on [T], [T] on [U] and [B], [U] on [A]. *)
Definition depends (t : Tensor) : list string :=
  if String.eqb (tensor_name t) "C" then ["T"]
  else if String.eqb (tensor_name t) "T" then ["U"; "B"]
  else if String.eqb (tensor_name t) "U" then ["A"]
  else [].

(** [C[x, y] = T[x + 1, y]; T[x, y] = 0] in one block. *)
Definition two_stores : Expr :=
  Block [store_T; Store T (IntImm 0) [var "x"; var "y"]].

(** [C[x, y] = E[x + 1, y]]. *)
Definition store_E : Expr :=
  Store (heap "C") (Load E [Binary Add (var "x") (IntImm 1); var "y"])
        [var "x"; var "y"].


(** [P(i) = A[i] + L_temp_buffer[blockIdx.x]]. *)
Definition P : Expr :=
  _Tensor_ "P" [] None ["i"]
    (Some (Binary Add (Load (Ex.heap "A") [Ex.var "i"])
                      (Load (Ex.cache "L_temp_buffer" GPULocal)
                            [Ex.var "blockIdx.x"]))).

End Ex.

(** * Properties *)

(** ** The monad *)

Lemma bind_Done {St A B} (m : M St A) (k : A -> M St B) s b s2 :
  bind m k s = Done (b, s2) ->
  exists a s1, m s = Done (a, s1) /\ k a s1 = Done (b, s2).
Proof.
  unfold bind. destruct (m s) as [[a s1]| |]; [eauto | done | done].
Qed.

Lemma ret_Done {St A} (a b : A) (s s' : St) :
  ret a s = Done (b, s') -> b = a /\ s' = s.
Proof. unfold ret. by inversion 1. Qed.

Lemma modify_Done {St} (f : St -> St) (s s' : St) u :
  modify f s = Done (u, s') -> s' = f s.
Proof. unfold modify. by inversion 1. Qed.

Lemma get_Done {St} (s s' x : St) :
  get s = Done (x, s') -> x = s /\ s' = s.
Proof. unfold get. by inversion 1. Qed.

(** Inversion of a completed computation into its steps. *)
Ltac inv_M :=
  repeat match goal with
  | H : bind _ _ _ = Done (_, _) |- _ =>
      let a := fresh "a" in let s := fresh "s" in let E := fresh "E" in
      apply bind_Done in H as (a & s & E & H)
  | H : ret _ _ = Done (_, _) |- _ => apply ret_Done in H as [-> ->]
  | H : modify _ _ = Done (_, _) |- _ => apply modify_Done in H as ->
  | H : get _ = Done (_, _) |- _ => apply get_Done in H as [-> ->]
  | H : fatal _ _ = Done _ |- _ => discriminate H
  | H : Fatal _ = Done _ |- _ => discriminate H
  | H : OutOfFuel = Done _ |- _ => discriminate H
  end.

(** ** State relations kept by the default traversal *)
Section Preserves.
Context {St : Type} (R : St -> St -> Prop).
Context `{!Reflexive R, !Transitive R}.
Variable self : Expr -> M St Slot.
Hypothesis self_R : forall c s r s', self c s = Done (r, s') -> R s s'.

Lemma visit_R c s c' s' : visit self c s = Done (c', s') -> R s s'.
Proof. unfold visit. intros H. inv_M. eauto. Qed.

Lemma mapM_R {A B} (f : A -> M St B) l :
  (forall x s y s', f x s = Done (y, s') -> R s s') ->
  forall s ys s', mapM_st f l s = Done (ys, s') -> R s s'.
Proof.
  intros Hf. induction l as [|x l IH]; simpl; intros s ys s' H; inv_M.
  - reflexivity.
  - etrans; [eapply Hf | eapply IH]; eauto.
Qed.

Lemma visit_opt_R o s o' s' : visit_opt self o s = Done (o', s') -> R s s'.
Proof.
  destruct o; simpl; intros H; inv_M; [eapply visit_R; eauto | reflexivity].
Qed.

Lemma visit_defined_R o s o' s' :
  visit_defined self o s = Done (o', s') -> R s s'.
Proof. destruct o; simpl; intros H; inv_M. eapply visit_R; eauto. Qed.

Lemma visit_detached_R o s o' s' :
  visit_detached self o s = Done (o', s') -> R s s'.
Proof. destruct o; simpl; intros H; inv_M; [eauto | reflexivity]. Qed.

Lemma IRMutator_Visit_R e s e' s' :
  IRMutator_Visit self e s = Done (e', s') -> R s s'.
Proof.
  pose proof visit_R as H1. pose proof visit_opt_R as H2.
  pose proof visit_defined_R as H3. pose proof visit_detached_R as H4.
  assert (forall l s ys s', mapM_st (visit self) l s = Done (ys, s') -> R s s')
    as H5 by (intros l; apply mapM_R; eauto).
  destruct e; simpl; try match goal with |- context [if ?b then _ else _] =>
    destruct b end; intros Hd; inv_M; try reflexivity;
    repeat match goal with
    | E : _ = Done (_, _) |- _ =>
        first [apply H1 in E | apply H2 in E | apply H3 in E
              | apply H4 in E | apply H5 in E]
    end;
    repeat match goal with
    | |- R ?s ?s => reflexivity
    | E : R ?s ?x |- R ?s _ => (etrans; [exact E |]); clear E
    end.
Qed.
End Preserves.

(** ** Where the default traversal changes nothing *)

Lemma bind_step {St A B} (m : M St A) (k : A -> M St B) s a s1 :
  m s = Done (a, s1) -> bind m k s = k a s1.
Proof. unfold bind. by intros ->. Qed.

Section Identity.
Context {St : Type}.
Variable self : Expr -> M St Slot.
Variable s : St.

Lemma visit_id c : self c s = Done (Kept c, s) -> visit self c s = Done (c, s).
Proof. unfold visit. intros H. by rewrite (bind_step _ _ _ _ _ H). Qed.

Lemma mapM_st_id {A} (f : A -> M St A) (l : list A) :
  (forall x, x ∈ l -> f x s = Done (x, s)) -> mapM_st f l s = Done (l, s).
Proof.
  induction l as [|x l IH]; intros H; simpl; [done |].
  rewrite (bind_step _ _ _ x s) by (apply H; set_solver).
  rewrite (bind_step _ _ _ l s) by (apply IH; intros; apply H; set_solver).
  done.
Qed.

Lemma visit_list_id (l : list Expr) :
  (forall c, c ∈ l -> self c s = Done (Kept c, s)) ->
  mapM_st (visit self) l s = Done (l, s).
Proof. intros H. apply mapM_st_id. intros. by apply visit_id, H. Qed.

Lemma visit_opt_id o :
  (forall c, c ∈ opt_list o -> self c s = Done (Kept c, s)) ->
  visit_opt self o s = Done (o, s).
Proof.
  destruct o as [c|]; simpl; intros H; [| done].
  by rewrite (bind_step _ _ _ c s) by (apply visit_id, H; set_solver).
Qed.

Lemma visit_defined_id o :
  is_Some o ->
  (forall c, c ∈ opt_list o -> self c s = Done (Kept c, s)) ->
  visit_defined self o s = Done (o, s).
Proof.
  intros [c ->]; simpl; intros H.
  by rewrite (bind_step _ _ _ c s) by (apply visit_id, H; set_solver).
Qed.

Lemma visit_detached_id o :
  (forall c, c ∈ opt_list o -> self c s = Done (Kept c, s)) ->
  visit_detached self o s = Done (o, s).
Proof.
  destruct o as [c|]; simpl; intros H; [| done].
  by rewrite (bind_step _ _ _ (Kept c) s) by (apply H; set_solver).
Qed.

Lemma IRMutator_Visit_id e :
  bounds_defined e ->
  (forall c, c ∈ visited_children e -> self c s = Done (Kept c, s)) ->
  IRMutator_Visit self e s = Done (e, s).
Proof.
  intros Hb H.
  destruct e; simpl in *; try done;
    try match goal with r : bool |- _ => destruct r; [destruct Hb |]; try done end;
    repeat first
      [ rewrite (bind_step (visit self _) _ _ _ s)
          by (apply visit_id, H; set_solver)
      | rewrite (bind_step (mapM_st (visit self) _) _ _ _ s)
          by (apply visit_list_id; intros; apply H; set_solver)
      | rewrite (bind_step (visit_opt self _) _ _ _ s)
          by (apply visit_opt_id; intros; apply H; set_solver)
      | rewrite (bind_step (visit_defined self _) _ _ _ s)
          by (apply visit_defined_id; [done | intros; apply H; set_solver])
      | rewrite (bind_step (visit_detached self _) _ _ _ s)
          by (apply visit_detached_id; intros; apply H; set_solver) ];
    done.
Qed.
End Identity.

(** ** The default handlers as a function on trees *)

Section Rebuild.
Context {St : Type}.
Variable self : Expr -> M St Slot.
Variable g : Expr -> Slot.
Variable s : St.

Lemma visit_rebuild c :
  self c s = Done (g c, s) -> visit self c s = Done (slot_expr (g c), s).
Proof. unfold visit. intros H. by rewrite (bind_step _ _ _ _ _ H). Qed.

Lemma visit_list_rebuild (l : list Expr) :
  (forall c, c ∈ l -> self c s = Done (g c, s)) ->
  mapM_st (visit self) l s = Done (map (fun c => slot_expr (g c)) l, s).
Proof.
  induction l as [|c l IH]; intros H; simpl; [done |].
  rewrite (bind_step _ _ _ (slot_expr (g c)) s)
    by (apply visit_rebuild, H, elem_of_cons; by left).
  rewrite (bind_step _ _ _ (map (fun c => slot_expr (g c)) l) s)
    by (apply IH; intros; apply H, elem_of_cons; by right).
  done.
Qed.

Lemma visit_opt_rebuild o :
  (forall c, c ∈ opt_list o -> self c s = Done (g c, s)) ->
  visit_opt self o s = Done (option_map (fun c => slot_expr (g c)) o, s).
Proof.
  destruct o as [c|]; simpl; intros H; [| done].
  by rewrite (bind_step _ _ _ (slot_expr (g c)) s)
    by (apply visit_rebuild, H, elem_of_cons; by left).
Qed.

Lemma visit_defined_rebuild o :
  is_Some o ->
  (forall c, c ∈ opt_list o -> self c s = Done (g c, s)) ->
  visit_defined self o s = Done (option_map (fun c => slot_expr (g c)) o, s).
Proof.
  intros [c ->]; simpl; intros H.
  by rewrite (bind_step _ _ _ (slot_expr (g c)) s)
    by (apply visit_rebuild, H, elem_of_cons; by left).
Qed.

Lemma visit_detached_rebuild o :
  (forall c, c ∈ opt_list o -> self c s = Done (g c, s)) ->
  visit_detached self o s
  = Done (option_map (fun b => match g b with Kept b' => b' | Replaced _ => b end) o,
          s).
Proof.
  destruct o as [c|]; simpl; intros H; [| done].
  by rewrite (bind_step _ _ _ (g c) s) by (apply H, elem_of_cons; by left).
Qed.

Lemma IRMutator_Visit_rebuild e :
  bounds_defined e ->
  (forall c, c ∈ visited_children e -> self c s = Done (g c, s)) ->
  IRMutator_Visit self e s = Done (rebuild g e, s).
Proof.
  intros Hb H.
  destruct e; simpl in *; try done;
    try match goal with r : bool |- _ => destruct r; [destruct Hb |]; try done end;
    repeat first
      [ rewrite (bind_step (visit self _) _ _ _ s)
          by (apply visit_rebuild, H; set_solver)
      | rewrite (bind_step (mapM_st (visit self) _) _ _ _ s)
          by (apply visit_list_rebuild; intros; apply H; set_solver)
      | rewrite (bind_step (visit_opt self _) _ _ _ s)
          by (apply visit_opt_rebuild; intros; apply H; set_solver)
      | rewrite (bind_step (visit_defined self _) _ _ _ s)
          by (apply visit_defined_rebuild; [done | intros; apply H; set_solver])
      | rewrite (bind_step (visit_detached self _) _ _ _ s)
          by (apply visit_detached_rebuild; intros; apply H; set_solver) ];
    done.
Qed.
End Rebuild.

(** ** The shape of trees *)

Lemma flat_map_opt_list (f : Expr -> list Expr) o :
  flat_map f (opt_list o) = nodes_opt f o.
Proof. destruct o; simpl; by rewrite ?app_nil_r. Qed.

Lemma sub_exprs_unfold e : sub_exprs e = e :: flat_map sub_exprs (children e).
Proof.
  destruct e; simpl; try match goal with r : bool |- _ => destruct r end;
    rewrite ?flat_map_app, ?flat_map_opt_list; simpl;
    rewrite ?app_nil_r, <- ?app_assoc; done.
Qed.

Lemma visited_unfold e : visited e = e :: flat_map visited (visited_children e).
Proof.
  destruct e; simpl; try match goal with r : bool |- _ => destruct r end;
    rewrite ?flat_map_app, ?flat_map_opt_list; simpl;
    rewrite ?app_nil_r, <- ?app_assoc; done.
Qed.

Lemma visited_children_children e c : c ∈ visited_children e -> c ∈ children e.
Proof.
  destruct e; simpl; try match goal with r : bool |- _ => destruct r end;
    rewrite ?elem_of_cons, ?elem_of_app, ?elem_of_nil; tauto.
Qed.

Lemma heights_elem (l : list Expr) c : c ∈ l -> height c <= heights height l.
Proof.
  induction l as [|x l IH]; simpl; [set_solver |].
  intros [-> | H]%elem_of_cons; [lia | specialize (IH H); lia].
Qed.

Lemma height_opt_elem o c : c ∈ opt_list o -> height c <= height_opt height o.
Proof. destruct o; simpl; [intros ->%list_elem_of_singleton; lia | set_solver]. Qed.

Lemma height_children e c : c ∈ children e -> height c < height e.
Proof.
  destruct e; simpl; try match goal with r : bool |- _ => destruct r end;
    rewrite ?elem_of_cons, ?elem_of_app, ?elem_of_nil;
    intros H;
    repeat match goal with
    | H : _ \/ _ |- _ => destruct H as [H | H]
    | H : _ ∈ opt_list _ |- _ => apply height_opt_elem in H
    | H : _ ∈ _ |- _ => apply heights_elem in H
    | H : False |- _ => destruct H
    end; subst; unfold heights, height_opt in *; simpl in *; lia.
Qed.

Lemma sub_exprs_self e : e ∈ sub_exprs e.
Proof. rewrite sub_exprs_unfold. set_solver. Qed.

Lemma sub_exprs_child e c x :
  c ∈ children e -> x ∈ sub_exprs c -> x ∈ sub_exprs e.
Proof.
  intros Hc Hx. rewrite sub_exprs_unfold. apply elem_of_cons. right.
  apply list_elem_of_In, in_flat_map. exists c.
  split; by apply list_elem_of_In.
Qed.

(** ** The scratch flags of [TensorInlineExpandMutator] *)

#[local] Instance same_scratch_refl : Reflexive same_scratch.
Proof. by intros s. Qed.

#[local] Instance same_scratch_trans : Transitive same_scratch.
Proof. intros s1 s2 s3 [H1 H2] [H3 H4]. split; congruence. Qed.

Section Mutator_facts.
Variable tensor_name_ : string.
Variable all_tensor_map_ : gmap string Tensor.
Variable stages_ : string -> Stage.

#[local] Abbreviation Visit := (Visit tensor_name_ all_tensor_map_ stages_).
#[local] Abbreviation Visit_Load := (Visit_Load tensor_name_ all_tensor_map_ stages_).
#[local] Abbreviation Visit_Tensor := (Visit_Tensor all_tensor_map_).
#[local] Abbreviation at_memory_type := (at_memory_type all_tensor_map_).
#[local] Abbreviation erase_compute_at := (erase_compute_at stages_).

Lemma at_memory_type_Done name s mt s' :
  at_memory_type name s = Done (mt, s') ->
  s' = s /\ exists t b, all_tensor_map_ !! name = Some t
                        /\ tensor_buffer t = Some b /\ memory_type b = mt.
Proof.
  unfold at_memory_type. intros H. repeat case_match; inv_M; eauto 10.
Qed.

Lemma mapM_pure {St A B} (f : A -> option B) msg (l : list A) (s : St) :
  mapM_st (fun x => match f x with Some y => ret y | None => fatal msg end) l s
  = match mapM (M := option) f l with
    | Some ys => Done (ys, s)
    | None => Fatal msg
    end.
Proof.
  induction l as [|x l IH]; simpl; [done |].
  unfold bind at 1. destruct (f x) as [y|]; simpl; [| done].
  unfold bind at 1. rewrite IH. by destruct (mapM f l).
Qed.

Lemma erase_compute_at_Done t indices s indices' s' :
  erase_compute_at t indices s = Done (indices', s') -> s' = s.
Proof.
  unfold erase_compute_at. intros H. repeat case_match; inv_M; try done.
  rewrite mapM_pure in H. by case_match; simplify_eq.
Qed.

Lemma Visit_Var_Done e name s r s' :
  Visit_Var e name s = Done (r, s') -> s' = s.
Proof. unfold Visit_Var. intros H. inv_M. by repeat case_match; inv_M. Qed.

Lemma Visit_Tensor_Done e name s r s' :
  Visit_Tensor e name s = Done (r, s') -> s' = s.
Proof.
  unfold Visit_Tensor. intros H. inv_M.
  repeat case_match; inv_M; try done;
    repeat match goal with
    | E : at_memory_type _ _ = Done _ |- _ =>
        apply at_memory_type_Done in E as [-> _]
    end; try done.
  all: by repeat case_match; inv_M.
Qed.

(** Bookkeeping on the flags: every completed step is turned into what it
    says about [temp_buffer] and [memory_local]. *)
Ltac scratch_steps HV :=
  repeat match goal with
  | E : at_memory_type _ _ = Done _ |- _ =>
      apply at_memory_type_Done in E as [-> _]
  | E : erase_compute_at _ _ _ = Done _ |- _ =>
      apply erase_compute_at_Done in E as ->
  | E : visit _ _ _ = Done _ |- _ =>
      apply (visit_R same_scratch _ HV) in E as [? ?]
  | E : mapM_st _ _ _ = Done _ |- _ =>
      apply (mapM_R same_scratch _ _
               (fun x => visit_R same_scratch _ HV (IRCopy x))) in E as [? ?]
  | E : _ _ _ = Done (_, _) |- _ => apply HV in E as [? ?]
  end.

Lemma Visit_Load_scratch (V : Expr -> M MutatorState Slot) :
  (forall c s r s', V c s = Done (r, s') -> same_scratch s s') ->
  forall tensor indices s r s',
    Visit_Load V tensor indices s = Done (r, s') -> same_scratch s s'.
Proof.
  intros HV tensor indices s r s' H. unfold Visit_Load in H. inv_M.
  unfold visit_tensor_and_indices, visit_temp_buffer in H.
  repeat case_match; inv_M; scratch_steps HV;
    repeat case_match; inv_M; scratch_steps HV;
    split; simpl in *; congruence.
Qed.

Lemma Visit_S n e :
  Visit (S n) e =
  match e with
  | _Var_ name _ _ _ => Visit_Var e name
  | _Tensor_ name _ _ _ _ => Visit_Tensor e name
  | Load tensor indices => Visit_Load (Visit n) tensor indices
  | _ => e' <- IRMutator_Visit (Visit n) e ;; ret (Kept e')
  end.
Proof. reflexivity. Qed.

End Mutator_facts.

Section Quiet_facts.
Variable tensor_name_ : string.
Variable all_tensor_map_ : gmap string Tensor.
Variable stages_ : string -> Stage.

#[local] Abbreviation Visit := (Visit tensor_name_ all_tensor_map_ stages_).
#[local] Abbreviation quiet := (quiet tensor_name_ all_tensor_map_).
#[local] Abbreviation quiet_node := (quiet_node tensor_name_ all_tensor_map_).

Lemma quiet_self inl e : quiet inl e = true -> quiet_node inl e = true.
Proof.
  unfold quiet. rewrite forallb_forall. intros H. apply H.
  apply list_elem_of_In, sub_exprs_self.
Qed.

Lemma quiet_child inl e c :
  c ∈ children e -> quiet inl e = true -> quiet inl c = true.
Proof.
  unfold quiet. rewrite !forallb_forall. intros Hc H x Hx. apply H.
  apply list_elem_of_In. eapply sub_exprs_child; [done |].
  by apply list_elem_of_In.
Qed.

Lemma has_buffer_at name (s : MutatorState) :
  has_buffer all_tensor_map_ name = true ->
  exists mt, at_memory_type all_tensor_map_ name s = Done (mt, s).
Proof.
  unfold has_buffer, at_memory_type.
  destruct (all_tensor_map_ !! name) as [t|]; [| done].
  intros [b ->]%bool_decide_eq_true. eauto.
Qed.

Lemma no_cache_suffix_false name :
  no_cache_suffix name = true ->
  Endswith name "_write_cache" = false
  /\ Endswith name "_read_cache" = false
  /\ Endswith name "_temp_buffer" = false.
Proof.
  unfold no_cache_suffix, cache_suffix.
  destruct (Endswith name "_write_cache"), (Endswith name "_read_cache"),
    (Endswith name "_temp_buffer"); simpl; intros; try done.
Qed.

(** On a quiet tree, in a state that is not inside a temporary buffer, the
    mutator completes, changes nothing and keeps its state. *)
Lemma Visit_quiet fuel :
  forall e s,
    inline_code s && temp_buffer s = false ->
    quiet (inline_code s) e = true ->
    height e <= fuel ->
    Visit fuel e s = Done (Kept e, s).
Proof.
  induction fuel as [|n IH]; intros e s Hs Hq Hh.
  { destruct e; simpl in Hh; lia. }
  assert (forall c, c ∈ children e -> Visit n c s = Done (Kept c, s)) as Hc.
  { intros c Hc. apply IH; [done | by eapply quiet_child |].
    apply height_children in Hc. lia. }
  pose proof (quiet_self _ _ Hq) as Hn.
  rewrite Visit_S.
  destruct e as [| | | | | | | | | | | | | | | | | tensor indices | | | | | | | | | | | | | | ];
    cbv beta iota;
    try (match goal with
         | |- bind (IRMutator_Visit _ ?e0) _ _ = _ =>
             rewrite (bind_step _ _ _ e0 s); [done |]
         end;
         apply IRMutator_Visit_id; [done |];
         intros c Hin; apply Hc; by apply visited_children_children).
  - (* _Var_ *)
    unfold Visit_Var. rewrite (bind_step _ _ _ s s) by done. by rewrite Hs.
  - (* Load *)
    assert (visit_tensor_and_indices (Visit n) tensor indices s
            = Done (Kept (Load tensor indices), s)) as Hplain.
    { unfold visit_tensor_and_indices.
      rewrite (bind_step _ _ _ tensor s)
        by (apply visit_id, Hc; simpl; set_solver).
      rewrite (bind_step _ _ _ indices s); [done |].
      apply mapM_st_id. intros x Hx. apply visit_id, Hc. simpl. set_solver. }
    unfold Visit_Load. rewrite (bind_step _ _ _ s s) by done.
    simpl in Hn. destruct (as_tensor tensor) as [t|].
    + apply andb_true_iff in Hn as [Hne Hn].
      apply negb_true_iff in Hne. rewrite Hne.
      destruct (inline_code s); [| done]. simpl in Hn.
      destruct (tensor_buffer t) as [b|]; [| done].
      apply andb_true_iff in Hn as [Hb Hsuf].
      destruct (has_buffer_at _ s Hb) as [mt Hmt].
      rewrite (bind_step _ _ _ _ _ Hmt).
      unfold cache_suffix.
      apply no_cache_suffix_false in Hsuf as (-> & -> & ->). done.
    + apply negb_true_iff in Hn. by rewrite Hn.
  - (* _Tensor_ *)
    unfold Visit_Tensor. rewrite (bind_step _ _ _ s s) by done. simpl in Hn.
    destruct (inline_code s); [| done]. simpl in Hn.
    apply negb_true_iff in Hn. by rewrite Hn.
Qed.
End Quiet_facts.

(** Outside inline code, a tree that does not load the tensor. *)
Lemma quiet_outside name all_tensor_map e :
  not_loaded name e -> quiet name all_tensor_map false e = true.
Proof.
  intros H. unfold quiet. apply forallb_forall. intros node Hn.
  apply list_elem_of_In in Hn. destruct node; simpl; try done.
  destruct (as_tensor node) as [t|] eqn:Ht; [| done].
  rewrite ?orb_true_r, ?andb_true_r. apply negb_true_iff, String.eqb_neq.
  by eapply H.
Qed.

(** ** Induction on trees through their children *)

Lemma Expr_children_ind (P : Expr -> Prop) :
  (forall e, (forall c, c ∈ children e -> P c) -> P e) -> forall e, P e.
Proof.
  intros H e. remember (height e) as h eqn:Hh.
  revert e Hh. induction h as [h IH] using lt_wf_ind. intros e ->.
  apply H. intros c Hc. eapply IH; [| reflexivity]. by apply height_children.
Qed.

Lemma sub_exprs_inv e x :
  x ∈ sub_exprs e -> x = e \/ exists c, c ∈ children e /\ x ∈ sub_exprs c.
Proof.
  rewrite sub_exprs_unfold. intros [-> | H]%elem_of_cons; [by left | right].
  apply list_elem_of_In, in_flat_map in H as (c & Hc & Hx).
  exists c. split; by apply list_elem_of_In.
Qed.

Lemma sub_exprs_trans e : forall x y,
  x ∈ sub_exprs y -> y ∈ sub_exprs e -> x ∈ sub_exprs e.
Proof.
  induction e as [e IH] using Expr_children_ind. intros x y Hx Hy.
  apply sub_exprs_inv in Hy as [-> | (c & Hc & Hy)]; [done |].
  eapply sub_exprs_child; [done |]. by eapply IH.
Qed.

Lemma load_tensors_spec e t :
  t ∈ load_tensors e <-> exists idx, Load t idx ∈ sub_exprs e.
Proof.
  unfold load_tensors. rewrite list_elem_of_In, in_flat_map. split.
  - intros (n & Hn & Ht). destruct n; simpl in Ht; try done.
    destruct Ht as [-> | []]. eexists. by apply list_elem_of_In.
  - intros (idx & H). exists (Load t idx).
    split; [by apply list_elem_of_In | simpl; by left].
Qed.

Lemma load_tensor_sub_expr e t idx : Load t idx ∈ sub_exprs e -> t ∈ sub_exprs e.
Proof.
  intros H. eapply sub_exprs_trans; [| exact H].
  eapply sub_exprs_child; [| apply sub_exprs_self]. simpl. set_solver.
Qed.

(** ** The loop of [ComputeInlineExpand] *)

Section Pass_facts.
Variable stages : string -> Stage.
Variable all_tensor_map : gmap string Tensor.

#[local] Abbreviation teller := (is_inline_tensor stages).
#[local] Abbreviation expand_each := (expand_each stages all_tensor_map).
#[local] Abbreviation expand_loop := (expand_loop stages all_tensor_map).
#[local] Abbreviation ComputeInlineExpand :=
  (ComputeInlineExpand stages all_tensor_map).
#[local] Abbreviation no_inline_load := (no_inline_load stages).

Lemma filter_nil_iff {A} (f : A -> bool) (l : list A) :
  List.filter f l = [] <-> forall x, x ∈ l -> f x = false.
Proof.
  induction l as [|x l IH]; simpl; [set_solver |].
  destruct (f x) eqn:E; split.
  - done.
  - intros H. specialize (H x). rewrite E in H.
    by discriminate H; [apply elem_of_cons; left].
  - intros H y [-> | Hy]%elem_of_cons; [done | by apply IH].
  - intros H. apply IH. intros y Hy. apply H. apply elem_of_cons. by right.
Qed.

Lemma CollectLoadTensors_nil e :
  CollectLoadTensors e teller = [] <-> no_inline_load e.
Proof.
  unfold CollectLoadTensors, no_inline_load. rewrite filter_nil_iff. split.
  - intros H t idx Ht. apply H, load_tensors_spec. eauto.
  - intros H t (idx & Ht)%load_tensors_spec. eauto.
Qed.

Lemma CollectIRNodes_nil e :
  CollectIRNodes e teller = [] -> no_inline_load e.
Proof.
  unfold CollectIRNodes. rewrite filter_nil_iff. intros H t idx Ht.
  by apply H, (load_tensor_sub_expr _ _ idx).
Qed.

(** The loop ends only when the re-scan finds nothing. *)
Lemma expand_loop_Done fuel rounds :
  forall ts e e',
    expand_loop fuel rounds ts e = Done e' ->
    (ts = [] /\ e' = e) \/ no_inline_load e'.
Proof.
  induction rounds as [|r IH]; intros ts e e' H.
  - destruct ts; simpl in H; [left; by simplify_eq | done].
  - destruct ts as [|t ts]; simpl in H; [left; by simplify_eq |].
    destruct (expand_each fuel _ e) as [e1| |]; try done.
    apply IH in H as [[Hnil ->] | H]; [| by right].
    right. by apply CollectLoadTensors_nil.
Qed.

Lemma tensor_names_inlined ts name :
  (forall x, x ∈ ts -> teller x = true) ->
  name ∈ tensor_names ts -> inlined (stages name) = true.
Proof.
  unfold tensor_names. rewrite elem_of_remove_dups, list_elem_of_omap.
  intros H (x & Hx & Hn). specialize (H x Hx).
  unfold is_inline_tensor in H.
  destruct (as_tensor x) as [t|]; simpl in Hn; by simplify_eq.
Qed.

Lemma no_inline_load_quiet name e :
  inlined (stages name) = true ->
  no_inline_load e -> quiet name all_tensor_map false e = true.
Proof.
  intros Hin H. unfold quiet. apply forallb_forall. intros node Hn.
  apply list_elem_of_In in Hn.
  destruct node; simpl; try done.
  specialize (H _ _ Hn). unfold is_inline_tensor in H.
  destruct (as_tensor node) as [t|]; [| done].
  rewrite ?orb_true_r, ?andb_true_r. apply negb_true_iff, String.eqb_neq.
  intros Heq. rewrite Heq in H. congruence.
Qed.

Lemma expand_each_unchanged fuel names e :
  (forall name, name ∈ names -> inlined (stages name) = true) ->
  no_inline_load e -> height e <= fuel ->
  expand_each fuel names e = Done e.
Proof.
  intros Hn He Hh. induction names as [|name names IH]; simpl; [done |].
  unfold TensorInlineExpandMutator.
  rewrite Visit_quiet; simpl; try done.
  - apply IH. intros. apply Hn. set_solver.
  - apply no_inline_load_quiet; [apply Hn; set_solver | done].
Qed.

Lemma filter_all {A} (f : A -> bool) (l : list A) x :
  x ∈ List.filter f l -> f x = true.
Proof. rewrite list_elem_of_In, filter_In. tauto. Qed.

(** A round on a tree without loads of inlined tensors changes nothing, and
    the re-scan then ends the loop. *)
Lemma expand_loop_unchanged fuel rounds ts e :
  (forall x, x ∈ ts -> teller x = true) ->
  no_inline_load e -> height e <= fuel -> 1 <= rounds ->
  expand_loop fuel rounds ts e = Done e.
Proof.
  intros Hts He Hh Hr. destruct rounds as [|r]; [lia |].
  destruct ts as [|t ts]; simpl; [done |].
  rewrite expand_each_unchanged; try done.
  - apply CollectLoadTensors_nil in He. rewrite He. by destruct r.
  - intros name. by apply tensor_names_inlined.
Qed.
End Pass_facts.

(** ** Replacing axis variables by zero *)

(** Equality of two rebuilt nodes from the equality of their children. *)
Ltac congr_children IH :=
  simpl; f_equal;
  try (apply IH; simpl; set_solver);
  try (rewrite ?map_map; apply map_ext_in; intros ? ?%list_elem_of_In;
       apply IH; simpl; set_solver);
  try (match goal with
       | |- context [option_map _ ?o] =>
           destruct o; simpl; f_equal; apply IH; simpl; set_solver
       end).

Lemma subst_zero_compose sigma x e :
  subst_vars sigma (subst_vars [(x, IntImm 0)] e)
  = subst_vars ((x, IntImm 0) :: sigma) e.
Proof.
  induction e as [e IH] using Expr_children_ind.
  destruct e as [| | | | | | | | | | | | | | | | name r lb ub | | | | | | | | | | | | | | | ];
    try (congr_children IH; fail).
  simpl. destruct (String.eqb x name); [done |].
  destruct r; simpl; destruct (lookup_var sigma name); try done.
  f_equal;
    match goal with
    | |- context [option_map _ ?o] =>
        destruct o; simpl; [f_equal; apply IH; simpl; set_solver | done]
    end.
Qed.

Lemma map_id_in {A} (f : A -> A) (l : list A) :
  (forall x, x ∈ l -> f x = x) -> map f l = l.
Proof.
  induction l as [|x l IH]; simpl; intros H; [done |].
  rewrite H by set_solver. rewrite IH; [done |]. intros. apply H. set_solver.
Qed.

Lemma option_map_id_in {A} (f : A -> A) (o : option A) :
  (forall x, x ∈ opt_list o -> f x = x) -> option_map f o = o.
Proof. destruct o; simpl; intros H; [| done]. rewrite H; [done | set_solver]. Qed.

Lemma var_names_child e c x :
  c ∈ children e -> x ∈ var_names c -> x ∈ var_names e.
Proof.
  unfold var_names. rewrite !list_elem_of_omap.
  intros Hc (n & Hn & Hx). exists n. split; [| done]. by eapply sub_exprs_child.
Qed.

Lemma var_names_self name r lb ub : name ∈ var_names (_Var_ name r lb ub).
Proof.
  unfold var_names. apply list_elem_of_omap. eexists. split; [apply sub_exprs_self | done].
Qed.

(** A substitution that binds none of the variables of a tree leaves it as
    it is. *)
Lemma subst_vars_id sigma e :
  (forall x, x ∈ var_names e -> lookup_var sigma x = None) -> subst_vars sigma e = e.
Proof.
  induction e as [e IH] using Expr_children_ind. intros H.
  assert (forall c, c ∈ children e -> subst_vars sigma c = c) as Hc.
  { intros c Hc. apply IH; [done |]. intros x Hx. apply H. by eapply var_names_child. }
  destruct e; simpl;
    try rewrite (H name) by apply var_names_self;
    try match goal with r : bool |- _ => destruct r; [| done] end;
    f_equal;
    solve [ done
          | apply Hc; simpl; set_solver
          | apply map_id_in; intros; apply Hc; simpl; set_solver
          | apply option_map_id_in; intros; apply Hc; simpl; set_solver ].
Qed.

Lemma zero_axes_zeros names n : forall j e,
  j + n <= length names ->
  zero_axes names j n e = Some (subst_vars (zeros (take n (drop j names))) e).
Proof.
  induction n as [|n IH]; intros j e Hlen; simpl.
  - by rewrite subst_vars_id.
  - destruct (names !! j) as [x|] eqn:Hx.
    + rewrite IH by lia. unfold ReplaceVarWithExpr, IRCopy.
      rewrite subst_zero_compose. by rewrite (drop_S _ _ _ Hx).
    + apply lookup_ge_None in Hx. lia.
Qed.

Lemma lookup_var_zeros names x :
  lookup_var (zeros names) x = if decide (x ∈ names) then Some (IntImm 0) else None.
Proof.
  induction names as [|y names IH]; simpl; [done |].
  destruct (String.eqb_spec y x) as [-> | Hne].
  - rewrite decide_True; [done | by apply elem_of_cons; left].
  - rewrite IH. destruct (decide (x ∈ names)) as [Hin | Hin].
    + rewrite decide_True; [done | by apply elem_of_cons; right].
    + rewrite decide_False; [done |]. by intros [-> | ?]%elem_of_cons.
Qed.

Lemma children_subst_vars sigma e :
  match e with _Var_ n _ _ _ => lookup_var sigma n = None | _ => True end ->
  children (subst_vars sigma e) = map (subst_vars sigma) (children e).
Proof.
  destruct e; simpl; try done;
    try (intros ->; simpl);
    try match goal with r : bool |- _ => destruct r; [| done] end;
    rewrite ?map_app; simpl;
    repeat match goal with o : option Expr |- _ => destruct o end; done.
Qed.

(** After the replacement no variable with one of the names is left. *)
Lemma subst_zeros_clean names e node :
  node ∈ sub_exprs (subst_vars (zeros names) e) ->
  match node with _Var_ x _ _ _ => x ∉ names | _ => True end.
Proof.
  revert node. induction e as [e IH] using Expr_children_ind. intros node Hn.
  assert ((exists n r lb ub, e = _Var_ n r lb ub /\ n ∈ names)
          \/ match e with
             | _Var_ n _ _ _ => lookup_var (zeros names) n = None
             | _ => True
             end) as [(n & r & lb & ub & -> & Hin) | Hvar].
  { destruct e; try (by right). rewrite lookup_var_zeros.
    case_decide; [left; eauto 10 | by right]. }
  { simpl in Hn. rewrite lookup_var_zeros, decide_True in Hn by done.
    simpl in Hn. apply list_elem_of_singleton in Hn as ->. done. }
  apply sub_exprs_inv in Hn as [-> | (c & Hc & Hn)].
  - destruct e; simpl; try done. simpl in Hvar. rewrite Hvar.
    rewrite lookup_var_zeros in Hvar.
    by match goal with r : bool |- _ => destruct r end; case_decide.
  - rewrite children_subst_vars in Hc by done.
    apply list_elem_of_fmap in Hc as (c0 & -> & Hc0). by eapply IH.
Qed.

(** ** Unfolding the loop *)

Lemma expand_each_one stages all_tensor_map fuel name e :
  expand_each stages all_tensor_map fuel [name] e
  = TensorInlineExpandMutator name all_tensor_map stages fuel e.
Proof.
  simpl. by destruct (TensorInlineExpandMutator name all_tensor_map stages fuel e).
Qed.

Lemma expand_loop_S stages all_tensor_map fuel rounds t ts e :
  expand_loop stages all_tensor_map fuel (S rounds) (t :: ts) e
  = match expand_each stages all_tensor_map fuel (tensor_names (t :: ts)) e with
    | Done expr' =>
        expand_loop stages all_tensor_map fuel rounds
          (CollectLoadTensors expr' (is_inline_tensor stages)) expr'
    | Fatal msg => Fatal msg
    | OutOfFuel => OutOfFuel
    end.
Proof. reflexivity. Qed.

(** ** The budget only decides whether there is a result *)

Lemma le_M_refl {St A} (m : M St A) : le_M m m.
Proof. by intros s r H. Qed.

Lemma le_M_bind {St A B} (m m' : M St A) (k k' : A -> M St B) :
  le_M m m' -> (forall a, le_M (k a) (k' a)) -> le_M (bind m k) (bind m' k').
Proof.
  intros Hm Hk s [b s2] H. apply bind_Done in H as (a & s1 & E & H).
  rewrite (bind_step _ _ _ a s1) by by apply Hm. by apply Hk.
Qed.

Lemma le_M_mapM_st {St A B} (f f' : A -> M St B) (l : list A) :
  (forall x, le_M (f x) (f' x)) -> le_M (mapM_st f l) (mapM_st f' l).
Proof.
  intros Hf. induction l as [|x l IH]; simpl; [apply le_M_refl |].
  apply le_M_bind; [apply Hf | intros y].
  apply le_M_bind; [apply IH | intros ys]. apply le_M_refl.
Qed.

(** One step of a proof that a handler is monotone in the dispatch it
    calls. *)
Ltac le_M_step :=
  first
    [ apply le_M_refl
    | apply le_M_bind; [| intros ?]
    | apply le_M_mapM_st; intros ?
    | match goal with
      | |- le_M (match ?x with _ => _ end) _ => destruct x
      | |- le_M (if ?x then _ else _) _ => destruct x
      end ].

Section Monotone.
Context {St : Type}.
Variables self self' : Expr -> M St Slot.
Hypothesis self_le : forall c, le_M (self c) (self' c).

Lemma le_M_visit c : le_M (visit self c) (visit self' c).
Proof. unfold visit. apply le_M_bind; [apply self_le | intros r; apply le_M_refl]. Qed.

Lemma le_M_IRMutator_Visit e :
  le_M (IRMutator_Visit self e) (IRMutator_Visit self' e).
Proof.
  pose proof le_M_visit.
  destruct e; simpl; unfold visit_opt, visit_defined, visit_detached;
    repeat first [ done | apply self_le | le_M_step ].
Qed.
End Monotone.

Section Mutator_monotone.
Variable tensor_name_ : string.
Variable all_tensor_map_ : gmap string Tensor.
Variable stages_ : string -> Stage.

Lemma le_M_Visit_Load (V V' : Expr -> M MutatorState Slot) tensor indices :
  (forall c, le_M (V c) (V' c)) ->
  le_M (Visit_Load tensor_name_ all_tensor_map_ stages_ V tensor indices)
       (Visit_Load tensor_name_ all_tensor_map_ stages_ V' tensor indices).
Proof.
  intros HV. pose proof (le_M_visit V V' HV).
  unfold Visit_Load, visit_temp_buffer, visit_tensor_and_indices.
  repeat first [ done | apply HV | le_M_step ].
Qed.

Lemma le_M_Visit_S fuel : forall e,
  le_M (Visit tensor_name_ all_tensor_map_ stages_ fuel e)
       (Visit tensor_name_ all_tensor_map_ stages_ (S fuel) e).
Proof.
  induction fuel as [|n IH]; intros e; [by intros s r H |].
  rewrite !Visit_S. destruct e; try apply le_M_refl;
    try (apply le_M_bind; [by apply le_M_IRMutator_Visit | intros; apply le_M_refl]).
  by apply le_M_Visit_Load.
Qed.

(** A result of the mutator stays the result under any larger budget. *)
Lemma Visit_fuel_mono fuel fuel' e :
  fuel <= fuel' ->
  le_M (Visit tensor_name_ all_tensor_map_ stages_ fuel e)
       (Visit tensor_name_ all_tensor_map_ stages_ fuel' e).
Proof.
  induction 1 as [|fuel' _ IH]; [apply le_M_refl |].
  intros s r H. by apply le_M_Visit_S, IH.
Qed.
End Mutator_monotone.

Lemma TensorInlineExpandMutator_fuel_mono name all_tensor_map stages fuel fuel' e e' :
  fuel <= fuel' ->
  TensorInlineExpandMutator name all_tensor_map stages fuel e = Done e' ->
  TensorInlineExpandMutator name all_tensor_map stages fuel' e = Done e'.
Proof.
  unfold TensorInlineExpandMutator. intros Hle H.
  destruct (Visit name all_tensor_map stages fuel e initial_state)
    as [[r s]| |] eqn:E; [| done | done].
  by rewrite (Visit_fuel_mono _ _ _ _ _ _ Hle _ _ E).
Qed.

Lemma expand_each_fuel_mono stages all_tensor_map fuel fuel' names :
  fuel <= fuel' -> forall e e',
  expand_each stages all_tensor_map fuel names e = Done e' ->
  expand_each stages all_tensor_map fuel' names e = Done e'.
Proof.
  intros Hle. induction names as [|name names IH]; intros e e' H; simpl in *;
    [done |].
  destruct (TensorInlineExpandMutator name all_tensor_map stages fuel e)
    as [e1| |] eqn:E; [| done | done].
  rewrite (TensorInlineExpandMutator_fuel_mono _ _ _ _ _ _ _ Hle E). by apply IH.
Qed.

(** A result of the pass stays the result under any larger budget. *)
Lemma ComputeInlineExpand_budget_mono stages all_tensor_map fuel fuel' rounds rounds' e e' :
  fuel <= fuel' -> rounds <= rounds' ->
  ComputeInlineExpand stages all_tensor_map fuel rounds e = Done e' ->
  ComputeInlineExpand stages all_tensor_map fuel' rounds' e = Done e'.
Proof.
  unfold ComputeInlineExpand. intros Hf Hr.
  generalize (CollectIRNodes e (is_inline_tensor stages)) as ts.
  revert rounds' Hr e. induction rounds as [|r IH]; intros rounds' Hr e ts H.
  - destruct ts; [| done]. simpl in H. simplify_eq. by destruct rounds'.
  - destruct rounds' as [|r']; [lia |].
    destruct ts as [|t ts]; [simpl in *; by simplify_eq |].
    rewrite expand_loop_S in *.
    destruct (expand_each stages all_tensor_map fuel (tensor_names (t :: ts)) e)
      as [e1| |] eqn:E; [| done | done].
    rewrite (expand_each_fuel_mono _ _ _ _ _ Hf _ _ E).
    apply IH; [lia | done].
Qed.

(** ** The formals of an expansion *)

(** The substitution is positional: the formal at position [k] is bound to
    the actual at position [k]. *)
Lemma lookup_var_zip (xs : list string) : forall (idx : list Expr) k x a,
  NoDup xs -> xs !! k = Some x -> idx !! k = Some a ->
  lookup_var (zip xs idx) x = Some a.
Proof.
  induction xs as [|y xs IH]; intros idx k x a Hnd Hx Ha; [done |].
  destruct idx as [|b idx]; [done |]. apply NoDup_cons in Hnd as [Hy Hnd].
  destruct k as [|k]; simpl in *.
  - simplify_eq. by rewrite String.eqb_refl.
  - destruct (String.eqb_spec y x) as [-> | _].
    + destruct Hy. by eapply list_elem_of_lookup_2.
    + by eapply IH.
Qed.

(** An occurrence of the formal at position [k] becomes the actual at
    position [k], as it is; a variable that is no formal is kept. *)
Lemma subst_vars_formal (xs : list string) (idx : list Expr) k x a r lb ub :
  NoDup xs -> xs !! k = Some x -> idx !! k = Some a ->
  subst_vars (zip xs idx) (_Var_ x r lb ub) = a.
Proof. intros Hnd Hx Ha. simpl. by rewrite (lookup_var_zip xs idx k x a). Qed.

Lemma lookup_var_zip_None (xs : list string) : forall (idx : list Expr) x,
  x ∉ xs -> lookup_var (zip xs idx) x = None.
Proof.
  induction xs as [|y xs IH]; intros idx x Hx; [done |].
  destruct idx as [|b idx]; [done |]. simpl.
  apply not_elem_of_cons in Hx as [Hne Hx].
  destruct (String.eqb_spec y x) as [-> | _]; [done | by apply IH].
Qed.

(** ** The cache branches of [Visit(Load)] *)

Lemma mapM_option_total {A B} (f : A -> option B) (g : A -> B) (l : list A) :
  (forall x, f x = Some (g x)) -> mapM f l = Some (map g l).
Proof.
  intros H. induction l as [|x l IH]; [done |].
  simpl. rewrite H. simpl. by rewrite IH.
Qed.

Section Cache_facts.
Variable tensor_name_ : string.
Variable all_tensor_map_ : gmap string Tensor.
Variable stages_ : string -> Stage.

#[local] Abbreviation erase_compute_at := (erase_compute_at stages_).
#[local] Abbreviation erased_axes := (erased_axes stages_).

Lemma erase_compute_at_one t parent lvl indices (s : MutatorState) :
  GetComputeAts (stages_ (tensor_name t)) = [(parent, mkComputeAt lvl)] ->
  (lvl + 1 <= Z.of_nat (length (axis_names (stages_ (tensor_name t)))))%Z ->
  erase_compute_at t indices s
  = Done (map (subst_vars (zeros (erased_axes (tensor_name t) lvl))) indices, s).
Proof.
  intros Hc Hl. unfold erase_compute_at. rewrite Hc. rewrite mapM_pure.
  erewrite mapM_option_total; [done |].
  intros x. simpl. rewrite zero_axes_zeros by lia. by rewrite drop_0.
Qed.

(** Inside inline code, on a load of another tensor that has a buffer and
    is registered in the tensor map with a buffer. *)
Lemma Visit_Load_inline_buffer V tensor t b mt mb indices s :
  as_tensor tensor = Some t ->
  tensor_name t <> tensor_name_ ->
  inline_code s = true ->
  tensor_buffer t = Some b ->
  all_tensor_map_ !! tensor_name t = Some mt ->
  tensor_buffer mt = Some mb ->
  Visit_Load tensor_name_ all_tensor_map_ stages_ V tensor indices s =
  if Endswith (buffer_name b) "_write_cache"
     && MemoryType_eqb (memory_type mb) Heap
  then match no_cache_name_of_buffer (buffer_name b) with
       | Some no_cache_name =>
           match all_tensor_map_ !! no_cache_name with
           | Some _ =>
               (tensor' <- visit V tensor ;; ret (Kept (Load tensor' indices))) s
           | None =>
               (indices' <- erase_compute_at t indices ;;
                ret (Kept (Load tensor indices'))) s
           end
       | None => Fatal "substr: position out of range"
       end
  else if cache_suffix (buffer_name b)
       then (indices0 <- erase_compute_at t indices ;;
             visit_temp_buffer all_tensor_map_ V t tensor indices0) s
       else visit_tensor_and_indices V tensor indices s.
Proof.
  intros Ht Hne Hi Hb Hm Hmb. unfold Visit_Load.
  rewrite (bind_step _ _ _ s s) by done. rewrite Ht.
  apply String.eqb_neq in Hne. rewrite Hne, Hi, Hb.
  rewrite (bind_step _ _ _ (memory_type mb) s)
    by (unfold at_memory_type; by rewrite Hm, Hmb).
  repeat case_match; done.
Qed.
End Cache_facts.

(** ** A loop that cannot end *)

Lemma poly_loop_mutator fuel :
  TensorInlineExpandMutator "K" Ex.all_tensor_map Ex.stages fuel Ex.poly_loop
  = OutOfFuel
  \/ TensorInlineExpandMutator "K" Ex.all_tensor_map Ex.stages fuel Ex.poly_loop
     = Done Ex.poly_loop.
Proof.
  destruct fuel as [|[|[|fuel]]]; [left | left | left | right];
    vm_compute; reflexivity.
Qed.

(** A tree that every run of the mutator hands back as it is, and in which
    the re-scan finds the inlined tensor again, keeps the loop going. *)
Lemma expand_loop_stuck stages all_tensor_map name t e :
  tensor_names [t] = [name] ->
  CollectLoadTensors e (is_inline_tensor stages) = [t] ->
  (forall fuel,
     TensorInlineExpandMutator name all_tensor_map stages fuel e = OutOfFuel
     \/ TensorInlineExpandMutator name all_tensor_map stages fuel e = Done e) ->
  forall fuel rounds,
    expand_loop stages all_tensor_map fuel rounds [t] e = OutOfFuel.
Proof.
  intros Hname Hscan Hmut fuel rounds.
  induction rounds as [|rounds IH]; [done |].
  rewrite expand_loop_S, Hname, expand_each_one.
  destruct (Hmut fuel) as [-> | ->]; [done |].
  by rewrite Hscan.
Qed.

(** ** The visits of the default traversal *)

Section Fold.
Context {St : Type}.
Variable self : Expr -> M St Slot.
Variable f : Expr -> St -> St.
Hypothesis self_f :
  forall c s r s', self c s = Done (r, s') -> r = Kept c /\ s' = f c s.

#[local] Abbreviation thread := (thread f).

Lemma visit_f c s c' s' :
  visit self c s = Done (c', s') -> c' = c /\ s' = thread s [c].
Proof.
  unfold visit. intros H. inv_M. apply self_f in E as [-> ->]. done.
Qed.

Lemma visit_list_f l : forall s l' s',
  mapM_st (visit self) l s = Done (l', s') -> l' = l /\ s' = thread s l.
Proof.
  induction l as [|c l IH]; simpl; intros s l' s' H; inv_M; [done |].
  apply visit_f in E as [-> ->]. apply IH in E0 as [-> ->]. done.
Qed.

Lemma visit_opt_f o s o' s' :
  visit_opt self o s = Done (o', s') -> o' = o /\ s' = thread s (opt_list o).
Proof.
  destruct o; simpl; intros H; inv_M; [| done].
  apply visit_f in E as [-> ->]. done.
Qed.

Lemma visit_defined_f o s o' s' :
  visit_defined self o s = Done (o', s') -> o' = o /\ s' = thread s (opt_list o).
Proof.
  destruct o; simpl; intros H; inv_M.
  apply visit_f in E as [-> ->]. done.
Qed.

Lemma visit_detached_f o s o' s' :
  visit_detached self o s = Done (o', s') -> o' = o /\ s' = thread s (opt_list o).
Proof.
  destruct o; simpl; intros H; inv_M; [| done].
  apply self_f in E as [-> ->]. done.
Qed.

(** A mutator whose handlers keep every child leaves the node as it is and
    threads its state through the visited children, in their order. *)
Lemma IRMutator_Visit_thread e s e' s' :
  IRMutator_Visit self e s = Done (e', s') ->
  e' = e /\ s' = thread s (visited_children e).
Proof.
  destruct e; simpl; try match goal with |- context [if ?b then _ else _] =>
    destruct b end; intros Hd; inv_M;
    repeat match goal with
    | E : visit _ _ _ = Done _ |- _ => apply visit_f in E as [-> ->]
    | E : mapM_st _ _ _ = Done _ |- _ => apply visit_list_f in E as [-> ->]
    | E : visit_opt _ _ _ = Done _ |- _ => apply visit_opt_f in E as [-> ->]
    | E : visit_defined _ _ _ = Done _ |- _ =>
        apply visit_defined_f in E as [-> ->]
    | E : visit_detached _ _ _ = Done _ |- _ =>
        apply visit_detached_f in E as [-> ->]
    end;
    unfold thread; rewrite ?foldl_app; done.
Qed.
End Fold.

Lemma thread_log (l : list Expr) : forall log,
  thread (fun c (log : list Expr) => (log ++ visited c)%list) log l
  = (log ++ flat_map visited l)%list.
Proof.
  unfold thread. induction l as [|c l IH]; intros log; simpl.
  - by rewrite app_nil_r.
  - rewrite IH. by rewrite <- app_assoc.
Qed.

(** The log of the recording mutator is [visited]. *)
Lemma trace_Visit_visited fuel : forall e log r log',
  trace_Visit fuel e log = Done (r, log') ->
  r = Kept e /\ log' = (log ++ visited e)%list.
Proof.
  induction fuel as [|n IH]; intros e log r log' H; [done |].
  simpl in H. inv_M.
  apply (IRMutator_Visit_thread _ (fun c log => (log ++ visited c)%list)) in E0
    as [-> ->].
  - split; [done |]. rewrite thread_log, visited_unfold.
    by rewrite <- app_assoc.
  - intros c ? ? ? Hc. by apply IH in Hc.
Qed.

(** ** Folding the axis bindings *)

Lemma fold_left_flat_map {A B C} (f : A -> B -> A) (g : C -> list B) (l : list C) :
  forall a, fold_left (fun acc c => fold_left f (g c) acc) l a
            = fold_left f (flat_map g l) a.
Proof.
  induction l as [|c l IH]; intros a; simpl; [done |].
  by rewrite IH, fold_left_app.
Qed.

Lemma bind_extents_axis ax (bs : list (DeviceAxis * Z)) : forall info,
  fold_left bind_extent bs info ax
  = foldl (fun acc x => Some match acc with Some m => Z.max x m | None => x end)
          (info ax)
          (flat_map (fun b : DeviceAxis * Z =>
                       if DeviceAxis_eqb (fst b) ax then [snd b] else []) bs).
Proof.
  induction bs as [|b bs IH]; intros info; simpl; [done |].
  rewrite IH. unfold bind_extent.
  destruct (DeviceAxis_eqb (fst b) ax); done.
Qed.

Lemma GatherAxisInfoFromStages_max_extent stage_group ax :
  GatherAxisInfoFromStages stage_group ax = max_extent (extents_of ax stage_group).
Proof.
  unfold GatherAxisInfoFromStages, gather_stage, extents_of, max_extent.
  rewrite fold_left_flat_map, bind_extents_axis.
  f_equal. clear. induction stage_group as [|st l IH]; simpl; [done |].
  rewrite flat_map_app. by rewrite IH.
Qed.

Lemma max_extent_spec_from (l : list Z) : forall acc,
  match foldl (fun acc x => Some match acc with Some m => Z.max x m | None => x end)
              acc l with
  | Some m =>
      (acc = Some m \/ m ∈ l)
      /\ (forall x, x ∈ l -> (x <= m)%Z)
      /\ (forall a, acc = Some a -> (a <= m)%Z)
  | None => acc = None /\ l = []
  end.
Proof.
  induction l as [|x l IH]; intros acc; simpl.
  - destruct acc; [| done]. split; [by left |]. split; [set_solver |].
    intros a [= ->]. lia.
  - specialize (IH (Some match acc with Some m => Z.max x m | None => x end)).
    destruct (foldl _ _ l) as [m|]; [| by destruct IH].
    destruct IH as (Hm & Hub & Hacc). specialize (Hacc _ eq_refl).
    split; [| split].
    + destruct Hm as [[= Hm] | Hm]; [| right; set_solver].
      destruct acc as [a|]; [| right; set_solver].
      destruct (Z.max_spec x a) as [[_ Hx] | [_ Hx]]; rewrite Hx in Hm;
        [left; by subst | right; set_solver].
    + intros y [-> | Hy]%elem_of_cons; [destruct acc; lia | by apply Hub].
    + intros a ->. lia.
Qed.

(** ** The loop of the pass over any two scans *)

Lemma ComputeInlineExpand_with_scans stages all_tensor_map fuel rounds e :
  ComputeInlineExpand_with CollectIRNodes CollectLoadTensors stages
    all_tensor_map fuel rounds e
  = ComputeInlineExpand stages all_tensor_map fuel rounds e.
Proof.
  unfold ComputeInlineExpand_with, ComputeInlineExpand.
  generalize (CollectIRNodes e (is_inline_tensor stages)). revert e.
  induction rounds as [|rounds IH]; intros e ts; [by destruct ts |].
  destruct ts as [|t ts]; [done |]. simpl.
  destruct (expand_each _ _ _ _ _); auto.
Qed.

Section Stuck.
Variable collect_load_tensors : Expr -> (Expr -> bool) -> list Expr.
Variable stages : string -> Stage.
Variable all_tensor_map : gmap string Tensor.
Variable e : Expr.

Lemma expand_each_handed_back fuel names e' :
  handed_back stages all_tensor_map e ->
  expand_each stages all_tensor_map fuel names e = Done e' -> e' = e.
Proof.
  intros Hb. induction names as [|name names IH]; simpl; [congruence |].
  destruct (TensorInlineExpandMutator name all_tensor_map stages fuel e)
    as [x| |] eqn:E; try done.
  apply Hb in E as ->. exact IH.
Qed.

(** Whatever the re-scan reports, the loop returns a tree that every run of
    the mutator hands back only as it was given. *)
Lemma expand_loop_handed_back fuel rounds ts e' :
  handed_back stages all_tensor_map e ->
  expand_loop_with collect_load_tensors stages all_tensor_map fuel rounds ts e
  = Done e' ->
  e' = e.
Proof.
  intros Hb. revert ts.
  induction rounds as [|rounds IH]; intros [|t ts]; simpl; try congruence.
  destruct (expand_each stages all_tensor_map fuel (tensor_names (t :: ts)) e)
    as [x| |] eqn:E; try done.
  apply expand_each_handed_back in E as ->; [| done]. apply IH.
Qed.

Lemma expand_each_completes fuel names :
  (forall name,
     TensorInlineExpandMutator name all_tensor_map stages fuel e = Done e) ->
  expand_each stages all_tensor_map fuel names e = Done e.
Proof.
  intros H. induction names as [|name names IH]; simpl; [done |].
  by rewrite H.
Qed.

(** A tree that every run of the mutator hands back, and on which the
    re-scan reports a tensor, keeps the loop going. *)
Lemma expand_loop_with_stuck fuel rounds ts :
  (forall name,
     TensorInlineExpandMutator name all_tensor_map stages fuel e = Done e) ->
  collect_load_tensors e (is_inline_tensor stages) <> [] ->
  ts <> [] ->
  expand_loop_with collect_load_tensors stages all_tensor_map fuel rounds ts e
  = OutOfFuel.
Proof.
  intros Hm Hscan. revert ts.
  induction rounds as [|rounds IH]; intros [|t ts] Hts; try done.
  simpl. rewrite expand_each_completes by done. by apply IH.
Qed.
End Stuck.

(** The run for a tensor that the tree does not load. *)
Lemma Visit_not_loaded name all_tensor_map stages fuel e :
  not_loaded name e -> height e <= fuel ->
  Visit name all_tensor_map stages fuel e initial_state
  = Done (Kept e, initial_state).
Proof.
  intros H Hh. rewrite Visit_quiet; simpl; [done | done | | done].
  by apply quiet_outside.
Qed.

(** The only tensor that a tree, given in full, loads. *)
Lemma only_loaded_forallb name e :
  forallb (fun node =>
             match node with
             | Load tensor _ =>
                 match as_tensor tensor with
                 | Some t => String.eqb (tensor_name t) name
                 | None => true
                 end
             | _ => true
             end) (sub_exprs e) = true ->
  forall other, other <> name -> not_loaded other e.
Proof.
  rewrite forallb_forall. intros H other Hne tensor idx t Hin Ht.
  apply list_elem_of_In, H in Hin. simpl in Hin. rewrite Ht in Hin.
  apply String.eqb_eq in Hin. congruence.
Qed.

(** A tree that loads [K] only and that the run for [K] hands back is
    handed back by every run. *)
Lemma handed_back_K e bound :
  (forall other, other <> "K" -> not_loaded other e) ->
  height e <= bound ->
  (forall fuel,
     TensorInlineExpandMutator "K" Ex.all_tensor_map Ex.stages fuel e = OutOfFuel
     \/ TensorInlineExpandMutator "K" Ex.all_tensor_map Ex.stages fuel e = Done e) ->
  handed_back Ex.stages Ex.all_tensor_map e.
Proof.
  intros Hother Hh HK name fuel e' H.
  destruct (decide (name = "K")) as [-> | Hne].
  - destruct (HK fuel) as [E | E]; rewrite E in H; congruence.
  - apply (TensorInlineExpandMutator_fuel_mono _ _ _ _ (fuel `max` bound)) in H;
      [| lia].
    unfold TensorInlineExpandMutator in H.
    rewrite Visit_not_loaded in H by (try apply Hother; try done; lia).
    simpl in H. congruence.
Qed.

(** [IRMutator::Visit(Alloc)] hands a copy of the slot of the body to the
    dispatch: the expansion that the run for [K] writes there is lost. *)
Lemma alloc_K_mutator name fuel :
  3 <= fuel ->
  TensorInlineExpandMutator name Ex.all_tensor_map Ex.stages fuel Ex.alloc_K
  = Done Ex.alloc_K.
Proof.
  intros Hf. destruct (decide (name = "K")) as [-> | Hne].
  - destruct fuel as [|[|[|fuel]]]; try lia. vm_compute. reflexivity.
  - unfold TensorInlineExpandMutator.
    rewrite Visit_not_loaded; [done | | vm_compute; lia].
    apply (only_loaded_forallb "K"); [vm_compute; reflexivity | done].
Qed.


Lemma reduce_bound_mutator fuel :
  TensorInlineExpandMutator "K" Ex.all_tensor_map Ex.stages fuel Ex.reduce_bound
  = OutOfFuel
  \/ TensorInlineExpandMutator "K" Ex.all_tensor_map Ex.stages fuel Ex.reduce_bound
     = Done Ex.reduce_bound.
Proof.
  destruct fuel as [|[|[|[|fuel]]]]; [left | left | left | left | right];
    vm_compute; reflexivity.
Qed.

Lemma poly_loop_handed_back : handed_back Ex.stages Ex.all_tensor_map Ex.poly_loop.
Proof.
  apply (handed_back_K _ 5); [| vm_compute; lia | apply poly_loop_mutator].
  apply only_loaded_forallb. vm_compute. reflexivity.
Qed.

(** ** Variables inside a temporary buffer *)




Section Device_axes.
Variable tensor_name_ : string.
Variable all_tensor_map : gmap string Tensor.
Variable stages : string -> Stage.

#[local] Abbreviation Visit := (Visit tensor_name_ all_tensor_map stages).

End Device_axes.

(** * The claims *)

(** ** C1: completeness of [ComputeInlineExpand] *)



(** The expansion of [K] loads nothing. *)
Example K_expansion :
  inline_expanded (mkTensor "K" [] None ["i"] (Some (IntImm 1))) [IntImm 0]
  = Some (IntImm 1)
  /\ load_tensors (IntImm 1) = [].
Proof. split; reflexivity. Qed.

(** The same holds of a load in the lower bound of a [PolyFor], which the
    default handler does not visit. *)
Example ComputeInlineExpand_poly_loop_unexpanded
    (collect_ir_nodes collect_load_tensors : Expr -> (Expr -> bool) -> list Expr)
    (fuel rounds : nat) (e' : Expr) :
  ComputeInlineExpand_with collect_ir_nodes collect_load_tensors
    Ex.stages Ex.all_tensor_map fuel rounds Ex.poly_loop = Done e' ->
  e' = Ex.poly_loop.
Proof.
  unfold ComputeInlineExpand_with. intros H.
  apply expand_loop_handed_back in H; [done | apply poly_loop_handed_back].
Qed.

(** With scans of the whole tree, as the specification describes them, the
    loop ends only on a tree without loads of inlined tensors. *)
Lemma ComputeInlineExpand_completeness
    (stages : string -> Stage) (all_tensor_map : gmap string Tensor)
    (fuel rounds : nat) (e e' : Expr) :
  ComputeInlineExpand stages all_tensor_map fuel rounds e = Done e' ->
  forall t idx, Load t idx ∈ sub_exprs e' -> is_inline_tensor stages t = false.
Proof.
  unfold ComputeInlineExpand. intros H.
  apply expand_loop_Done in H as [[Hnil ->] | H].
  - (* the loop was never entered: the first scan found no inlined tensor *)
    by apply CollectIRNodes_nil.
  - (* the loop ended on an empty re-scan *)
    exact H.
Qed.

(** ** C2: the rewrite of a load of the inlined tensor *)

(** C2 (amended).  A [Load] of the tensor being inlined is replaced by the
    tensor's expansion expression with its formal index variables replaced,
    position by position, by the actual index expressions, and this
    expression is then traversed by the mutator in inline mode.  When the
    substituted expression holds no load of the same tensor, no tensor with a
    cache-suffixed buffer and no write-cache handle (and the load is not
    itself inside a temporary buffer), the result is syntactically the
    substituted expression. *)
Theorem Visit_Load_inline_expansion
    (tensor_name_ : string) (all_tensor_map : gmap string Tensor)
    (stages : string -> Stage) (fuel : nat)
    (tensor : Expr) (t : Tensor) (body : Expr) (indices : list Expr)
    (s : MutatorState) :
  as_tensor tensor = Some t ->
  tensor_name t = tensor_name_ ->
  tensor_body t = Some body ->
  length (tensor_axis t) = length indices ->
  temp_buffer s = false ->
  let expansion := subst_vars (zip (tensor_axis t) indices) body in
  quiet tensor_name_ all_tensor_map true expansion = true ->
  height expansion <= fuel ->
  Visit tensor_name_ all_tensor_map stages (S fuel) (Load tensor indices) s
  = Done (Replaced expansion, set_inline_code false s).
Proof.
  intros Ht Hn Hb Hl Hs expansion Hq Hh. rewrite Visit_S. unfold Visit_Load.
  rewrite (bind_step _ _ _ s s) by done. rewrite Ht.
  apply String.eqb_eq in Hn. rewrite Hn.
  unfold inline_expanded. rewrite Hb. apply Nat.eqb_eq in Hl. rewrite Hl.
  rewrite (bind_step _ _ _ tt (set_inline_code true s)) by done.
  fold expansion.
  rewrite (bind_step _ _ _ (Kept expansion) (set_inline_code true s)); [done |].
  apply Visit_quiet; simpl; [by rewrite Hs | done | done].
Qed.

(** The spec's example: with [E(i, j) = A[i, j] + B[j]], the load
    [E[x + 1, y]] becomes [A[x + 1, y] + B[y]]. *)
Lemma Visit_Load_inline_expansion_witness :
  Visit "E" Ex.all_tensor_map Ex.stages 5
    (Load Ex.E [Binary Add (Ex.var "x") (IntImm 1); Ex.var "y"]) initial_state
  = Done (Replaced
            (Binary Add
               (Load (Ex.heap "A")
                     [Binary Add (Ex.var "x") (IntImm 1); Ex.var "y"])
               (Load (Ex.heap "B") [Ex.var "y"])),
          initial_state).
Proof.
  apply (Visit_Load_inline_expansion "E" Ex.all_tensor_map Ex.stages 4 Ex.E
           (mkTensor "E" [] None ["i"; "j"]
              (Some (Binary Add (Load (Ex.heap "A") [Ex.var "i"; Ex.var "j"])
                                (Load (Ex.heap "B") [Ex.var "j"]))))
           (Binary Add (Load (Ex.heap "A") [Ex.var "i"; Ex.var "j"])
                       (Load (Ex.heap "B") [Ex.var "j"]))
           [Binary Add (Ex.var "x") (IntImm 1); Ex.var "y"] initial_state);
    reflexivity.
Defined.

(** The formals are replaced at once: an actual that mentions a formal is
    not substituted again. *)
Example inline_expanded_swap :
  inline_expanded
    (mkTensor "E" [] None ["i"; "j"]
       (Some (Binary Sub (Ex.var "i") (Ex.var "j"))))
    [Ex.var "j"; Ex.var "i"]
  = Some (Binary Sub (Ex.var "j") (Ex.var "i")).
Proof. reflexivity. Qed.

(** C2 as stated fails: with [R(i) = S_read_cache[i]], where the cache
    computes at level 1 of the nest [i, j, k], the load [R[i]] is not
    rewritten to the substituted expansion [S_read_cache[i]] but to
    [S_read_cache[0]]. *)
Lemma Visit_Load_inline_expansion_counterexample :
  inline_expanded
    (mkTensor "R" [] None ["i"]
       (Some (Load (Ex.cache "S_read_cache" GPUShared) [Ex.var "i"])))
    [Ex.var "i"]
  = Some (Load (Ex.cache "S_read_cache" GPUShared) [Ex.var "i"])
  /\ Visit "R" Ex.all_tensor_map Ex.stages 10 (Load Ex.R [Ex.var "i"])
           initial_state
     = Done (Replaced (Load (Ex.cache "S_read_cache" GPUShared) [IntImm 0]),
             initial_state)
  /\ Load (Ex.cache "S_read_cache" GPUShared) [IntImm 0]
     <> Load (Ex.cache "S_read_cache" GPUShared) [Ex.var "i"].
Proof. split; [| split]; [vm_compute; reflexivity .. | discriminate]. Qed.

(** ** C3: the loop of the pass on a load that the mutator cannot replace *)

(** C3.  On [alloc_K], whose inline-dependency relation is empty, when the
    two scans report a tensor (a scan of the whole tree does, and so does a
    scan that goes where the default handlers go), every round leaves the
    tree as it is and the loop of [ComputeInlineExpand] does not end: with a
    budget that lets each run of the mutator complete, no number of rounds
    gives a result. *)
Theorem ComputeInlineExpand_alloc_body_diverges
    (collect_ir_nodes collect_load_tensors : Expr -> (Expr -> bool) -> list Expr)
    (fuel rounds : nat) :
  collect_ir_nodes Ex.alloc_K (is_inline_tensor Ex.stages) <> [] ->
  collect_load_tensors Ex.alloc_K (is_inline_tensor Ex.stages) <> [] ->
  3 <= fuel ->
  ComputeInlineExpand_with collect_ir_nodes collect_load_tensors
    Ex.stages Ex.all_tensor_map fuel rounds Ex.alloc_K = OutOfFuel.
Proof.
  intros Hfirst Hscan Hf. unfold ComputeInlineExpand_with.
  apply expand_loop_with_stuck; [| done | done].
  intros name. by apply alloc_K_mutator.
Qed.

(** With the scans of the whole tree. *)
Lemma ComputeInlineExpand_alloc_body_diverges_witness :
  ComputeInlineExpand_with CollectIRNodes CollectLoadTensors
    Ex.stages Ex.all_tensor_map 3 100 Ex.alloc_K = OutOfFuel.
Proof.
  apply (ComputeInlineExpand_alloc_body_diverges CollectIRNodes
           CollectLoadTensors 3 100).
  - vm_compute. discriminate.
  - vm_compute. discriminate.
  - lia.
Defined.

(** With a re-scan that goes where the default handlers go: the handler of
    [Alloc] visits the body, so the load is reported. *)
Example ComputeInlineExpand_alloc_body_traversal_scan fuel rounds :
  3 <= fuel ->
  ComputeInlineExpand_with CollectIRNodes
    (fun x teller =>
       List.filter teller
         (flat_map (fun n => match n with Load t _ => [t] | _ => [] end)
                   (visited x)))
    Ex.stages Ex.all_tensor_map fuel rounds Ex.alloc_K = OutOfFuel.
Proof.
  intros Hf. unfold ComputeInlineExpand_with.
  apply expand_loop_with_stuck; [| vm_compute; discriminate ..].
  intros name. by apply alloc_K_mutator.
Qed.

(** With the scans of the whole tree the loop does not end either on a load
    in the lower bound of a [PolyFor], which the default handler never
    visits, ... *)
Lemma ComputeInlineExpand_poly_loop_diverges :
  load_tensors (IntImm 1) = []
  /\ forall fuel rounds,
       ComputeInlineExpand Ex.stages Ex.all_tensor_map fuel rounds Ex.poly_loop
       = OutOfFuel.
Proof.
  split; [done |]. intros fuel rounds. unfold ComputeInlineExpand.
  replace (CollectIRNodes Ex.poly_loop (is_inline_tensor Ex.stages))
    with [Ex.K] by (vm_compute; reflexivity).
  apply (expand_loop_stuck _ _ "K");
    [vm_compute; reflexivity .. | apply poly_loop_mutator].
Qed.

(** ... and on a load in the bound of a reduction axis: the override of
    [_Var_] does not descend into the bounds. *)
Lemma ComputeInlineExpand_reduce_bound_diverges fuel rounds :
  ComputeInlineExpand Ex.stages Ex.all_tensor_map fuel rounds Ex.reduce_bound
  = OutOfFuel.
Proof.
  unfold ComputeInlineExpand.
  replace (CollectIRNodes Ex.reduce_bound (is_inline_tensor Ex.stages))
    with [Ex.K] by (vm_compute; reflexivity).
  apply (expand_loop_stuck _ _ "K");
    [vm_compute; reflexivity .. | apply reduce_bound_mutator].
Qed.

(** ** C4: what the default traversal visits *)

(** C4.  What the default handlers do on the two kinds the claim names: on
    a [PolyFor] the traversal visits the node, then what it visits from the
    body, then what it visits from the increment, and nothing of the lower
    bound and the extent; on a [Load] it visits the node and what it visits
    from the indices, and nothing of the tensor handle.  On [poly_loop] the
    lower bound [K[0]] and the extent are never visited; on [A[i]] the
    tensor handle is never visited. *)
Theorem IRMutator_visited_children :
  (forall fuel x mn ext inc bd log r log',
     trace_Visit fuel (PolyFor x mn ext inc bd) log = Done (r, log') ->
     r = Kept (PolyFor x mn ext inc bd)
     /\ log' = (log ++ PolyFor x mn ext inc bd :: visited bd ++ visited inc)%list)
  /\ (forall fuel t idx log r log',
        trace_Visit fuel (Load t idx) log = Done (r, log') ->
        r = Kept (Load t idx)
        /\ log' = (log ++ Load t idx :: flat_map visited idx)%list)
  /\ trace_Visit 3 Ex.poly_loop []
     = Done (Kept Ex.poly_loop,
             [Ex.poly_loop; Store (Ex.heap "C") (Ex.var "i") [Ex.var "i"];
              Ex.var "i"; Ex.heap "C"; Ex.var "i"; IntImm 1])
  /\ trace_Visit 2 (Load (Ex.heap "A") [Ex.var "i"]) []
     = Done (Kept (Load (Ex.heap "A") [Ex.var "i"]),
             [Load (Ex.heap "A") [Ex.var "i"]; Ex.var "i"]).
Proof.
  split; [| split; [| split]].
  - intros fuel x mn ext inc bd log r log' H.
    by apply trace_Visit_visited in H.
  - intros fuel t idx log r log' H.
    by apply trace_Visit_visited in H.
  - vm_compute. reflexivity.
  - vm_compute. reflexivity.
Qed.

(** ** C5: compute-at erasure *)

(** C5 (amended).  Inside inline code, on a load of another tensor whose
    buffer name has a cache suffix and whose stage computes at level [lvl],
    unless the buffer is a heap-scope write cache whose counterpart is in the
    tensor map (that load is redirected instead, see C6): every index has the
    axis variables of the levels [0..lvl] replaced by zero and its other
    variables untouched; for a heap-scope write cache these are the final
    indices, otherwise they are handed to the traversal of the temporary
    buffer (which zeroes block and thread variables and rewrites nested
    loads). *)
Theorem Visit_Load_compute_at_zeroing
    (tensor_name_ : string) (all_tensor_map : gmap string Tensor)
    (stages : string -> Stage) (fuel : nat)
    (tensor : Expr) (t mt : Tensor) (b mb : Buffer)
    (parent : string) (lvl : Z) (indices : list Expr) (s : MutatorState) :
  as_tensor tensor = Some t ->
  tensor_name t <> tensor_name_ ->
  inline_code s = true ->
  tensor_buffer t = Some b ->
  cache_suffix (buffer_name b) = true ->
  all_tensor_map !! tensor_name t = Some mt ->
  tensor_buffer mt = Some mb ->
  (Endswith (buffer_name b) "_write_cache"
   && MemoryType_eqb (memory_type mb) Heap = true ->
   exists no_cache_name,
     no_cache_name_of_buffer (buffer_name b) = Some no_cache_name
     /\ all_tensor_map !! no_cache_name = None) ->
  GetComputeAts (stages (tensor_name t)) = [(parent, mkComputeAt lvl)] ->
  (lvl + 1 <= Z.of_nat (length (axis_names (stages (tensor_name t)))))%Z ->
  let erased := erased_axes stages (tensor_name t) lvl in
  let zeroed := map (subst_vars (zeros erased)) indices in
  Visit tensor_name_ all_tensor_map stages (S fuel) (Load tensor indices) s
  = (if Endswith (buffer_name b) "_write_cache"
        && MemoryType_eqb (memory_type mb) Heap
     then Done (Kept (Load tensor zeroed), s)
     else visit_temp_buffer all_tensor_map
            (Visit tensor_name_ all_tensor_map stages fuel) t tensor zeroed s)
  /\ (forall z node, z ∈ zeroed -> node ∈ sub_exprs z ->
        match node with _Var_ x _ _ _ => x ∉ erased | _ => True end)
  /\ (forall i, i ∈ indices -> (forall x, x ∈ var_names i -> x ∉ erased) ->
        subst_vars (zeros erased) i = i).
Proof.
  intros Ht Hne Hi Hb Hsuf Hm Hmb Hnc Hca Hlvl erased zeroed.
  split; [| split].
  - rewrite Visit_S.
    rewrite (Visit_Load_inline_buffer _ _ _ _ _ t b mt mb) by done.
    destruct (Endswith (buffer_name b) "_write_cache"
              && MemoryType_eqb (memory_type mb) Heap).
    + destruct Hnc as (nc & -> & ->); [done |].
      by rewrite (bind_step _ _ _ zeroed s)
        by by eapply erase_compute_at_one.
    + rewrite Hsuf.
      by rewrite (bind_step _ _ _ zeroed s)
        by by eapply erase_compute_at_one.
  - intros z node (i & -> & Hin)%list_elem_of_fmap Hnode.
    by eapply subst_zeros_clean.
  - intros i Hin Hfree. apply subst_vars_id. intros x Hx.
    rewrite lookup_var_zeros. by rewrite decide_False by by apply Hfree.
Qed.

(** The spec's example: a cache-scope temporary that computes at level 1 of
    a nest with three axes has the indices [i], [j] zeroed and [k]
    untouched. *)
Lemma Visit_Load_compute_at_zeroing_witness :
  Visit "T" Ex.all_tensor_map Ex.stages 2
    (Load (Ex.cache "S_read_cache" GPUShared)
          [Ex.var "i"; Ex.var "j"; Ex.var "k"]) Ex.inline
  = Done (Kept (Load (Ex.cache "S_read_cache" GPUShared)
                     [IntImm 0; IntImm 0; Ex.var "k"]), Ex.inline).
Proof.
  destruct (Visit_Load_compute_at_zeroing "T" Ex.all_tensor_map Ex.stages 1
              (Ex.cache "S_read_cache" GPUShared)
              (Ex.cache_tensor "S_read_cache" GPUShared)
              (Ex.cache_tensor "S_read_cache" GPUShared)
              (mkBuffer "_S_read_cache" GPUShared)
              (mkBuffer "_S_read_cache" GPUShared)
              "C" 1 [Ex.var "i"; Ex.var "j"; Ex.var "k"] Ex.inline)
    as [H _];
    [reflexivity | discriminate | reflexivity | reflexivity | reflexivity
    | reflexivity | reflexivity
    | vm_compute; discriminate
    | reflexivity | vm_compute; discriminate |].
  rewrite H. vm_compute. reflexivity.
Defined.

(** The same for a heap-scope write cache whose counterpart is not in the
    tensor map. *)
Example heap_write_cache_without_counterpart :
  Visit "T" Ex.all_tensor_map Ex.stages 1
    (Load (Ex.cache "D_write_cache" Heap)
          [Ex.var "i"; Ex.var "j"; Ex.var "k"]) Ex.inline
  = Done (Kept (Load (Ex.cache "D_write_cache" Heap)
                     [IntImm 0; IntImm 0; Ex.var "k"]), Ex.inline).
Proof. vm_compute. reflexivity. Qed.

(** C5 as stated fails: the heap-scope write cache [C_write_cache], whose
    counterpart [C] is in the tensor map, computes at level 1 of the nest
    [i, j, k]; its load keeps the indices [i] and [j]. *)
Lemma Visit_Load_compute_at_zeroing_counterexample :
  cache_suffix "_C_write_cache" = true
  /\ GetComputeAts (Ex.stages "C_write_cache") = [("C", mkComputeAt 1)]
  /\ erased_axes Ex.stages "C_write_cache" 1 = ["i"; "j"]
  /\ Visit "T" Ex.all_tensor_map Ex.stages 10
       (Load (Ex.cache "C_write_cache" Heap)
             [Ex.var "i"; Ex.var "j"; Ex.var "k"]) Ex.inline
     = Done (Kept (Load (Ex.heap "C") [Ex.var "i"; Ex.var "j"; Ex.var "k"]),
             Ex.inline).
Proof. repeat split; vm_compute; reflexivity. Qed.

(** ** C6: redirection of a heap-scope write cache *)

(** C6 (amended).  Inside inline code, a load of another tensor whose buffer
    name ends with [_write_cache], whose scope in the tensor map is heap and
    whose counterpart (the buffer name without its first character and the
    suffix) is in the tensor map, has its tensor handle redirected, when the
    tensor's own name ends with [_write_cache] too, to the tensor that the
    map holds under that name without the suffix; the indices are left as
    they are. *)
Theorem Visit_Load_write_cache_redirect
    (tensor_name_ : string) (all_tensor_map : gmap string Tensor)
    (stages : string -> Stage) (fuel : nat)
    (tensor : Expr) (t mt c : Tensor) (b mb : Buffer)
    (buffer_counterpart no_cache_name : string)
    (indices : list Expr) (s : MutatorState) :
  as_tensor tensor = Some t ->
  tensor_name t <> tensor_name_ ->
  inline_code s = true ->
  tensor_buffer t = Some b ->
  Endswith (buffer_name b) "_write_cache" = true ->
  all_tensor_map !! tensor_name t = Some mt ->
  tensor_buffer mt = Some mb ->
  memory_type mb = Heap ->
  no_cache_name_of_buffer (buffer_name b) = Some buffer_counterpart ->
  is_Some (all_tensor_map !! buffer_counterpart) ->
  Endswith (tensor_name t) "_write_cache" = true ->
  no_cache_name_of_tensor (tensor_name t) = Some no_cache_name ->
  all_tensor_map !! no_cache_name = Some c ->
  Visit tensor_name_ all_tensor_map stages (S (S fuel)) (Load tensor indices) s
  = Done (Kept (Load (Expr_of_Tensor c) indices), s).
Proof.
  intros Ht Hne Hi Hb Hsuf Hm Hmb Hheap Hbc [c0 Hc0] Hsuf' Hnc Hc.
  rewrite Visit_S.
  rewrite (Visit_Load_inline_buffer _ _ _ _ _ t b mt mb) by done.
  rewrite Hsuf, Hheap, Hbc, Hc0. simpl.
  rewrite (bind_step _ _ _ (Expr_of_Tensor c) s); [done |].
  unfold visit.
  rewrite (bind_step _ _ _ (Replaced (Expr_of_Tensor c)) s); [done |].
  destruct tensor; try done. simpl in Ht. simplify_eq. simpl in *.
  unfold Visit_Tensor. rewrite (bind_step _ _ _ s s) by done.
  rewrite Hi, Hsuf'. simpl.
  rewrite (bind_step _ _ _ (memory_type mb) s)
    by (unfold at_memory_type; by rewrite Hm, Hmb).
  by rewrite Hheap, Hnc, Hc.
Qed.

Lemma Visit_Load_write_cache_redirect_witness :
  Visit "T" Ex.all_tensor_map Ex.stages 2
    (Load (Ex.cache "C_write_cache" Heap) [Ex.var "i"; Ex.var "k"]) Ex.inline
  = Done (Kept (Load (Ex.heap "C") [Ex.var "i"; Ex.var "k"]), Ex.inline).
Proof.
  apply (Visit_Load_write_cache_redirect "T" Ex.all_tensor_map Ex.stages 0
           (Ex.cache "C_write_cache" Heap)
           (Ex.cache_tensor "C_write_cache" Heap)
           (Ex.cache_tensor "C_write_cache" Heap) (Ex.heap_tensor "C")
           (mkBuffer "_C_write_cache" Heap) (mkBuffer "_C_write_cache" Heap)
           "C" "C" [Ex.var "i"; Ex.var "k"] Ex.inline);
    try reflexivity.
  - discriminate.
  - exists (Ex.heap_tensor "C"). vm_compute. reflexivity.
Defined.

(** C6 as stated fails: [D_write_cache] has a buffer whose name ends with
    [_write_cache] and its scope is heap, but no tensor [D] is in the tensor
    map; its load is not redirected, the handle stays [D_write_cache]. *)
Lemma Visit_Load_write_cache_redirect_counterexample :
  Endswith "_D_write_cache" "_write_cache" = true
  /\ (Ex.all_tensor_map !! "D_write_cache")
     = Some (Ex.cache_tensor "D_write_cache" Heap)
  /\ Ex.all_tensor_map !! "D" = None
  /\ Visit "T" Ex.all_tensor_map Ex.stages 10
       (Load (Ex.cache "D_write_cache" Heap) [Ex.var "k"]) Ex.inline
     = Done (Kept (Load (Ex.cache "D_write_cache" Heap) [Ex.var "k"]),
             Ex.inline).
Proof. repeat split; vm_compute; reflexivity. Qed.

(** ** C7: block and thread variables inside a temporary buffer *)




(** Not covered: [Visit(Load)] clears [inline_code] after a nested expansion
    instead of putting the old value back, so what follows the nested
    expansion is no longer treated as inline code.  In [P[P[x]]] the block
    variable of the scratch buffer is replaced in the inner expansion and
    kept in the outer one. *)
Example nested_expansion_keeps_block_axis :
  TensorInlineExpandMutator "P" Ex.all_tensor_map Ex.stages 8
    (Load Ex.P [Load Ex.P [Ex.var "x"]])
  = Done (Binary Add
            (Load (Ex.heap "A")
                  [Binary Add (Load (Ex.heap "A") [Ex.var "x"])
                              (Load (Ex.cache "L_temp_buffer" GPULocal)
                                    [IntImm 0])])
            (Load (Ex.cache "L_temp_buffer" GPULocal) [Ex.var "blockIdx.x"])).
Proof. vm_compute. reflexivity. Qed.

(** In a device-local scratch buffer both the block and the thread variable
    become zero. *)
Example local_buffer_erases_thread_axis :
  Visit "T" Ex.all_tensor_map Ex.stages 3
    (Load (Ex.cache "L_temp_buffer" GPULocal)
          [Ex.var "k"; Ex.var "threadIdx.x"; Ex.var "blockIdx.x"]) Ex.inline
  = Done (Kept (Load (Ex.cache "L_temp_buffer" GPULocal)
                     [Ex.var "k"; IntImm 0; IntImm 0]), Ex.inline).
Proof. vm_compute. reflexivity. Qed.

(** In a device-shared cache the thread variable stays, the axes [i], [j] of
    the compute-at levels 0 and 1 and the block variable become zero. *)
Example shared_buffer_keeps_thread_axis :
  Visit "T" Ex.all_tensor_map Ex.stages 3
    (Load (Ex.cache "S_read_cache" GPUShared)
          [Ex.var "i"; Ex.var "j"; Ex.var "k"; Ex.var "threadIdx.x";
           Ex.var "blockIdx.x"]) Ex.inline
  = Done (Kept (Load (Ex.cache "S_read_cache" GPUShared)
                     [IntImm 0; IntImm 0; Ex.var "k"; Ex.var "threadIdx.x";
                      IntImm 0]), Ex.inline).
Proof. vm_compute. reflexivity. Qed.

(** ** C8: the gathered launch dimension is the maximum extent *)

(** C8.  For every axis the gathered launch dimension is the maximum of the
    extents of the loops that the stages bind to the axis: it is one of
    these extents and none of them is larger (and nothing is gathered when no
    stage binds the axis). *)
Theorem GatherAxisInfoFromStages_maximum
    (stage_group : list AxisStage) (ax : DeviceAxis) :
  match GatherAxisInfoFromStages stage_group ax with
  | Some m =>
      m ∈ extents_of ax stage_group
      /\ forall x, x ∈ extents_of ax stage_group -> (x <= m)%Z
  | None => extents_of ax stage_group = []
  end.
Proof.
  rewrite GatherAxisInfoFromStages_max_extent. unfold max_extent.
  pose proof (max_extent_spec_from (extents_of ax stage_group) None) as H.
  destruct (foldl _ _ _) as [m|]; [| by destruct H].
  destruct H as ([? | ?] & ? & _); done.
Qed.

(** The spec's example: 128 and 64 on grid dimension 0 give 128, not 192. *)
Example GatherAxisInfoFromStages_128_64 :
  GatherAxisInfoFromStages
    [mkAxisStage [(GridDim 0, 128%Z); (BlockDim 0, 32%Z)];
     mkAxisStage [(GridDim 0, 64%Z)]] (GridDim 0)
  = Some 128%Z.
Proof. reflexivity. Qed.
(** ** C9: a tree without loads of inlined tensors is left unchanged *)

(** C9.  On a tree in which no [Load] references a tensor flagged inlined
    (the output of a complete run is such a tree), [ComputeInlineExpand]
    returns the tree unchanged, given a budget that covers the depth of the
    tree and one round of the loop. *)
Theorem ComputeInlineExpand_idempotent
    (stages : string -> Stage) (all_tensor_map : gmap string Tensor)
    (fuel rounds : nat) (e : Expr) :
  (forall t idx, Load t idx ∈ sub_exprs e -> is_inline_tensor stages t = false) ->
  height e <= fuel -> 1 <= rounds ->
  ComputeInlineExpand stages all_tensor_map fuel rounds e = Done e.
Proof.
  intros He Hh Hr. unfold ComputeInlineExpand.
  apply expand_loop_unchanged; try done.
  unfold CollectIRNodes. intros x Hx. by apply filter_all in Hx.
Qed.

Lemma ComputeInlineExpand_idempotent_witness :
  ComputeInlineExpand Ex.stages Ex.all_tensor_map 10 1 Ex.store_T_expanded
  = Done Ex.store_T_expanded.
Proof.
  apply (ComputeInlineExpand_idempotent Ex.stages Ex.all_tensor_map 10 1
           Ex.store_T_expanded).
  - apply CollectLoadTensors_nil. vm_compute. reflexivity.
  - vm_compute. lia.
  - lia.
Defined.

(** A second run on the output of a complete run changes nothing. *)
Corollary ComputeInlineExpand_twice
    (stages : string -> Stage) (all_tensor_map : gmap string Tensor)
    (fuel rounds : nat) (e e' : Expr) :
  ComputeInlineExpand stages all_tensor_map fuel rounds e = Done e' ->
  ComputeInlineExpand stages all_tensor_map (height e') 1 e' = Done e'.
Proof.
  intros H. unfold ComputeInlineExpand in *.
  apply expand_loop_unchanged; [| | lia | lia].
  - unfold CollectIRNodes. intros x Hx. by apply filter_all in Hx.
  - apply expand_loop_Done in H as [[Hnil ->] | H]; [| done].
    by apply CollectIRNodes_nil.
Qed.

(** ** C10: the scratch flags are put back *)

(** C10.  When the mutator has processed an expression, in particular a
    [Load] of a cache or scratch buffer, [temp_buffer] and [memory_local]
    have the values they had when it was entered. *)
Theorem Visit_restores_scratch_flags
    (tensor_name_ : string) (all_tensor_map : gmap string Tensor)
    (stages : string -> Stage) (fuel : nat) (e : Expr)
    (s s' : MutatorState) (r : Slot) :
  Visit tensor_name_ all_tensor_map stages fuel e s = Done (r, s') ->
  temp_buffer s' = temp_buffer s /\ memory_local s' = memory_local s.
Proof.
  revert e s s' r.
  induction fuel as [|n IH]; intros e s s' r H; [done |].
  change (same_scratch s s'). rewrite Visit_S in H.
  destruct e; cbv beta iota in H;
    try (inv_M; eapply (IRMutator_Visit_R same_scratch); [| eassumption];
         intros; eapply IH; eassumption).
  - (* a variable: the handler does not write the flags *)
    apply Visit_Var_Done in H as ->. reflexivity.
  - (* a load: the cache branch saves and restores the two flags *)
    eapply Visit_Load_scratch; [| eassumption]. intros. eapply IH. eassumption.
  - (* a tensor handle *)
    apply Visit_Tensor_Done in H as ->. reflexivity.
Qed.

Lemma Visit_restores_scratch_flags_witness :
  Visit "T" Ex.all_tensor_map Ex.stages 10
    (Load (Ex.cache "L_temp_buffer" GPULocal)
          [Ex.var "k"; Ex.var "threadIdx.x"]) Ex.inline
  = Done (Kept (Load (Ex.cache "L_temp_buffer" GPULocal)
                     [Ex.var "k"; IntImm 0]), Ex.inline)
  /\ temp_buffer Ex.inline = temp_buffer Ex.inline
  /\ memory_local Ex.inline = memory_local Ex.inline.
Proof.
  split; [vm_compute; reflexivity |].
  apply (Visit_restores_scratch_flags "T" Ex.all_tensor_map Ex.stages 10
           (Load (Ex.cache "L_temp_buffer" GPULocal)
                 [Ex.var "k"; Ex.var "threadIdx.x"])
           Ex.inline Ex.inline
           (Kept (Load (Ex.cache "L_temp_buffer" GPULocal)
                       [Ex.var "k"; IntImm 0]))).
  vm_compute; reflexivity.
Defined.

(** * Further properties of the code *)

(** ** The default traversal, on every kind of node *)

Section Run.
Context {St : Type}.
Variable self : Expr -> M St Slot.
Variable f : Expr -> St -> St.

Lemma visit_run c s :
  self c s = Done (Kept c, f c s) -> visit self c s = Done (c, thread f s [c]).
Proof. unfold visit. intros H. by rewrite (bind_step _ _ _ _ _ H). Qed.

Lemma visit_list_run (l : list Expr) :
  (forall c s, c ∈ l -> self c s = Done (Kept c, f c s)) ->
  forall s, mapM_st (visit self) l s = Done (l, thread f s l).
Proof.
  induction l as [|c l IH]; intros H s; simpl; [done |].
  rewrite (bind_step _ _ _ c (f c s))
    by (apply visit_run, H, elem_of_cons; by left).
  rewrite (bind_step _ _ _ l (thread f (f c s) l))
    by (apply IH; intros; apply H, elem_of_cons; by right).
  done.
Qed.

Lemma visit_opt_run o s :
  (forall c s, c ∈ opt_list o -> self c s = Done (Kept c, f c s)) ->
  visit_opt self o s = Done (o, thread f s (opt_list o)).
Proof.
  destruct o as [c|]; simpl; intros H; [| done].
  by rewrite (bind_step _ _ _ c (f c s))
    by (apply visit_run, H, elem_of_cons; by left).
Qed.

Lemma visit_defined_run o s :
  is_Some o ->
  (forall c s, c ∈ opt_list o -> self c s = Done (Kept c, f c s)) ->
  visit_defined self o s = Done (o, thread f s (opt_list o)).
Proof.
  intros [c ->]; simpl; intros H.
  by rewrite (bind_step _ _ _ c (f c s))
    by (apply visit_run, H, elem_of_cons; by left).
Qed.

Lemma visit_detached_run o s :
  (forall c s, c ∈ opt_list o -> self c s = Done (Kept c, f c s)) ->
  visit_detached self o s = Done (o, thread f s (opt_list o)).
Proof.
  destruct o as [c|]; simpl; intros H; [| done].
  by rewrite (bind_step _ _ _ (Kept c) (f c s))
    by (apply H, elem_of_cons; by left).
Qed.

(** A mutator whose handlers keep every child completes on the node, leaves
    it as it is and threads its state through the visited children. *)
Lemma IRMutator_Visit_run e s :
  bounds_defined e ->
  (forall c s, c ∈ visited_children e -> self c s = Done (Kept c, f c s)) ->
  IRMutator_Visit self e s = Done (e, thread f s (visited_children e)).
Proof.
  intros Hb H.
  destruct e; simpl in *; try done;
    try match goal with r : bool |- _ => destruct r; [destruct Hb |]; try done end;
    repeat first
      [ erewrite (bind_step (visit self _))
          by (apply visit_run, H; set_solver)
      | erewrite (bind_step (mapM_st (visit self) _))
          by (apply visit_list_run; intros; apply H; set_solver)
      | erewrite (bind_step (visit_opt self _))
          by (apply visit_opt_run; intros; apply H; set_solver)
      | erewrite (bind_step (visit_defined self _))
          by (apply visit_defined_run; [done | intros; apply H; set_solver])
      | erewrite (bind_step (visit_detached self _))
          by (apply visit_detached_run; intros; apply H; set_solver) ];
    unfold ret, thread; rewrite ?foldl_app; done.
Qed.
End Run.

Lemma visited_self e : e ∈ visited e.
Proof. rewrite visited_unfold. apply elem_of_cons. by left. Qed.

Lemma visited_child e c x :
  c ∈ visited_children e -> x ∈ visited c -> x ∈ visited e.
Proof.
  intros Hc Hx. rewrite visited_unfold. apply elem_of_cons. right.
  apply list_elem_of_In, in_flat_map. exists c. split; by apply list_elem_of_In.
Qed.

(** Membership in a list that is given in full. *)
Ltac each_elem H :=
  repeat (apply elem_of_cons in H as [-> | H]; [try done |]);
  try (by apply elem_of_nil in H).

(** X1.  A mutator that overrides no handler completes on every tree in
    which the reduction axes it reaches have both bounds, given a budget of
    the depth of the tree: it returns the tree unchanged and has dispatched,
    in this order, on the nodes of [visited]. *)
Theorem trace_Visit_total (fuel : nat) (e : Expr) (log : list Expr) :
  (forall x, x ∈ visited e -> bounds_defined x) ->
  height e <= fuel ->
  trace_Visit fuel e log = Done (Kept e, (log ++ visited e)%list).
Proof.
  revert e log. induction fuel as [|n IH]; intros e log Hb Hh.
  { destruct e; simpl in Hh; lia. }
  simpl.
  rewrite (bind_step _ _ _ tt (log ++ [e])%list) by done.
  rewrite (bind_step _ _ _ e
             (thread (fun c (log : list Expr) => (log ++ visited c)%list)
                     (log ++ [e])%list (visited_children e))).
  - unfold ret. by rewrite thread_log, visited_unfold, <- app_assoc.
  - apply IRMutator_Visit_run; [apply Hb, visited_self |].
    intros c log0 Hc. apply IH.
    + intros x Hx. apply Hb. by eapply visited_child.
    + apply visited_children_children, height_children in Hc. lia.
Qed.

Lemma trace_Visit_total_witness :
  trace_Visit 6 Ex.reduce_bound []
  = Done (Kept Ex.reduce_bound, ([] ++ visited Ex.reduce_bound)%list).
Proof.
  apply (trace_Visit_total 6 Ex.reduce_bound []).
  - intros x Hx. vm_compute in Hx. each_elem Hx.
  - vm_compute. lia.
Defined.

Section Lands.
Context {St : Type}.
Variable self : Expr -> M St Slot.

Lemma visit_lands c s c' s' : visit self c s = Done (c', s') -> lands self c c'.
Proof. unfold visit, lands. intros H. inv_M. eauto. Qed.

Lemma visit_list_lands l : forall s l' s',
  mapM_st (visit self) l s = Done (l', s') -> Forall2 (lands self) l l'.
Proof.
  induction l as [|c l IH]; simpl; intros s l' s' H; inv_M; [constructor |].
  constructor; [by eapply visit_lands | by eapply IH].
Qed.

Lemma visit_opt_lands o s o' s' :
  visit_opt self o s = Done (o', s') ->
  Forall2 (lands self) (opt_list o) (opt_list o').
Proof.
  destruct o; simpl; intros H; inv_M; simpl; [| constructor].
  constructor; [by eapply visit_lands | constructor].
Qed.

Lemma visit_defined_lands o s o' s' :
  visit_defined self o s = Done (o', s') ->
  Forall2 (lands self) (opt_list o) (opt_list o').
Proof.
  destruct o; simpl; intros H; inv_M; simpl.
  constructor; [by eapply visit_lands | constructor].
Qed.
End Lands.

Ltac lands_steps :=
  repeat match goal with
  | E : visit _ _ _ = Done _ |- _ => apply visit_lands in E
  | E : mapM_st _ _ _ = Done _ |- _ => apply visit_list_lands in E
  | E : visit_opt _ _ _ = Done _ |- _ => apply visit_opt_lands in E
  | E : visit_defined _ _ _ = Done _ |- _ => apply visit_defined_lands in E
  end.

(** X2.  When a default handler completes, the dispatch has completed on
    each child the handler visits, and the result holds, child by child,
    what the dispatch left in the slot, kept or replaced.  The one
    exception is the body of an [Alloc], which is visited through a copy of
    its slot: a body that the dispatch replaces stays as it was. *)
Theorem IRMutator_Visit_slots
    {St : Type} (self : Expr -> M St Slot) (e : Expr) (s : St)
    (e' : Expr) (s' : St) :
  IRMutator_Visit self e s = Done (e', s') ->
  match e with
  | Alloc d ext c (Some b) =>
      exists ext' c' b',
        e' = Alloc d ext' c' (Some b')
        /\ Forall2 (lands self) (ext ++ opt_list c) (ext' ++ opt_list c')
        /\ exists s1 r s2,
             self b s1 = Done (r, s2)
             /\ b' = match r with Kept x => x | Replaced _ => b end
  | _ => Forall2 (lands self) (visited_children e) (visited_children e')
  end.
Proof.
  destruct e; simpl;
    try match goal with |- context [if ?b then _ else _] => destruct b end;
    intros Hd;
    try (inv_M; lands_steps; simpl;
         repeat first [ done | apply Forall2_nil_2 | constructor
                      | apply Forall2_app ]; fail).
  destruct body as [b|]; simpl in Hd; inv_M; lands_steps.
  - eexists _, _, _. split; [done |]. split; [by apply Forall2_app |]. eauto.
  - simpl. rewrite !app_nil_r. by apply Forall2_app.
Qed.

(** The run for [K] replaces the load [K[0]] by the expansion 1, but in the
    slot of a copy: the [Alloc] keeps the load as its body. *)
Lemma IRMutator_Visit_slots_witness :
  Visit "K" Ex.all_tensor_map Ex.stages 3 (Load Ex.K [IntImm 0]) initial_state
  = Done (Replaced (IntImm 1), initial_state)
  /\ IRMutator_Visit (Visit "K" Ex.all_tensor_map Ex.stages 3) Ex.alloc_K
       initial_state
     = Done (Ex.alloc_K, initial_state)
  /\ exists ext' c' b',
       Ex.alloc_K = Alloc "tmp" ext' c' (Some b')
       /\ Forall2 (lands (Visit "K" Ex.all_tensor_map Ex.stages 3))
            ([IntImm 4] ++ opt_list None) (ext' ++ opt_list c')
       /\ exists s1 r s2,
            Visit "K" Ex.all_tensor_map Ex.stages 3 (Load Ex.K [IntImm 0]) s1
            = Done (r, s2)
            /\ b' = match r with
                    | Kept x => x
                    | Replaced _ => Load Ex.K [IntImm 0]
                    end.
Proof.
  split; [vm_compute; reflexivity |]. split; [vm_compute; reflexivity |].
  apply (IRMutator_Visit_slots (Visit "K" Ex.all_tensor_map Ex.stages 3)
           Ex.alloc_K initial_state Ex.alloc_K initial_state).
  vm_compute. reflexivity.
Defined.

(** ** The counterpart of a write cache *)

Lemma length_append (a b : string) :
  String.length (a ++ b) = String.length a + String.length b.
Proof. induction a as [|c a IH]; simpl; [done | by rewrite IH]. Qed.

Lemma substring_full (a : string) : String.substring 0 (String.length a) a = a.
Proof. induction a as [|c a IH]; simpl; [done | by rewrite IH]. Qed.

Lemma substring_append_l (a b : string) :
  String.substring 0 (String.length a) (a ++ b) = a.
Proof.
  induction a as [|c a IH]; simpl; [by destruct b | by rewrite IH].
Qed.

Lemma substring_append_r (a b : string) m :
  String.substring (String.length a) m (a ++ b) = String.substring 0 m b.
Proof. induction a as [|c a IH]; simpl; done. Qed.

Lemma substring_split (x : string) : forall n,
  n <= String.length x ->
  x = String.substring 0 n x ++ String.substring n (String.length x - n) x.
Proof.
  induction x as [|c x IH]; intros n Hn; simpl in *.
  - destruct n; [done | lia].
  - destruct n as [|n]; simpl.
    + by rewrite substring_full.
    + change (String c x
              = String c (String.substring 0 n x
                          ++ String.substring n (String.length x - n) x)).
      f_equal. apply IH. lia.
Qed.

Lemma append_cancel_r (s : string) : forall a b : string, a ++ s = b ++ s -> a = b.
Proof.
  induction a as [|c a IH]; intros [|c' b] H; [done | | |].
  - apply (f_equal String.length) in H. rewrite !length_append in H.
    simpl in H. lia.
  - apply (f_equal String.length) in H. rewrite !length_append in H.
    simpl in H. lia.
  - simpl in H. injection H as -> H. f_equal. by apply IH.
Qed.

Lemma Endswith_append (base suffix : string) :
  Endswith (base ++ suffix) suffix = true.
Proof.
  unfold Endswith. rewrite length_append.
  replace (String.length suffix <=? String.length base + String.length suffix)%nat
    with true by (symmetry; apply Nat.leb_le; lia).
  replace (String.length base + String.length suffix - String.length suffix)
    with (String.length base) by lia.
  rewrite substring_append_r, substring_full. apply String.eqb_refl.
Qed.

Lemma Endswith_inv (x suffix : string) :
  Endswith x suffix = true -> exists base, x = base ++ suffix.
Proof.
  unfold Endswith.
  destruct (Nat.leb_spec (String.length suffix) (String.length x)) as [Hle|];
    [| done].
  intros Heq%String.eqb_eq.
  exists (String.substring 0 (String.length x - String.length suffix) x).
  pose proof (substring_split x (String.length x - String.length suffix)) as H.
  replace (String.length x - (String.length x - String.length suffix))
    with (String.length suffix) in H by lia.
  rewrite Heq in H. apply H. lia.
Qed.

Lemma no_cache_name_of_tensor_append base :
  (Z.of_nat (String.length base) + 12 < 2 ^ 64)%Z ->
  no_cache_name_of_tensor (base ++ "_write_cache") = Some base.
Proof.
  intros Hb. unfold no_cache_name_of_tensor, substr.
  assert (Z.of_nat (String.length (base ++ "_write_cache"))
          = (Z.of_nat (String.length base) + 12)%Z) as ->
    by (rewrite length_append; simpl String.length; lia).
  assert (size_t_sub (Z.of_nat (String.length base) + 12) 12
          = Z.of_nat (String.length base)) as ->
    by (unfold size_t_sub; rewrite Z.mod_small; lia).
  replace (_ <? 0)%Z with false by (symmetry; apply Z.ltb_ge; lia).
  rewrite Z.min_l by lia. rewrite Nat2Z.id. change (Z.to_nat 0) with 0.
  by rewrite substring_append_l.
Qed.

Lemma no_cache_name_of_buffer_append c base :
  (Z.of_nat (String.length base) + 13 < 2 ^ 64)%Z ->
  no_cache_name_of_buffer (String c (base ++ "_write_cache")) = Some base.
Proof.
  intros Hb. unfold no_cache_name_of_buffer, substr.
  assert (Z.of_nat (String.length (String c (base ++ "_write_cache")))
          = (Z.of_nat (String.length base) + 13)%Z) as ->
    by (cbn [String.length]; rewrite length_append; simpl String.length; lia).
  assert (size_t_sub (Z.of_nat (String.length base) + 13) 13
          = Z.of_nat (String.length base)) as ->
    by (unfold size_t_sub; rewrite Z.mod_small; lia).
  replace (_ <? 1)%Z with false by (symmetry; apply Z.ltb_ge; lia).
  rewrite Z.min_l by lia. rewrite Nat2Z.id. change (Z.to_nat 1) with 1.
  cbn [String.substring]. by rewrite substring_append_l.
Qed.

(** X3.  [op->name.substr(0, op->name.size() - 12)] of [Visit(_Tensor_)]:
    on a name that ends with [_write_cache] (the handler computes it on no
    other name) the call does not throw and the result is the name without
    the suffix. *)
Theorem no_cache_name_of_tensor_suffix (name : string) :
  Endswith name "_write_cache" = true ->
  (Z.of_nat (String.length name) < 2 ^ 64)%Z ->
  exists base, name = base ++ "_write_cache"
               /\ no_cache_name_of_tensor name = Some base.
Proof.
  intros [base ->]%Endswith_inv Hb. exists base. split; [done |].
  apply no_cache_name_of_tensor_append.
  rewrite length_append in Hb. simpl String.length in Hb. lia.
Qed.

Lemma no_cache_name_of_tensor_suffix_witness :
  exists base, "C_write_cache" = base ++ "_write_cache"
               /\ no_cache_name_of_tensor "C_write_cache" = Some base.
Proof.
  apply (no_cache_name_of_tensor_suffix "C_write_cache"); [reflexivity |].
  vm_compute. reflexivity.
Defined.

(** X4.  [tensor->buffer->name.substr(1, tensor->buffer->name.size() - 13)]
    of [Visit(Load)]: on a buffer name that ends with [_write_cache] (the
    handler computes it on no other name) the call does not throw.  The
    result is the name without its first character and without the suffix;
    on the name [_write_cache] itself the unsigned count [size() - 13] wraps
    around and the result is [write_cache]. *)
Theorem no_cache_name_of_buffer_suffix (name : string) :
  Endswith name "_write_cache" = true ->
  (Z.of_nat (String.length name) < 2 ^ 64)%Z ->
  (name = "_write_cache" /\ no_cache_name_of_buffer name = Some "write_cache")
  \/ exists c base, name = String c (base ++ "_write_cache")
                    /\ no_cache_name_of_buffer name = Some base.
Proof.
  intros [base ->]%Endswith_inv Hb. destruct base as [|c base].
  - left. split; [done |]. vm_compute. reflexivity.
  - right. exists c, base. split; [done |].
    apply no_cache_name_of_buffer_append.
    cbn [String.append String.length] in Hb. rewrite length_append in Hb.
    simpl String.length in Hb. lia.
Qed.

Lemma no_cache_name_of_buffer_suffix_witness :
  ("_C_write_cache" = "_write_cache"
   /\ no_cache_name_of_buffer "_C_write_cache" = Some "write_cache")
  \/ exists c base, "_C_write_cache" = String c (base ++ "_write_cache")
                    /\ no_cache_name_of_buffer "_C_write_cache" = Some base.
Proof.
  apply (no_cache_name_of_buffer_suffix "_C_write_cache"); [reflexivity |].
  vm_compute. reflexivity.
Defined.

(** The two sides of the witness, evaluated. *)
Example no_cache_name_of_buffer_values :
  no_cache_name_of_buffer "_C_write_cache" = Some "C"
  /\ no_cache_name_of_buffer "_write_cache" = Some "write_cache"
  /\ size_t_sub 12 13 = (2 ^ 64 - 1)%Z.
Proof. repeat split; vm_compute; reflexivity. Qed.

(** X5.  [Visit(_Tensor_)] aborts exactly when it is called inside inline
    code on a name that ends with [_write_cache] and either the tensor map
    does not hold the name ([at] throws), or it holds it without a buffer,
    or it holds it with a heap buffer and does not hold the name without
    the suffix (the [CHECK] fails).  Outside inline code and on every other
    name the handler completes, whatever the tensor map holds. *)
Theorem Visit_Tensor_aborts
    (tensor_name_ : string) (all_tensor_map : gmap string Tensor)
    (stages : string -> Stage) (fuel : nat)
    (name : string) (sh : list Expr) (bf : option Buffer) (ax : list string)
    (bd : option Expr) (s : MutatorState) :
  (Z.of_nat (String.length name) < 2 ^ 64)%Z ->
  (exists msg,
     Visit tensor_name_ all_tensor_map stages (S fuel) (_Tensor_ name sh bf ax bd) s
     = Fatal msg)
  <-> inline_code s = true
      /\ Endswith name "_write_cache" = true
      /\ match all_tensor_map !! name with
         | None => True
         | Some mt =>
             match tensor_buffer mt with
             | None => True
             | Some mb =>
                 memory_type mb = Heap
                 /\ exists base, name = base ++ "_write_cache"
                                 /\ all_tensor_map !! base = None
             end
         end.
Proof.
  intros Hb. rewrite Visit_S. unfold Visit_Tensor.
  unfold bind at 1, get.
  destruct (inline_code s); simpl; [| split; [by intros [? ?] | by intros [? _]]].
  destruct (Endswith name "_write_cache") eqn:Hsuf; simpl;
    [| split; [by intros [? ?] | by intros (_ & ? & _)]].
  destruct (Endswith_inv _ _ Hsuf) as [base Hname].
  assert (no_cache_name_of_tensor name = Some base) as Hnc.
  { rewrite Hname. apply no_cache_name_of_tensor_append.
    rewrite Hname, length_append in Hb. simpl String.length in Hb. lia. }
  unfold bind, at_memory_type.
  destruct (all_tensor_map !! name) as [mt|]; [| split; [done | eauto]].
  destruct (tensor_buffer mt) as [mb|]; [| split; [done | unfold fatal; eauto]].
  unfold ret. rewrite Hnc.
  destruct (memory_type mb) eqn:Hmt; simpl;
    try (split; [by intros [? ?] | by intros (_ & _ & ? & _)]).
  destruct (all_tensor_map !! base) as [c|] eqn:Hc.
  - split; [by intros [? ?] |]. intros (_ & _ & _ & base' & Hname' & Hc').
    rewrite Hname in Hname'. apply append_cancel_r in Hname' as ->. congruence.
  - split; [| unfold fatal; eauto]. intros _. repeat split. eauto.
Qed.

(** [D_write_cache] is a heap tensor and the tensor map holds no [D]. *)
Lemma Visit_Tensor_aborts_witness :
  (exists msg,
     Visit "T" Ex.all_tensor_map Ex.stages 1 (Ex.cache "D_write_cache" Heap)
           Ex.inline
     = Fatal msg)
  <-> inline_code Ex.inline = true
      /\ Endswith "D_write_cache" "_write_cache" = true
      /\ match Ex.all_tensor_map !! "D_write_cache" with
         | None => True
         | Some mt =>
             match tensor_buffer mt with
             | None => True
             | Some mb =>
                 memory_type mb = Heap
                 /\ exists base, "D_write_cache" = base ++ "_write_cache"
                                 /\ Ex.all_tensor_map !! base = None
             end
         end.
Proof.
  apply (Visit_Tensor_aborts "T" Ex.all_tensor_map Ex.stages 0 "D_write_cache"
           [] (Some (mkBuffer "_D_write_cache" Heap)) [] None Ex.inline).
  vm_compute. reflexivity.
Defined.

Example Visit_Tensor_missing_counterpart :
  Visit "T" Ex.all_tensor_map Ex.stages 1 (Ex.cache "D_write_cache" Heap)
        Ex.inline
  = Fatal "CHECK(all_tensor_map_->count(no_cache_name))".
Proof. vm_compute. reflexivity. Qed.

(** X6.  With the buffer of a tensor named as the handler reads it, the
    name of the tensor behind one more character, the lookup that guards
    the redirection in [Visit(Load)] and the [CHECK] in [Visit(_Tensor_)]
    ask for the same name.  So, inside inline code, the load of a heap
    write cache [base_write_cache] never fails the [CHECK]: it is redirected
    to [base] when the tensor map holds it, and has its compute-at axes
    erased otherwise. *)
Theorem Visit_Load_heap_write_cache_named
    (tensor_name_ : string) (all_tensor_map : gmap string Tensor)
    (stages : string -> Stage) (fuel : nat)
    (base : string) (c : Ascii.ascii) (sh : list Expr) (m : MemoryType)
    (ax : list string) (bd : option Expr) (mt : Tensor) (mb : Buffer)
    (indices : list Expr) (s : MutatorState) :
  let name := base ++ "_write_cache" in
  let tensor := _Tensor_ name sh (Some (mkBuffer (String c name) m)) ax bd in
  (Z.of_nat (String.length base) + 13 < 2 ^ 64)%Z ->
  name <> tensor_name_ ->
  inline_code s = true ->
  all_tensor_map !! name = Some mt ->
  tensor_buffer mt = Some mb ->
  memory_type mb = Heap ->
  Visit tensor_name_ all_tensor_map stages (S (S fuel)) (Load tensor indices) s
  = match all_tensor_map !! base with
    | Some counterpart =>
        Done (Kept (Load (Expr_of_Tensor counterpart) indices), s)
    | None =>
        (indices' <- erase_compute_at stages
                       (mkTensor name sh (Some (mkBuffer (String c name) m)) ax bd)
                       indices ;;
         ret (Kept (Load tensor indices'))) s
    end.
Proof.
  intros name tensor Hlen Hne Hi Hm Hmb Hheap. rewrite Visit_S.
  rewrite (Visit_Load_inline_buffer _ _ _ _ _
             (mkTensor name sh (Some (mkBuffer (String c name) m)) ax bd)
             (mkBuffer (String c name) m) mt mb) by done.
  cbn [buffer_name]. rewrite Hheap.
  replace (Endswith (String c name) "_write_cache") with true
    by (symmetry; apply (Endswith_append (String c base))).
  cbn [MemoryType_eqb andb].
  unfold name at 1. rewrite no_cache_name_of_buffer_append by done.
  destruct (all_tensor_map !! base) as [cp|] eqn:Hcp; [| done].
  unfold visit. rewrite (bind_step _ _ _ (Expr_of_Tensor cp) s); [done |].
  rewrite (bind_step _ _ _ (Replaced (Expr_of_Tensor cp)) s); [done |].
  rewrite Visit_S. unfold tensor, Visit_Tensor.
  rewrite (bind_step _ _ _ s s) by done. rewrite Hi.
  replace (Endswith name "_write_cache") with true
    by (symmetry; apply Endswith_append).
  cbn [andb].
  rewrite (bind_step _ _ _ (memory_type mb) s)
    by (unfold at_memory_type; by rewrite Hm, Hmb).
  rewrite Hheap. cbn [MemoryType_eqb].
  unfold name. rewrite no_cache_name_of_tensor_append by lia.
  by rewrite Hcp.
Qed.

Lemma Visit_Load_heap_write_cache_named_witness :
  Visit "T" Ex.all_tensor_map Ex.stages 2
    (Load (Ex.cache "C_write_cache" Heap) [Ex.var "i"]) Ex.inline
  = Done (Kept (Load (Ex.heap "C") [Ex.var "i"]), Ex.inline)
  /\ Visit "T" Ex.all_tensor_map Ex.stages 2
       (Load (Ex.cache "D_write_cache" Heap) [Ex.var "i"]) Ex.inline
     = Done (Kept (Load (Ex.cache "D_write_cache" Heap) [IntImm 0]), Ex.inline).
Proof.
  split.
  - apply (Visit_Load_heap_write_cache_named "T" Ex.all_tensor_map Ex.stages 0
             "C" (Ascii.ascii_of_nat 95) [] Heap [] None
             (Ex.cache_tensor "C_write_cache" Heap)
             (mkBuffer "_C_write_cache" Heap) [Ex.var "i"] Ex.inline);
      [vm_compute; reflexivity | discriminate | reflexivity ..].
  - etrans;
      [apply (Visit_Load_heap_write_cache_named "T" Ex.all_tensor_map Ex.stages 0
                "D" (Ascii.ascii_of_nat 95) [] Heap [] None
                (Ex.cache_tensor "D_write_cache" Heap)
                (mkBuffer "_D_write_cache" Heap) [Ex.var "i"] Ex.inline);
         [vm_compute; reflexivity | discriminate | reflexivity ..]
      | vm_compute; reflexivity].
Defined.

(** ** The fields of the mutator after a visit *)

#[local] Instance settled_refl : Reflexive settled.
Proof. by intros s. Qed.

#[local] Instance settled_trans : Transitive settled.
Proof.
  intros s1 s2 s3 [[H1 H2] H3] [[H4 H5] H6].
  repeat split; [congruence .. | tauto].
Qed.

Section Settled.
Variable tensor_name_ : string.
Variable all_tensor_map_ : gmap string Tensor.
Variable stages_ : string -> Stage.

(** Bookkeeping on the three fields: every completed step is turned into
    what it says about them. *)
Ltac settled_steps HV :=
  repeat match goal with
  | E : at_memory_type _ _ _ = Done _ |- _ =>
      apply at_memory_type_Done in E as [-> _]
  | E : erase_compute_at _ _ _ _ = Done _ |- _ =>
      apply erase_compute_at_Done in E as ->
  | E : visit _ _ _ = Done _ |- _ =>
      apply (visit_R settled _ HV) in E
  | E : mapM_st _ _ _ = Done _ |- _ =>
      apply (mapM_R settled _ _
               (fun x => visit_R settled _ HV (IRCopy x))) in E
  | E : _ _ _ = Done (_, _) |- _ => apply HV in E
  end.

Lemma Visit_Load_settled (V : Expr -> M MutatorState Slot) :
  (forall c s r s', V c s = Done (r, s') -> settled s s') ->
  forall tensor indices s r s',
    Visit_Load tensor_name_ all_tensor_map_ stages_ V tensor indices s
    = Done (r, s') ->
    settled s s'.
Proof.
  intros HV tensor indices s r s' H. unfold Visit_Load in H. inv_M.
  unfold visit_tensor_and_indices, visit_temp_buffer in H.
  repeat case_match; inv_M; settled_steps HV;
    repeat case_match; inv_M; settled_steps HV;
    unfold settled, same_scratch in *; simpl in *; intuition congruence.
Qed.

Lemma Visit_settled fuel : forall e s r s',
  Visit tensor_name_ all_tensor_map_ stages_ fuel e s = Done (r, s') ->
  settled s s'.
Proof.
  induction fuel as [|n IH]; intros e s s' r H; [done |].
  rewrite Visit_S in H.
  destruct e; cbv beta iota in H;
    try (inv_M; eapply (IRMutator_Visit_R settled); [| eassumption];
         intros; eapply IH; eassumption).
  - apply Visit_Var_Done in H as ->. reflexivity.
  - eapply Visit_Load_settled; [| eassumption]. intros. eapply IH. eassumption.
  - apply Visit_Tensor_Done in H as ->. reflexivity.
Qed.
End Settled.

(** X7.  When the mutator has processed an expression, [inline_code] has
    the value it had before or is false (the handler of [Load] sets it to
    false after an expansion, it does not put the old value back); a visit
    that starts outside inline code, as every run of the mutator does,
    leaves all three fields of the mutator as they were. *)
Theorem Visit_restores_state
    (tensor_name_ : string) (all_tensor_map : gmap string Tensor)
    (stages : string -> Stage) (fuel : nat) (e : Expr)
    (s s' : MutatorState) (r : Slot) :
  Visit tensor_name_ all_tensor_map stages fuel e s = Done (r, s') ->
  (inline_code s' = inline_code s \/ inline_code s' = false)
  /\ (inline_code s = false -> s' = s).
Proof.
  intros [[Ht Hm] Hi]%Visit_settled. split.
  - destruct (inline_code s'); [left; by rewrite Hi | by right].
  - intros Hs. destruct s as [i t m], s' as [i' t' m']; simpl in *.
    f_equal; try done. destruct i'; [by rewrite Hi in Hs | by rewrite Hs].
Qed.

(** Inside inline code, the expansion of a nested load of [K] leaves the
    mutator outside inline code. *)
Lemma Visit_restores_state_witness :
  Visit "K" Ex.all_tensor_map Ex.stages 3 (Load Ex.K [IntImm 0]) Ex.inline
  = Done (Replaced (IntImm 1), initial_state)
  /\ (inline_code initial_state = inline_code Ex.inline
      \/ inline_code initial_state = false)
  /\ (inline_code Ex.inline = false -> initial_state = Ex.inline).
Proof.
  split; [vm_compute; reflexivity |].
  apply (Visit_restores_state "K" Ex.all_tensor_map Ex.stages 3
           (Load Ex.K [IntImm 0]) Ex.inline initial_state
           (Replaced (IntImm 1))).
  vm_compute. reflexivity.
Defined.

(** ** Runs of the mutator that change nothing, and runs that abort *)

(** The loads of a tree that is given in full. *)
Lemma not_loaded_forallb name e :
  forallb (fun node =>
             match node with
             | Load tensor _ =>
                 match as_tensor tensor with
                 | Some t => negb (String.eqb (tensor_name t) name)
                 | None => true
                 end
             | _ => true
             end) (sub_exprs e) = true ->
  not_loaded name e.
Proof.
  rewrite forallb_forall. intros H tensor idx t Hin Ht.
  apply list_elem_of_In, H in Hin. simpl in Hin. rewrite Ht in Hin.
  by apply negb_true_iff, String.eqb_neq in Hin.
Qed.

(** X8.  A run of the mutator for a tensor that no [Load] of the tree
    references returns the tree unchanged, whatever the tensor map and the
    stages hold: outside inline code neither is looked at. *)
Theorem TensorInlineExpandMutator_not_loaded
    (name : string) (all_tensor_map : gmap string Tensor)
    (stages : string -> Stage) (fuel : nat) (e : Expr) :
  not_loaded name e ->
  height e <= fuel ->
  TensorInlineExpandMutator name all_tensor_map stages fuel e = Done e.
Proof.
  intros H Hh. unfold TensorInlineExpandMutator.
  rewrite Visit_quiet; simpl; [done | done | | done].
  by apply quiet_outside.
Qed.

(** [store_T] loads [T]; with an empty tensor map the run for [U] hands it
    back. *)
Lemma TensorInlineExpandMutator_not_loaded_witness :
  TensorInlineExpandMutator "U" ∅ Ex.stages 4 Ex.store_T = Done Ex.store_T.
Proof.
  apply (TensorInlineExpandMutator_not_loaded "U" ∅ Ex.stages 4 Ex.store_T).
  - apply not_loaded_forallb. vm_compute. reflexivity.
  - vm_compute. lia.
Defined.

(** X9.  Inside inline code, the load of a tensor that has a buffer and
    that the tensor map does not hold aborts ([at] throws), whatever the
    name of the buffer. *)
Theorem Visit_Load_unregistered_tensor
    (tensor_name_ : string) (all_tensor_map : gmap string Tensor)
    (stages : string -> Stage) (fuel : nat)
    (tensor : Expr) (t : Tensor) (indices : list Expr) (s : MutatorState) :
  as_tensor tensor = Some t ->
  tensor_name t <> tensor_name_ ->
  inline_code s = true ->
  is_Some (tensor_buffer t) ->
  all_tensor_map !! tensor_name t = None ->
  exists msg,
    Visit tensor_name_ all_tensor_map stages (S fuel) (Load tensor indices) s
    = Fatal msg.
Proof.
  intros Ht Hne Hi [b Hb] Hm. rewrite Visit_S. unfold Visit_Load.
  rewrite (bind_step _ _ _ s s) by done. rewrite Ht.
  apply String.eqb_neq in Hne. rewrite Hne, Hi, Hb.
  unfold bind, at_memory_type. rewrite Hm. unfold fatal. eauto.
Qed.

Lemma Visit_Load_unregistered_tensor_witness :
  exists msg,
    Visit "T" Ex.all_tensor_map Ex.stages 1
      (Load Ex.unregistered [Ex.var "i"]) Ex.inline
    = Fatal msg.
Proof.
  apply (Visit_Load_unregistered_tensor "T" Ex.all_tensor_map Ex.stages 0
           Ex.unregistered (mkTensor "Z" [] (Some (mkBuffer "_Z" Heap)) [] None)
           [Ex.var "i"] Ex.inline);
    [reflexivity | discriminate | reflexivity | by eexists | reflexivity].
Defined.

(** Outside inline code the same load is traversed and kept. *)
Example Visit_Load_unregistered_outside :
  Visit "T" Ex.all_tensor_map Ex.stages 2
    (Load Ex.unregistered [Ex.var "i"]) initial_state
  = Done (Kept (Load Ex.unregistered [Ex.var "i"]), initial_state).
Proof. vm_compute. reflexivity. Qed.

(** X10.  Inside inline code, the load of a tensor in a cache or scratch
    buffer whose stage computes at more than one tensor aborts
    ([CHECK_LE(compute_ats.size(), 1)]), unless the load is the one of a heap
    write cache that is redirected. *)
Theorem Visit_Load_two_compute_ats
    (tensor_name_ : string) (all_tensor_map : gmap string Tensor)
    (stages : string -> Stage) (fuel : nat)
    (tensor : Expr) (t mt : Tensor) (b mb : Buffer)
    (indices : list Expr) (s : MutatorState) :
  as_tensor tensor = Some t ->
  tensor_name t <> tensor_name_ ->
  inline_code s = true ->
  tensor_buffer t = Some b ->
  cache_suffix (buffer_name b) = true ->
  all_tensor_map !! tensor_name t = Some mt ->
  tensor_buffer mt = Some mb ->
  (Endswith (buffer_name b) "_write_cache" = true -> memory_type mb = Heap ->
   exists no_cache_name,
     no_cache_name_of_buffer (buffer_name b) = Some no_cache_name
     /\ all_tensor_map !! no_cache_name = None) ->
  2 <= length (GetComputeAts (stages (tensor_name t))) ->
  Visit tensor_name_ all_tensor_map stages (S fuel) (Load tensor indices) s
  = Fatal "CHECK_LE(compute_ats.size(), 1)".
Proof.
  intros Ht Hne Hi Hb Hsuf Hm Hmb Hnc Hca. rewrite Visit_S.
  rewrite (Visit_Load_inline_buffer _ _ _ _ _ t b mt mb) by done.
  assert (forall X (k : list Expr -> M MutatorState X),
            bind (erase_compute_at stages t indices) k s
            = Fatal "CHECK_LE(compute_ats.size(), 1)") as Herase.
  { intros X k. unfold bind, erase_compute_at.
    destruct (GetComputeAts (stages (tensor_name t))) as [|[p1 r1] [|[p2 r2] l]];
      simpl in Hca; [lia | lia | done]. }
  destruct (Endswith (buffer_name b) "_write_cache") eqn:Hw; simpl.
  - destruct (memory_type mb) eqn:Hmem; simpl; rewrite ?Hsuf; try apply Herase.
    destruct Hnc as (nc & -> & ->); [done | done |]. apply Herase.
  - rewrite Hsuf. apply Herase.
Qed.

Lemma Visit_Load_two_compute_ats_witness :
  Visit "T" Ex.all_tensor_map Ex.two_parents 1
    (Load (Ex.cache "S_read_cache" GPUShared) [Ex.var "i"]) Ex.inline
  = Fatal "CHECK_LE(compute_ats.size(), 1)".
Proof.
  apply (Visit_Load_two_compute_ats "T" Ex.all_tensor_map Ex.two_parents 0
           (Ex.cache "S_read_cache" GPUShared)
           (Ex.cache_tensor "S_read_cache" GPUShared)
           (Ex.cache_tensor "S_read_cache" GPUShared)
           (mkBuffer "_S_read_cache" GPUShared)
           (mkBuffer "_S_read_cache" GPUShared) [Ex.var "i"] Ex.inline);
    [reflexivity | discriminate | reflexivity | reflexivity | reflexivity
    | reflexivity | reflexivity | discriminate | simpl; lia].
Defined.

(** ** One round of the pass *)

(** The expansion of one load whose substituted body the traversal leaves
    alone. *)
Lemma Visit_Load_expands tensor_name_ all_tensor_map stages fuel
    tensor t body indices s :
  as_tensor tensor = Some t ->
  tensor_name t = tensor_name_ ->
  tensor_body t = Some body ->
  length (tensor_axis t) = length indices ->
  temp_buffer s = false ->
  quiet tensor_name_ all_tensor_map true
        (subst_vars (zip (tensor_axis t) indices) body) = true ->
  height (subst_vars (zip (tensor_axis t) indices) body) <= fuel ->
  Visit tensor_name_ all_tensor_map stages (S fuel) (Load tensor indices) s
  = Done (Replaced (subst_vars (zip (tensor_axis t) indices) body),
          set_inline_code false s).
Proof.
  intros Ht Hn Hb Hl Hs Hq Hh. rewrite Visit_S. unfold Visit_Load.
  rewrite (bind_step _ _ _ s s) by done. rewrite Ht.
  apply String.eqb_eq in Hn. rewrite Hn.
  unfold inline_expanded. rewrite Hb. apply Nat.eqb_eq in Hl. rewrite Hl.
  rewrite (bind_step _ _ _ tt (set_inline_code true s)) by done.
  rewrite (bind_step _ _ _
             (Kept (subst_vars (zip (tensor_axis t) indices) body))
             (set_inline_code true s)); [done |].
  apply Visit_quiet; simpl; [by rewrite Hs | done | done].
Qed.

Section Single.
Variable stages : string -> Stage.
Variable all_tensor_map : gmap string Tensor.

Lemma expand_each_app fuel l1 l2 e :
  expand_each stages all_tensor_map fuel (l1 ++ l2)%list e
  = match expand_each stages all_tensor_map fuel l1 e with
    | Done e1 => expand_each stages all_tensor_map fuel l2 e1
    | Fatal msg => Fatal msg
    | OutOfFuel => OutOfFuel
    end.
Proof.
  revert e. induction l1 as [|n l1 IH]; intros e; simpl; [done |].
  destruct (TensorInlineExpandMutator n all_tensor_map stages fuel e);
    [apply IH | done | done].
Qed.

(** The runs for tensors that the tree does not load change nothing. *)
Lemma expand_each_other fuel names e :
  (forall name, name ∈ names -> not_loaded name e) ->
  height e <= fuel ->
  expand_each stages all_tensor_map fuel names e = Done e.
Proof.
  intros H Hh. induction names as [|name names IH]; simpl; [done |].
  unfold TensorInlineExpandMutator.
  rewrite Visit_quiet; simpl; try done.
  - apply IH. intros n Hn. apply H, elem_of_cons. by right.
  - apply quiet_outside, H, elem_of_cons. by left.
Qed.
End Single.

Section One_run.
Variable stages : string -> Stage.
Variable all_tensor_map : gmap string Tensor.

(** One round is enough when the run for one tensor leaves no load of an
    inlined tensor and the other inlined tensors are not loaded. *)
Lemma ComputeInlineExpand_one_run fuel rounds name e e' :
  name ∈ tensor_names (CollectIRNodes e (is_inline_tensor stages)) ->
  (forall n, inlined (stages n) = true -> n <> name -> not_loaded n e) ->
  TensorInlineExpandMutator name all_tensor_map stages fuel e = Done e' ->
  no_inline_load stages e' ->
  height e <= fuel -> height e' <= fuel -> 1 <= rounds ->
  ComputeInlineExpand stages all_tensor_map fuel rounds e = Done e'.
Proof.
  intros Hname Hoth Hrun Hno Hh Hh' Hr. unfold ComputeInlineExpand.
  assert (forall x, x ∈ CollectIRNodes e (is_inline_tensor stages) ->
            is_inline_tensor stages x = true) as Hall
    by (intros x Hx; by apply filter_all in Hx).
  destruct (CollectIRNodes e (is_inline_tensor stages)) as [|t0 ts0];
    [by apply elem_of_nil in Hname |].
  destruct rounds as [|rounds]; [lia |].
  rewrite expand_loop_S.
  assert (NoDup (tensor_names (t0 :: ts0))) as Hnd by apply NoDup_remove_dups.
  pose proof (tensor_names_inlined stages (t0 :: ts0)) as Hinl.
  apply list_elem_of_split in Hname as (l1 & l2 & Hsplit).
  rewrite Hsplit in Hnd, Hinl |- *.
  assert (forall n, n ∈ (l1 ++ l2)%list ->
            inlined (stages n) = true /\ n <> name) as Hothers.
  { intros n Hn. split.
    - apply Hinl; [done |]. rewrite elem_of_app, elem_of_cons.
      apply elem_of_app in Hn. tauto.
    - intros ->. apply NoDup_app in Hnd as (_ & Hd & Hnd).
      apply NoDup_cons in Hnd as [Hnd _].
      apply elem_of_app in Hn as [Hn | Hn]; [| done].
      apply (Hd _ Hn). apply elem_of_cons. by left. }
  rewrite expand_each_app.
  rewrite expand_each_other; [| | done].
  2:{ intros n Hn. destruct (Hothers n) as [Hi Hne]; [apply elem_of_app; by left |].
      by apply Hoth. }
  cbn [expand_each]. rewrite Hrun.
  rewrite expand_each_unchanged; [| | done | done].
  2:{ intros n Hn. apply Hothers. apply elem_of_app. by right. }
  apply CollectLoadTensors_nil in Hno. rewrite Hno. by destruct rounds.
Qed.

Lemma loaded_tensor_names e tensor idx t :
  Load tensor idx ∈ sub_exprs e -> as_tensor tensor = Some t ->
  inlined (stages (tensor_name t)) = true ->
  tensor_name t ∈ tensor_names (CollectIRNodes e (is_inline_tensor stages)).
Proof.
  intros Hl Ht Hin. unfold tensor_names.
  apply elem_of_remove_dups, list_elem_of_omap. exists tensor.
  split; [| by rewrite Ht].
  unfold CollectIRNodes. apply list_elem_of_In, filter_In. split.
  - apply list_elem_of_In. by eapply load_tensor_sub_expr.
  - unfold is_inline_tensor. by rewrite Ht.
Qed.
End One_run.

(** X11.  On the load of an inlined tensor, in whose tensor handle and
    indices no inlined tensor is loaded, [ComputeInlineExpand] returns the
    expansion of the tensor with the indices of the load in the place of its
    formals, provided that the traversal leaves this expression as it is
    (the condition of C2) and that it loads no inlined tensor: one round of
    the loop, in which the run for the tensor expands the load and the runs
    for the other inlined tensors of the tree, before and after it, change
    nothing. *)
Theorem ComputeInlineExpand_single_load
    (stages : string -> Stage) (all_tensor_map : gmap string Tensor)
    (fuel rounds : nat) (tensor : Expr) (t : Tensor) (body : Expr)
    (indices : list Expr) :
  as_tensor tensor = Some t ->
  inlined (stages (tensor_name t)) = true ->
  tensor_body t = Some body ->
  length (tensor_axis t) = length indices ->
  (forall c, c ∈ children (Load tensor indices) -> no_inline_load stages c) ->
  let expansion := subst_vars (zip (tensor_axis t) indices) body in
  quiet (tensor_name t) all_tensor_map true expansion = true ->
  no_inline_load stages expansion ->
  height (Load tensor indices) <= fuel ->
  height expansion < fuel ->
  1 <= rounds ->
  ComputeInlineExpand stages all_tensor_map fuel rounds (Load tensor indices)
  = Done expansion.
Proof.
  intros Ht Hin Hb Hl Hc expansion Hq Hno Hh Hhe Hr. subst expansion.
  apply (ComputeInlineExpand_one_run _ _ _ _ (tensor_name t)); try done;
    [| | | lia].
  - eapply loaded_tensor_names; [apply sub_exprs_self | done | done].
  - intros n Hn Hne tensor' idx t' Hload Ht'.
    apply sub_exprs_inv in Hload as [Heq | (c & Hcc & Hload)].
    + simplify_eq. congruence.
    + specialize (Hc c Hcc _ _ Hload). unfold is_inline_tensor in Hc.
      rewrite Ht' in Hc. congruence.
  - unfold TensorInlineExpandMutator. destruct fuel as [|fuel]; [lia |].
    by rewrite (Visit_Load_expands _ _ _ _ _ t body) by (done || lia).
Qed.

(** The pass on [E[x + 1, y]], with [E(i, j) = A[i, j] + B[j]]. *)
Lemma ComputeInlineExpand_single_load_witness :
  ComputeInlineExpand Ex.stages Ex.all_tensor_map 5 1
    (Load Ex.E [Binary Add (Ex.var "x") (IntImm 1); Ex.var "y"])
  = Done (Binary Add
            (Load (Ex.heap "A") [Binary Add (Ex.var "x") (IntImm 1); Ex.var "y"])
            (Load (Ex.heap "B") [Ex.var "y"])).
Proof.
  apply (ComputeInlineExpand_single_load Ex.stages Ex.all_tensor_map 5 1 Ex.E
           (mkTensor "E" [] None ["i"; "j"]
              (Some (Binary Add (Load (Ex.heap "A") [Ex.var "i"; Ex.var "j"])
                                (Load (Ex.heap "B") [Ex.var "j"]))))
           (Binary Add (Load (Ex.heap "A") [Ex.var "i"; Ex.var "j"])
                       (Load (Ex.heap "B") [Ex.var "j"]))
           [Binary Add (Ex.var "x") (IntImm 1); Ex.var "y"]);
    try reflexivity.
  - intros c Hc. apply CollectLoadTensors_nil. simpl in Hc.
    each_elem Hc; vm_compute; reflexivity.
  - apply CollectLoadTensors_nil. vm_compute. reflexivity.
  - vm_compute. lia.
  - vm_compute. lia.
Defined.

(** ** The mutator as a function on trees *)

Lemma Visit_inline_all name all_tensor_map stages bound fuel : forall e s,
  inline_code s = false -> temp_buffer s = false ->
  expansions_quiet name all_tensor_map bound e ->
  height e + bound <= fuel ->
  Visit name all_tensor_map stages fuel e s = Done (inline_all name e, s).
Proof.
  induction fuel as [|n IH]; intros e s Hi Ht Hq Hh.
  { destruct e; simpl in Hh; lia. }
  assert (forall c, c ∈ children e ->
            Visit name all_tensor_map stages n c s = Done (inline_all name c, s))
    as Hc.
  { intros c Hc. apply IH; try done.
    - intros tensor idx t Hl. apply Hq. by eapply sub_exprs_child.
    - apply height_children in Hc. lia. }
  rewrite Visit_S.
  destruct e as [| | | | | | | | | | | | | | | | | tensor indices | | | | | | | | | | | | | | ];
    cbv beta iota;
    try (erewrite bind_step; [reflexivity |];
         apply IRMutator_Visit_rebuild; [done |];
         intros c Hin; apply Hc; by apply visited_children_children).
  - (* _Var_ *)
    unfold Visit_Var. rewrite (bind_step _ _ _ s s) by done. by rewrite Hi.
  - (* Load *)
    unfold Visit_Load. rewrite (bind_step _ _ _ s s) by done. simpl.
    assert (mapM_st (fun idx => visit (Visit name all_tensor_map stages n) (IRCopy idx))
              indices s
            = Done (map (fun i => slot_expr (inline_all name i)) indices, s))
      as Hidx.
    { apply (visit_list_rebuild _ (inline_all name)). intros c Hin.
      apply Hc. simpl. apply elem_of_cons. by right. }
    assert (visit (Visit name all_tensor_map stages n) tensor s
            = Done (slot_expr (inline_all name tensor), s)) as Htensor.
    { apply visit_rebuild, Hc. simpl. apply elem_of_cons. by left. }
    destruct (as_tensor tensor) as [t|] eqn:Et.
    + destruct (String.eqb_spec (tensor_name t) name) as [Hn | Hn].
      * destruct (Hq tensor indices t) as (x & Hx & Hqx & Hhx);
          [apply sub_exprs_self | done | done |].
        rewrite Hx.
        rewrite (bind_step _ _ _ tt (set_inline_code true s)) by done.
        rewrite (bind_step _ _ _ (Kept x) (set_inline_code true s)).
        -- unfold bind, modify, ret. simpl. destruct s; simpl in *. by subst.
        -- apply Visit_quiet; simpl; [by rewrite Ht | done | simpl in Hh; lia].
      * rewrite Hi. unfold visit_tensor_and_indices.
        rewrite (bind_step _ _ _ _ _ Htensor), (bind_step _ _ _ _ _ Hidx).
        destruct tensor; try done.
    + rewrite Hi. unfold visit_tensor_and_indices.
      by rewrite (bind_step _ _ _ _ _ Htensor), (bind_step _ _ _ _ _ Hidx).
  - (* _Tensor_ *)
    unfold Visit_Tensor. rewrite (bind_step _ _ _ s s) by done. by rewrite Hi.
Qed.

Lemma rebuild_id (g : Expr -> Slot) e :
  (forall c, c ∈ visited_children e -> g c = Kept c) -> rebuild g e = e.
Proof.
  intros H.
  assert (forall l : list Expr, (forall c, c ∈ l -> c ∈ visited_children e) ->
            map (fun c => slot_expr (g c)) l = l) as Hl.
  { intros l Hin. apply map_id_in. intros c Hc. by rewrite H by by apply Hin. }
  assert (forall o : option Expr, (forall c, c ∈ opt_list o -> c ∈ visited_children e) ->
            option_map (fun c => slot_expr (g c)) o = o) as Ho.
  { intros o Hin. apply option_map_id_in. intros c Hc. by rewrite H by by apply Hin. }
  destruct e; simpl in *;
    try match goal with r : bool |- _ => destruct r; [| done] end;
    rewrite ?H by set_solver; simpl;
    rewrite ?Hl by set_solver; rewrite ?Ho by set_solver; try done.
  f_equal. destruct body as [b|]; simpl; [| done].
  by rewrite H by set_solver.
Qed.

Lemma inline_all_not_loaded name e : not_loaded name e -> inline_all name e = Kept e.
Proof.
  induction e as [e IH] using Expr_children_ind. intros H.
  assert (forall c, c ∈ children e -> inline_all name c = Kept c) as Hc.
  { intros c Hc. apply IH; [done |]. intros tensor idx t Hl Ht.
    eapply H; [| done]. by eapply sub_exprs_child. }
  destruct e as [| | | | | | | | | | | | | | | | | tensor indices | | | | | | | | | | | | | | ];
    try done;
    try (cbn [inline_all]; f_equal; apply rebuild_id; intros c Hin;
         apply Hc; by apply visited_children_children).
  cbn [inline_all].
  assert (map (fun i => slot_expr (inline_all name i)) indices = indices) as ->.
  { apply map_id_in. intros c Hin. rewrite Hc; [done |]. simpl.
    apply elem_of_cons. by right. }
  rewrite (Hc tensor) by (simpl; apply elem_of_cons; by left). simpl.
  destruct (as_tensor tensor) as [t|] eqn:Et; [| done].
  destruct (String.eqb_spec (tensor_name t) name) as [Hn | Hn]; [| done].
  destruct (H tensor indices t); [apply sub_exprs_self | done | done].
Qed.

(** The conditions of the next two statements on a tree that is given in
    full. *)
Lemma expansions_quiet_forallb name all_tensor_map bound e :
  forallb (fun node =>
             match node with
             | Load tensor idx =>
                 match as_tensor tensor with
                 | Some t =>
                     negb (String.eqb (tensor_name t) name)
                     || match inline_expanded t idx with
                        | Some x => quiet name all_tensor_map true x
                                    && Nat.leb (height x) bound
                        | None => false
                        end
                 | None => true
                 end
             | _ => true
             end) (sub_exprs e) = true ->
  expansions_quiet name all_tensor_map bound e.
Proof.
  rewrite forallb_forall. intros H tensor idx t Hin Ht Hn.
  apply list_elem_of_In, H in Hin. simpl in Hin. rewrite Ht in Hin.
  apply String.eqb_eq in Hn. rewrite Hn in Hin. simpl in Hin.
  destruct (inline_expanded t idx) as [x|]; [| done].
  apply andb_true_iff in Hin as [Hq Hh]. apply Nat.leb_le in Hh. eauto.
Qed.

Lemma only_inlined_load_forallb stages name e :
  forallb (fun node =>
             match node with
             | Load tensor _ =>
                 match as_tensor tensor with
                 | Some t => negb (inlined (stages (tensor_name t)))
                             || String.eqb (tensor_name t) name
                 | None => true
                 end
             | _ => true
             end) (sub_exprs e) = true ->
  only_inlined_load stages name e.
Proof.
  rewrite forallb_forall. intros H tensor idx t Hin Ht Hi.
  apply list_elem_of_In, H in Hin. simpl in Hin. rewrite Ht, Hi in Hin.
  by apply String.eqb_eq in Hin.
Qed.

(** X12.  A run of [TensorInlineExpandMutator] on a tree in which every
    load of the tensor has an expansion that the traversal of inline code
    leaves as it is computes [inline_all], given a budget of the depth of
    the tree and of the expansions: every load of the tensor that the
    traversal reaches is replaced by the expansion, with the indices of the
    load, as they are, in the place of the formals, and nothing else
    changes.  A load in the lower bound or the extent of a [PolyFor], in the
    bounds of a variable or in the shape of a tensor stays, and so does a
    load that is the body of an [Alloc]. *)
Theorem TensorInlineExpandMutator_inline_all
    (name : string) (all_tensor_map : gmap string Tensor)
    (stages : string -> Stage) (bound fuel : nat) (e : Expr) :
  expansions_quiet name all_tensor_map bound e ->
  height e + bound <= fuel ->
  TensorInlineExpandMutator name all_tensor_map stages fuel e
  = Done (slot_expr (inline_all name e)).
Proof.
  intros Hq Hh. unfold TensorInlineExpandMutator.
  by rewrite (Visit_inline_all name all_tensor_map stages bound) by done.
Qed.

(** The run for [T] on [C[x, y] = T[x + 1, y]] leaves
    [C[x, y] = U[x + 1] + B[y]]; the load of [U] is for the run of [U]. *)
Lemma TensorInlineExpandMutator_inline_all_witness :
  TensorInlineExpandMutator "T" Ex.all_tensor_map Ex.stages 8 Ex.store_T
  = Done (Store (Ex.heap "C")
            (Binary Add (Load Ex.U [Binary Add (Ex.var "x") (IntImm 1)])
                        (Load (Ex.heap "B") [Ex.var "y"]))
            [Ex.var "x"; Ex.var "y"]).
Proof.
  apply (TensorInlineExpandMutator_inline_all "T" Ex.all_tensor_map Ex.stages
           4 8 Ex.store_T).
  - apply expansions_quiet_forallb. vm_compute. reflexivity.
  - vm_compute. lia.
Defined.

(** What stays: the load in the lower bound of [poly_loop], the load in
    the bound of the reduction axis of [reduce_bound], the load that is the
    body of [alloc_K]. *)
Example inline_all_stays :
  inline_all "K" Ex.poly_loop = Kept Ex.poly_loop
  /\ inline_all "K" Ex.reduce_bound = Kept Ex.reduce_bound
  /\ inline_all "K" Ex.alloc_K = Kept Ex.alloc_K.
Proof. repeat split; vm_compute; reflexivity. Qed.

Lemma load_origin_child name e c t i :
  c ∈ children e -> load_origin name c t i -> load_origin name e t i.
Proof.
  intros Hc [(idx & Hl & Hn) | (tensor & idx & tt & x & Hl & H)].
  - left. exists idx. split; [by eapply sub_exprs_child | done].
  - right. exists tensor, idx, tt, x. split; [by eapply sub_exprs_child | done].
Qed.

Lemma reaches_loads_child name e c :
  c ∈ children e -> reaches_loads name e -> reaches_loads name c.
Proof. intros Hc H node Hn. apply H. by eapply sub_exprs_child. Qed.

Lemma not_loaded_origin name e t i :
  not_loaded name e -> Load t i ∈ sub_exprs e -> load_origin name e t i.
Proof. intros H Hl. left. exists i. split; [done |]. intros tt Ht. by eapply H. Qed.

(** The children of a rebuilt node. *)
Lemma children_rebuild (g : Expr -> Slot) e c' :
  match e with _Var_ _ _ _ _ | _Tensor_ _ _ _ _ _ | Load _ _ => False | _ => True end ->
  c' ∈ children (rebuild g e) ->
  c' ∈ skipped_children e
  \/ (exists c, c ∈ visited_children e /\ c' = slot_expr (g c))
  \/ (exists d ext cnd b x, e = Alloc d ext cnd (Some b) /\ g b = Replaced x /\ c' = b).
Proof.
  intros Hk.
  assert (forall l, c' ∈ map (fun c => slot_expr (g c)) l ->
            exists c, c ∈ l /\ c' = slot_expr (g c)) as Hl.
  { intros l (c & -> & Hc)%list_elem_of_fmap. eauto. }
  assert (forall o, c' ∈ opt_list (option_map (fun c => slot_expr (g c)) o) ->
            exists c, c ∈ opt_list o /\ c' = slot_expr (g c)) as Ho.
  { intros [c|]; simpl; [| by intros ?%elem_of_nil].
    intros ->%list_elem_of_singleton. exists c. split; [| done].
    by apply list_elem_of_singleton. }
  destruct e; simpl in *; try done;
    rewrite ?elem_of_app, ?elem_of_cons, ?elem_of_nil;
    intros H;
    repeat match goal with
    | H : _ \/ _ |- _ => destruct H as [H | H]
    | H : False |- _ => destruct H
    | H : _ ∈ map _ _ |- _ => apply Hl in H as (? & ? & ->)
    | H : _ ∈ opt_list (option_map (fun c => slot_expr (g c)) _) |- _ =>
        apply Ho in H as (? & ? & ->)
    end;
    try (subst; right; left; eexists; split; [| reflexivity];
         rewrite ?elem_of_app, ?elem_of_cons; tauto);
    try (subst; left; rewrite ?elem_of_cons; tauto).
  (* the body of an Alloc *)
  destruct body as [b|]; simpl in H; [| by apply elem_of_nil in H].
  apply list_elem_of_singleton in H.
  destruct (g b) as [b' | x] eqn:Eg.
  - right. left. exists b. split.
    + rewrite !elem_of_app. right. right. by apply list_elem_of_singleton.
    + by rewrite Eg.
  - right. right. subst. eauto 10.
Qed.

Lemma inline_all_Replaced name e x :
  inline_all name e = Replaced x ->
  exists tensor idx t, e = Load tensor idx /\ as_tensor tensor = Some t
                       /\ tensor_name t = name.
Proof.
  destruct e; try done. simpl.
  destruct (as_tensor e) as [t|] eqn:Et; [| done].
  destruct (String.eqb_spec (tensor_name t) name) as [Hn | Hn]; [| done].
  eauto 10.
Qed.

Lemma rebuild_not_Load g e t i :
  match e with Load _ _ => False | _ => True end -> rebuild g e <> Load t i.
Proof. destruct e; simpl; try done. by destruct is_reduce_axis. Qed.

Lemma loads_of_inline_all name all_tensor_map bound e : forall t i,
  reaches_loads name e ->
  expansions_quiet name all_tensor_map bound e ->
  Load t i ∈ sub_exprs (slot_expr (inline_all name e)) ->
  load_origin name e t i.
Proof.
  induction e as [e IH] using Expr_children_ind. intros t i Hr Hq Hl.
  assert (forall c, c ∈ children e ->
            Load t i ∈ sub_exprs (slot_expr (inline_all name c)) ->
            load_origin name e t i) as Hc.
  { intros c Hc Hlc. apply (load_origin_child _ _ c); [done |].
    apply IH; [done | by eapply reaches_loads_child | | done].
    intros ? ? ? ?. apply Hq. by eapply sub_exprs_child. }
  assert (forall c, c ∈ skipped_children e -> Load t i ∈ sub_exprs c ->
            c ∈ children e -> load_origin name e t i) as Hs.
  { intros c Hs Hlc Hcc. apply (load_origin_child _ _ c); [done |].
    apply not_loaded_origin; [| done].
    by apply (Hr e (sub_exprs_self e)). }
  assert (match e with
          | _Var_ _ _ _ _ | _Tensor_ _ _ _ _ _ | Load _ _ => False
          | _ => True
          end
          \/ ~ match e with
               | _Var_ _ _ _ _ | _Tensor_ _ _ _ _ _ | Load _ _ => False
               | _ => True
               end) as [Hk | Hk] by (destruct e; tauto).
  - (* a node of a kind without override *)
    assert (inline_all name e = Kept (rebuild (inline_all name) e)) as Hi
      by by destruct e.
    rewrite Hi in Hl. cbn [slot_expr] in Hl.
    apply sub_exprs_inv in Hl as [Heq | (c' & Hc' & Hl)].
    { symmetry in Heq. apply rebuild_not_Load in Heq; [done |]. by destruct e. }
    apply children_rebuild in Hc' as [Hsk | [(c & Hv & ->) | Hb]]; [| | | done].
    + apply (Hs c'); [done | done |].
      destruct e; simpl in Hsk; try (by apply elem_of_nil in Hsk); try done.
      simpl. rewrite !elem_of_cons in *. tauto.
    + apply (Hc c); [by apply visited_children_children | done].
    + destruct Hb as (d & ext & cnd & b & x & -> & Hg & ->).
      apply inline_all_Replaced in Hg as (tensor & idx & tt & -> & Ht & Hn).
      destruct (Hr _ (sub_exprs_self _)) as [_ Ha]. simpl in Ha.
      by destruct (Ha tt Ht).
  - destruct e as [| | | | | | | | | | | | | | | | | tensor indices | | | | | | | | | | | | | | ];
      try (by destruct Hk).
    + (* _Var_ *)
      cbn [inline_all slot_expr] in Hl. apply sub_exprs_inv in Hl as [Heq | (c & Hcc & Hl)]; [done |].
      by apply (Hs c).
    + (* Load *)
      destruct (Hr _ (sub_exprs_self _)) as [_ [tt Ht]].
      cbn [inline_all] in Hl. rewrite Ht in Hl.
      destruct (String.eqb_spec (tensor_name tt) name) as [Hn | Hn].
      * destruct (Hq tensor indices tt) as (x & Hx & _);
          [apply sub_exprs_self | done | done |].
        rewrite Hx in Hl. cbn [slot_expr] in Hl. right.
        exists tensor, indices, tt, x. split; [apply sub_exprs_self | done].
      * cbn [slot_expr] in Hl.
        apply sub_exprs_inv in Hl as [Heq | (c' & Hc' & Hl)].
        { simplify_eq. left. exists indices. split; [apply sub_exprs_self |].
          intros tt' Ht'. congruence. }
        simpl in Hc'. apply elem_of_cons in Hc' as [-> | Hc'].
        -- (* in the shape of the tensor handle *)
           apply (load_origin_child _ _ tensor); [simpl; apply elem_of_cons; by left |].
           apply sub_exprs_inv in Hl as [Heq | (c & Hcc & Hl)];
             [by destruct tensor |].
           apply (load_origin_child _ _ c); [done |].
           apply not_loaded_origin; [| done].
           destruct (Hr tensor) as [Hsk _].
           { eapply sub_exprs_child; [| apply sub_exprs_self].
             simpl. apply elem_of_cons. by left. }
           apply Hsk. by destruct tensor.
        -- apply list_elem_of_fmap in Hc' as (c & -> & Hin).
           apply (Hc c); [simpl; apply elem_of_cons; by right | done].
    + (* _Tensor_ *)
      cbn [inline_all slot_expr] in Hl. apply sub_exprs_inv in Hl as [Heq | (c & Hcc & Hl)]; [done |].
      by apply (Hs c).
Qed.

Lemma heights_map (f : Expr -> Expr) (l : list Expr) bound :
  (forall c, c ∈ l -> height (f c) <= height c + bound) ->
  heights height (map f l) <= heights height l + bound.
Proof.
  induction l as [|c l IH]; intros H; simpl; [lia |].
  specialize (H c) as Hc. specialize (Hc ltac:(apply elem_of_cons; by left)).
  assert (heights height (map f l) <= heights height l + bound) as IH'
    by (apply IH; intros; apply H, elem_of_cons; by right).
  unfold heights in *. lia.
Qed.

Lemma height_opt_map (f : Expr -> Expr) (o : option Expr) bound :
  (forall c, c ∈ opt_list o -> height (f c) <= height c + bound) ->
  height_opt height (option_map f o) <= height_opt height o + bound.
Proof.
  destruct o as [c|]; simpl; intros H; [| lia].
  apply H, elem_of_cons. by left.
Qed.

Lemma height_rebuild (g : Expr -> Slot) e bound :
  (forall c, c ∈ children e -> height (slot_expr (g c)) <= height c + bound) ->
  height (rebuild g e) <= height e + bound.
Proof.
  intros H.
  assert (forall l, (forall c, c ∈ l -> c ∈ children e) ->
            heights height (map (fun c => slot_expr (g c)) l)
            <= heights height l + bound) as Hl.
  { intros l Hin. apply heights_map. intros c Hc. by apply H, Hin. }
  assert (forall o, (forall c, c ∈ opt_list o -> c ∈ children e) ->
            height_opt height (option_map (fun c => slot_expr (g c)) o)
            <= height_opt height o + bound) as Ho.
  { intros o Hin. apply height_opt_map. intros c Hc. by apply H, Hin. }
  assert (forall c, c ∈ children e -> height (slot_expr (g c)) <= height c + bound)
    as Hc by done.
  destruct e; simpl in *;
    try match goal with r : bool |- _ => destruct r; simpl end;
    repeat match goal with
    | |- context [heights height (map (fun c => slot_expr (g c)) ?l)] =>
        let Hx := fresh in
        assert (Hx := Hl l ltac:(intros ? ?; rewrite ?elem_of_app, ?elem_of_cons; tauto));
        generalize dependent (heights height (map (fun c => slot_expr (g c)) l));
        intros
    | |- context [height_opt height (option_map (fun c => slot_expr (g c)) ?o)] =>
        let Hx := fresh in
        assert (Hx := Ho o ltac:(intros ? ?; rewrite ?elem_of_app, ?elem_of_cons; tauto));
        generalize dependent (height_opt height (option_map (fun c => slot_expr (g c)) o));
        intros
    | |- context [height (slot_expr (g ?c))] =>
        let Hx := fresh in
        assert (Hx := Hc c ltac:(rewrite ?elem_of_app, ?elem_of_cons; tauto));
        generalize dependent (height (slot_expr (g c)));
        intros
    end;
    try lia.
  destruct body as [b|]; simpl; [| lia].
  assert (height (slot_expr (g b)) <= height b + bound) as Hb.
  { apply Hc. simpl. rewrite !elem_of_app, !elem_of_cons. tauto. }
  destruct (g b); simpl in Hb; lia.
Qed.

Lemma expansions_quiet_child name all_tensor_map bound e c :
  c ∈ children e -> expansions_quiet name all_tensor_map bound e ->
  expansions_quiet name all_tensor_map bound c.
Proof. intros Hc H tensor idx t Hl. apply H. by eapply sub_exprs_child. Qed.

(** The expansions add at most their depth to the depth of the tree. *)
Lemma height_inline_all name all_tensor_map bound e :
  expansions_quiet name all_tensor_map bound e ->
  height (slot_expr (inline_all name e)) <= height e + bound.
Proof.
  induction e as [e IH] using Expr_children_ind. intros Hq.
  assert (forall c, c ∈ children e ->
            height (slot_expr (inline_all name c)) <= height c + bound) as Hc.
  { intros c Hc. apply IH; [done |]. by eapply expansions_quiet_child. }
  destruct e; try (by apply height_rebuild); try (simpl; lia).
  (* Load *)
  cbn [inline_all].
  assert (heights height (map (fun i => slot_expr (inline_all name i)) indices)
          <= heights height indices + bound) as Hi.
  { apply heights_map. intros c Hin. apply Hc. simpl. apply elem_of_cons. by right. }
  destruct (as_tensor e) as [t|] eqn:Ht.
  - destruct (String.eqb_spec (tensor_name t) name) as [Hn | Hn].
    + destruct (Hq e indices t) as (x & -> & _ & Hx);
        [apply sub_exprs_self | done | done |].
      simpl. lia.
    + simpl in *. lia.
  - assert (height (slot_expr (inline_all name e)) <= height e + bound) as He.
    { apply Hc. simpl. apply elem_of_cons. by left. }
    simpl in *. lia.
Qed.

(** Inside inline code, a tree that the traversal leaves as it is loads no
    tensor called [name]. *)
Lemma quiet_not_loaded name all_tensor_map inl x :
  quiet name all_tensor_map inl x = true -> not_loaded name x.
Proof.
  intros Hq tensor idx t Hl Ht. unfold quiet in Hq.
  rewrite forallb_forall in Hq. specialize (Hq _ (proj1 (list_elem_of_In _ _) Hl)).
  simpl in Hq. rewrite Ht in Hq. apply andb_true_iff in Hq as [Hq _].
  by apply negb_true_iff, String.eqb_neq in Hq.
Qed.

Lemma inline_all_removes name all_tensor_map bound e :
  reaches_loads name e -> expansions_quiet name all_tensor_map bound e ->
  not_loaded name (slot_expr (inline_all name e)).
Proof.
  intros Hr Hq tensor idx t Hl Ht.
  apply (loads_of_inline_all name all_tensor_map bound) in Hl; [| done | done].
  destruct Hl as [(idx' & _ & Hn) | (tensor' & idx' & tt & x & Hl' & Ht' & Hn & Hx & Hl)].
  - by apply Hn.
  - destruct (Hq tensor' idx' tt Hl' Ht' Hn) as (x' & Hx' & Hqx & _).
    assert (x' = x) as -> by congruence.
    by eapply (quiet_not_loaded _ _ _ _ Hqx).
Qed.

Lemma inline_all_final stages name all_tensor_map bound e :
  only_inlined_load stages name e -> reaches_loads name e ->
  expansions_quiet name all_tensor_map bound e ->
  expansions_final stages name e ->
  no_inline_load stages (slot_expr (inline_all name e)).
Proof.
  intros Ho Hr Hq Hf t i Hl.
  apply (loads_of_inline_all name all_tensor_map bound) in Hl; [| done | done].
  destruct Hl as [(idx' & Hl & Hn) | (tensor' & idx' & tt & x & Hl' & Ht' & Hn & Hx & Hl)].
  - unfold is_inline_tensor. destruct (as_tensor t) as [tt|] eqn:Ht; [| done].
    destruct (inlined (stages (tensor_name tt))) eqn:Hi; [| done].
    destruct (Hn tt eq_refl). by eapply Ho.
  - by eapply Hf.
Qed.

(** The conditions of the next two statements on a tree that is given in
    full. *)
Lemma reaches_loads_forallb name e :
  forallb (fun node =>
             forallb (fun c =>
                        forallb (fun node =>
                                   match node with
                                   | Load tensor _ =>
                                       match as_tensor tensor with
                                       | Some t => negb (String.eqb (tensor_name t) name)
                                       | None => true
                                       end
                                   | _ => true
                                   end) (sub_exprs c))
                     (skipped_children node)
             && match node with
                | Load tensor _ =>
                    match as_tensor tensor with Some _ => true | None => false end
                | Alloc _ _ _ (Some (Load tensor _)) =>
                    match as_tensor tensor with
                    | Some t => negb (String.eqb (tensor_name t) name)
                    | None => true
                    end
                | _ => true
                end) (sub_exprs e) = true ->
  reaches_loads name e.
Proof.
  rewrite forallb_forall. intros H node Hin.
  apply list_elem_of_In, H, andb_true_iff in Hin as [Hs Hk]. split.
  - intros c Hc. apply not_loaded_forallb.
    rewrite forallb_forall in Hs. by apply Hs, list_elem_of_In.
  - destruct node; try done.
    + by destruct (as_tensor node).
    + destruct body as [[] |]; try done.
      intros t Ht. rewrite Ht in Hk.
      by apply negb_true_iff, String.eqb_neq in Hk.
Qed.

Lemma expansions_final_forallb stages name e :
  forallb (fun node =>
             match node with
             | Load tensor idx =>
                 match as_tensor tensor with
                 | Some t =>
                     negb (String.eqb (tensor_name t) name)
                     || match inline_expanded t idx with
                        | Some x =>
                            match CollectLoadTensors x (is_inline_tensor stages) with
                            | [] => true
                            | _ => false
                            end
                        | None => true
                        end
                 | None => true
                 end
             | _ => true
             end) (sub_exprs e) = true ->
  expansions_final stages name e.
Proof.
  rewrite forallb_forall. intros H tensor idx t x Hin Ht Hn Hx.
  apply list_elem_of_In, H in Hin. simpl in Hin. rewrite Ht, Hx in Hin.
  apply String.eqb_eq in Hn. rewrite Hn in Hin. simpl in Hin.
  apply CollectLoadTensors_nil.
  by destruct (CollectLoadTensors x (is_inline_tensor stages)).
Qed.

(** X13.  When [name] is the only inlined tensor that the tree loads, the
    traversal reaches each of its loads, and each expansion comes back from
    the traversal of inline code as it is and loads no inlined tensor,
    [ComputeInlineExpand] completes after one round of the loop, given a
    budget of the depth of the tree and of the expansions, and returns what
    [inline_all] leaves: the tree with every load of the tensor replaced by
    its expansion.  The runs for the other inlined tensors found in the tree
    change nothing, in whatever order they are made. *)
Theorem ComputeInlineExpand_one_tensor
    (stages : string -> Stage) (all_tensor_map : gmap string Tensor)
    (bound fuel rounds : nat) (name : string) (e : Expr) :
  inlined (stages name) = true ->
  only_inlined_load stages name e ->
  reaches_loads name e ->
  expansions_quiet name all_tensor_map bound e ->
  expansions_final stages name e ->
  height e + bound <= fuel ->
  1 <= rounds ->
  ComputeInlineExpand stages all_tensor_map fuel rounds e
  = Done (slot_expr (inline_all name e)).
Proof.
  intros Hin Honly Hreach Hq Hfin Hh Hr.
  pose proof (inline_all_final _ _ _ _ _ Honly Hreach Hq Hfin) as Hno.
  pose proof (height_inline_all _ _ _ _ Hq) as Hh'.
  destruct (decide (name ∈ tensor_names
              (CollectIRNodes e (is_inline_tensor stages)))) as [Hn | Hn].
  - apply (ComputeInlineExpand_one_run _ _ _ _ name); try done; try lia.
    + intros n Hi Hne tensor idx t Hload Ht Heq. apply Hne. rewrite <- Heq.
      eapply Honly; [done | done |]. by rewrite Heq.
    + unfold TensorInlineExpandMutator.
      by rewrite (Visit_inline_all name all_tensor_map stages bound) by done.
  - assert (not_loaded name e) as Hnl.
    { intros tensor idx t Hload Ht Heq. apply Hn. rewrite <- Heq.
      eapply loaded_tensor_names; [done | done |]. by rewrite Heq. }
    rewrite (inline_all_not_loaded _ _ Hnl) in *. simpl in *.
    unfold ComputeInlineExpand. apply expand_loop_unchanged; try done; try lia.
    intros x Hx. by apply filter_all in Hx.
Qed.

(** The pass on [C[x, y] = E[x + 1, y]], with [E(i, j) = A[i, j] + B[j]]. *)
Lemma ComputeInlineExpand_one_tensor_witness :
  ComputeInlineExpand Ex.stages Ex.all_tensor_map 8 1 Ex.store_E
  = Done (Store (Ex.heap "C")
            (Binary Add
               (Load (Ex.heap "A") [Binary Add (Ex.var "x") (IntImm 1); Ex.var "y"])
               (Load (Ex.heap "B") [Ex.var "y"]))
            [Ex.var "x"; Ex.var "y"]).
Proof.
  apply (ComputeInlineExpand_one_tensor Ex.stages Ex.all_tensor_map 4 8 1 "E"
           Ex.store_E).
  - reflexivity.
  - apply only_inlined_load_forallb. vm_compute. reflexivity.
  - apply reaches_loads_forallb. vm_compute. reflexivity.
  - apply expansions_quiet_forallb. vm_compute. reflexivity.
  - apply expansions_final_forallb. vm_compute. reflexivity.
  - vm_compute. lia.
  - lia.
Defined.

(** X18.  A run of [TensorInlineExpandMutator] removes the tensor from the
    tree when the traversal reaches each of its loads and each expansion
    comes back from the traversal of inline code as it is: the run
    completes, given a budget of the depth of the tree and of the
    expansions, and no [Load] of what it returns references the tensor.
    The loads that the traversal does not reach are those in the lower
    bound or the extent of a [PolyFor], in the bounds of a variable and in
    the shape of a tensor handle, and a load that is the body of an
    [Alloc]. *)
Theorem TensorInlineExpandMutator_removes_loads
    (name : string) (all_tensor_map : gmap string Tensor)
    (stages : string -> Stage) (bound fuel : nat) (e : Expr) :
  reaches_loads name e ->
  expansions_quiet name all_tensor_map bound e ->
  height e + bound <= fuel ->
  exists e', TensorInlineExpandMutator name all_tensor_map stages fuel e = Done e'
             /\ not_loaded name e'
             /\ height e' <= height e + bound.
Proof.
  intros Hreach Hq Hh. exists (slot_expr (inline_all name e)). split; [| split].
  - unfold TensorInlineExpandMutator.
    by rewrite (Visit_inline_all name all_tensor_map stages bound) by done.
  - by eapply inline_all_removes.
  - by eapply height_inline_all.
Qed.

(** The run for [T] on [two_stores], which loads [T] and stores to it. *)
Lemma TensorInlineExpandMutator_removes_loads_witness :
  exists e',
    TensorInlineExpandMutator "T" Ex.all_tensor_map Ex.stages 9 Ex.two_stores
    = Done e'
    /\ not_loaded "T" e'
    /\ height e' <= height Ex.two_stores + 4.
Proof.
  apply (TensorInlineExpandMutator_removes_loads "T" Ex.all_tensor_map Ex.stages
           4 9 Ex.two_stores).
  - apply reaches_loads_forallb. vm_compute. reflexivity.
  - apply expansions_quiet_forallb. vm_compute. reflexivity.
  - vm_compute. lia.
Defined.

(** Where the run leaves a load of the tensor: [poly_loop], [reduce_bound]
    and [alloc_K] come back as they are from the run for [K]. *)
Example TensorInlineExpandMutator_unreached :
  TensorInlineExpandMutator "K" Ex.all_tensor_map Ex.stages 8 Ex.poly_loop
  = Done Ex.poly_loop
  /\ TensorInlineExpandMutator "K" Ex.all_tensor_map Ex.stages 8 Ex.reduce_bound
     = Done Ex.reduce_bound
  /\ TensorInlineExpandMutator "K" Ex.all_tensor_map Ex.stages 8 Ex.alloc_K
     = Done Ex.alloc_K.
Proof. repeat split; vm_compute; reflexivity. Qed.

(** ** [SSABuilder] *)

#[local] Instance graph_extends_refl : Reflexive graph_extends.
Proof. intros g. split; [exists []; by rewrite app_nil_r | done]. Qed.

#[local] Instance graph_extends_trans : Transitive graph_extends.
Proof.
  intros g1 g2 g3 [[l1 ->] H1] [[l2 ->] H2]. split; [| tauto].
  exists (l1 ++ l2)%list. by rewrite app_assoc.
Qed.

Lemma registered_app g l :
  registered (g ++ l)%list = (registered g ++ registered l)%list.
Proof. unfold registered. apply omap_app. Qed.

Lemma retrieve_or_register_Done id g u g' :
  retrieve_or_register id g = Done (u, g') ->
  graph_extends g g' /\ id ∈ registered g'
  /\ forall x, x ∈ registered g -> x ∈ registered g'.
Proof.
  unfold retrieve_or_register, RetrieveNode. intros H. inv_M.
  case_bool_decide as Hin; inv_M.
  - split; [reflexivity | done].
  - split; [split |].
    + by eexists.
    + intros [Hnd Hl]. split.
      * rewrite registered_app. simpl. apply NoDup_app. split; [done |].
        split; [| apply NoDup_singleton].
        intros x Hx ->%list_elem_of_singleton. done.
      * intros a b [Hab | Hab]%elem_of_app.
        -- rewrite registered_app, !elem_of_app. destruct (Hl _ _ Hab). tauto.
        -- apply list_elem_of_singleton in Hab. done.
    + rewrite registered_app. simpl. split.
      * apply elem_of_app. right. by apply list_elem_of_singleton.
      * intros x Hx. apply elem_of_app. by left.
Qed.

Lemma retrieve_or_register_total id g :
  exists g', retrieve_or_register id g = Done (tt, g').
Proof.
  unfold retrieve_or_register, bind, get. destruct (RetrieveNode g id); eauto.
Qed.

Lemma link_Done dep sink g :
  dep ∈ registered g -> sink ∈ registered g ->
  graph_extends g (g ++ [LinkTo dep sink])%list.
Proof.
  intros Hd Hs. split; [by eexists |]. intros [Hnd Hl]. split.
  - rewrite registered_app. simpl. by rewrite app_nil_r.
  - intros a b. rewrite registered_app. simpl. rewrite app_nil_r.
    intros [Hab | Hab]%elem_of_app; [by apply Hl |].
    apply list_elem_of_singleton in Hab. by simplify_eq.
Qed.

Lemma link_deps_Done sink deps : forall g l g',
  sink ∈ registered g ->
  mapM_st (fun dep =>
             retrieve_or_register dep ;;;
             modify (fun g => (g ++ [LinkTo dep sink])%list)) deps g
  = Done (l, g') ->
  graph_extends g g'.
Proof.
  induction deps as [|dep deps IH]; simpl; intros g l g' Hs H; inv_M;
    [reflexivity |].
  apply retrieve_or_register_Done in E1 as (He & Hd & Hk).
  etrans; [exact He |]. etrans; [apply (link_Done dep sink); auto |].
  eapply IH; [| exact E0]. rewrite registered_app. apply elem_of_app. left. auto.
Qed.

Lemma link_deps_total sink deps : forall g,
  exists l g',
    mapM_st (fun dep =>
               retrieve_or_register dep ;;;
               modify (fun g => (g ++ [LinkTo dep sink])%list)) deps g
    = Done (l, g').
Proof.
  induction deps as [|dep deps IH]; intros g; simpl; [by eexists _, _ |].
  destruct (retrieve_or_register_total dep g) as [g1 E1].
  unfold bind at 1. unfold bind at 1. rewrite E1. unfold modify at 1.
  destruct (IH (g1 ++ [LinkTo dep sink])%list) as (l & g2 & E2).
  unfold bind at 1. rewrite E2. by eexists _, _.
Qed.

Lemma retrieve_or_register_graph id g u g' :
  retrieve_or_register id g = Done (u, g') ->
  (forall x y, LinkTo x y ∈ g' <-> LinkTo x y ∈ g)
  /\ (forall x, x ∈ registered g' <-> x ∈ registered g \/ x = id).
Proof.
  unfold retrieve_or_register, RetrieveNode. intros H. inv_M.
  case_bool_decide as Hin; inv_M.
  - split; [done |]. intros x. split; [by left | by intros [? | ->]].
  - split.
    + intros x y. rewrite elem_of_app, list_elem_of_singleton. split; [| by left].
      by intros [? | ?].
    + intros x. rewrite registered_app, elem_of_app. simpl.
      by rewrite list_elem_of_singleton.
Qed.

Lemma link_deps_graph sink deps : forall g l g',
  mapM_st (fun dep =>
             retrieve_or_register dep ;;;
             modify (fun g => (g ++ [LinkTo dep sink])%list)) deps g
  = Done (l, g') ->
  (forall x y, LinkTo x y ∈ g' <-> LinkTo x y ∈ g \/ (y = sink /\ x ∈ deps))
  /\ (forall x, x ∈ registered g' <-> x ∈ registered g \/ x ∈ deps).
Proof.
  induction deps as [|dep deps IH]; simpl; intros g l g' H; inv_M.
  - split; intros; rewrite elem_of_nil; tauto.
  - match goal with
    | E : retrieve_or_register _ _ = Done _ |- _ =>
        apply retrieve_or_register_graph in E as [Hl Hr]
    end.
    match goal with
    | E : mapM_st _ _ _ = Done _ |- _ => apply IH in E as [Hl' Hr']
    end.
    split.
    + intros x y.
      rewrite Hl', elem_of_app, Hl, list_elem_of_singleton, elem_of_cons.
      split.
      * intros [[? | [= -> ->]] | [-> ?]]; auto.
      * intros [? | [-> [-> | ?]]]; auto.
    + intros x. rewrite Hr', registered_app, elem_of_app, Hr, elem_of_cons. simpl.
      rewrite elem_of_nil. tauto.
Qed.

Section SSABuilder_facts.
Variable GetDependTensorNames : Tensor -> list string.

Lemma SSABuilder_Visit_Store_Done e tensor g r g' :
  SSABuilder_Visit_Store GetDependTensorNames e tensor g = Done (r, g') ->
  r = Kept e /\ graph_extends g g'.
Proof.
  unfold SSABuilder_Visit_Store. destruct (as_tensor tensor) as [t|]; [| done].
  intros H. inv_M. split; [done |].
  apply retrieve_or_register_Done in E as (He & Hd & _).
  etrans; [exact He |]. by eapply link_deps_Done.
Qed.

Lemma SSABuilder_Visit_Store_total e tensor g :
  is_Some (as_tensor tensor) ->
  exists g', SSABuilder_Visit_Store GetDependTensorNames e tensor g
             = Done (Kept e, g').
Proof.
  intros [t Ht]. unfold SSABuilder_Visit_Store. rewrite Ht.
  destruct (retrieve_or_register_total (tensor_name t) g) as [g1 E1].
  rewrite (bind_step _ _ _ _ _ E1).
  destruct (link_deps_total (tensor_name t) (GetDependTensorNames t) g1)
    as (l & g2 & E2).
  rewrite (bind_step _ _ _ _ _ E2). by eexists.
Qed.

Lemma SSABuilder_Visit_S n e :
  SSABuilder_Visit GetDependTensorNames (S n) e =
  match e with
  | Store tensor _ _ => SSABuilder_Visit_Store GetDependTensorNames e tensor
  | _ => e' <- IRMutator_Visit (SSABuilder_Visit GetDependTensorNames n) e ;;
         ret (Kept e')
  end.
Proof. reflexivity. Qed.

Lemma SSABuilder_Visit_extends fuel : forall e g r g',
  SSABuilder_Visit GetDependTensorNames fuel e g = Done (r, g') ->
  graph_extends g g'.
Proof.
  induction fuel as [|n IH]; intros e g r g' H; [done |].
  rewrite SSABuilder_Visit_S in H.
  destruct e; cbv beta iota in H;
    try (inv_M; eapply (IRMutator_Visit_R graph_extends); [| eassumption];
         intros; eapply IH; eassumption).
  by apply SSABuilder_Visit_Store_Done in H as [_ H].
Qed.

Lemma SSABuilder_Visit_total fuel : forall e g,
  (forall x, x ∈ sub_exprs e -> bounds_defined x) ->
  stores_to_tensors e ->
  height e <= fuel ->
  exists g', SSABuilder_Visit GetDependTensorNames fuel e g = Done (Kept e, g').
Proof.
  induction fuel as [|n IH]; intros e g Hb Hs Hh.
  { destruct e; simpl in Hh; lia. }
  rewrite SSABuilder_Visit_S.
  assert (forall c g, c ∈ visited_children e ->
            SSABuilder_Visit GetDependTensorNames n c g
            = Done (Kept c,
                    match SSABuilder_Visit GetDependTensorNames n c g with
                    | Done (_, g') => g'
                    | _ => g
                    end)) as Hc.
  { intros c g0 Hc%visited_children_children.
    destruct (IH c g0) as [g' ->]; [| | | done].
    - intros x Hx. apply Hb. by eapply sub_exprs_child.
    - intros t v idx Hx. eapply Hs. by eapply sub_exprs_child.
    - apply height_children in Hc. lia. }
  assert (exists g',
            (e' <- IRMutator_Visit (SSABuilder_Visit GetDependTensorNames n) e ;;
             ret (Kept e')) g = Done (Kept e, g')) as Hdefault.
  { eexists. erewrite bind_step; [done |].
    apply (IRMutator_Visit_run _
             (fun c g => match SSABuilder_Visit GetDependTensorNames n c g with
                         | Done (_, g') => g'
                         | _ => g
                         end)); [apply Hb, sub_exprs_self | done]. }
  destruct e; try exact Hdefault.
  apply SSABuilder_Visit_Store_total. eapply Hs, sub_exprs_self.
Qed.
End SSABuilder_facts.

(** The two conditions on a tree that is given in full. *)
Lemma bounds_defined_forallb e :
  forallb (fun x => match x with
                    | _Var_ _ true (Some _) (Some _) => true
                    | _Var_ _ true _ _ => false
                    | _ => true
                    end) (sub_exprs e) = true ->
  forall x, x ∈ sub_exprs e -> bounds_defined x.
Proof.
  rewrite forallb_forall. intros H x Hx. apply list_elem_of_In, H in Hx.
  destruct x as [| | | | | | | | | | | | | | | | n [] [lb|] [ub|] | | | | | | | | | | | | | | | ];
    try done.
Qed.

Lemma stores_to_tensors_forallb e :
  forallb (fun x => match x with
                    | Store t _ _ => bool_decide (is_Some (as_tensor t))
                    | _ => true
                    end) (sub_exprs e) = true ->
  stores_to_tensors e.
Proof.
  rewrite forallb_forall. intros H t v idx Hx. apply list_elem_of_In, H in Hx.
  by apply bool_decide_eq_true in Hx.
Qed.

(** X14.  [SSABuilder] is an analysis: on a tree in which every [Store]
    writes to a tensor (and the reduction axes have their bounds) it
    completes, given a budget of the depth of the tree, and hands the tree
    back as it is. *)
Theorem SSABuilder_keeps_expression
    (GetDependTensorNames : Tensor -> list string) (fuel : nat) (e : Expr) :
  (forall x, x ∈ sub_exprs e -> bounds_defined x) ->
  stores_to_tensors e ->
  height e <= fuel ->
  exists g, SSABuilder GetDependTensorNames fuel e = Done (e, g).
Proof.
  intros Hb Hs Hh. unfold SSABuilder.
  destruct (SSABuilder_Visit_total GetDependTensorNames fuel e [] Hb Hs Hh)
    as [g ->].
  by exists g.
Qed.

Lemma SSABuilder_keeps_expression_witness :
  exists g, SSABuilder Ex.depends 5 Ex.two_stores = Done (Ex.two_stores, g).
Proof.
  apply (SSABuilder_keeps_expression Ex.depends 5 Ex.two_stores).
  - apply bounds_defined_forallb. vm_compute. reflexivity.
  - apply stores_to_tensors_forallb. vm_compute. reflexivity.
  - vm_compute. lia.
Defined.

(** X15.  In the graph of a completed [SSABuilder], no node is registered
    twice and every edge joins two registered nodes: each node is looked up
    before it is registered, and each edge is made between nodes that were
    just retrieved or registered. *)
Theorem SSABuilder_graph_well_linked
    (GetDependTensorNames : Tensor -> list string) (fuel : nat)
    (e e' : Expr) (g : Graph) :
  SSABuilder GetDependTensorNames fuel e = Done (e', g) -> well_linked g.
Proof.
  unfold SSABuilder. intros H.
  destruct (SSABuilder_Visit GetDependTensorNames fuel e [])
    as [[r g0]| |] eqn:E; [| done | done].
  simplify_eq. apply SSABuilder_Visit_extends in E as [_ E]. apply E.
  split; [constructor | by intros a b ?%elem_of_nil].
Qed.

(** [C] is written from [T]; [T], written next, is found again, and is
    linked from [U] and [B]. *)
Lemma SSABuilder_graph_well_linked_witness :
  SSABuilder Ex.depends 5 Ex.two_stores
  = Done (Ex.two_stores,
          [RegisterNode "C"; RegisterNode "T"; LinkTo "T" "C";
           RegisterNode "U"; LinkTo "U" "T"; RegisterNode "B"; LinkTo "B" "T"])
  /\ well_linked
       [RegisterNode "C"; RegisterNode "T"; LinkTo "T" "C";
        RegisterNode "U"; LinkTo "U" "T"; RegisterNode "B"; LinkTo "B" "T"].
Proof.
  split; [vm_compute; reflexivity |].
  apply (SSABuilder_graph_well_linked Ex.depends 5 Ex.two_stores Ex.two_stores).
  vm_compute. reflexivity.
Defined.

(** X16.  What the handler of [Store] does to the graph, whatever the graph
    held before: it completes when the store writes to a tensor, keeps the
    node, and afterwards the registered nodes are those registered before,
    the tensor written and the tensors it depends on, and the edges are
    those made before and one edge from each of these tensors to the tensor
    written.  Neither the value nor the indices of the store are visited. *)
Theorem SSABuilder_Visit_Store_graph
    (GetDependTensorNames : Tensor -> list string) (fuel : nat)
    (tensor value : Expr) (indices : list Expr) (t : Tensor) (g : Graph) :
  as_tensor tensor = Some t ->
  exists g',
    SSABuilder_Visit GetDependTensorNames (S fuel) (Store tensor value indices) g
    = Done (Kept (Store tensor value indices), g')
    /\ (forall a b,
          LinkTo a b ∈ g'
          <-> LinkTo a b ∈ g
              \/ (b = tensor_name t /\ a ∈ GetDependTensorNames t))
    /\ (forall id,
          id ∈ registered g'
          <-> id ∈ registered g \/ id = tensor_name t
              \/ id ∈ GetDependTensorNames t).
Proof.
  intros Ht.
  destruct (SSABuilder_Visit_Store_total GetDependTensorNames
              (Store tensor value indices) tensor g) as [g' Hg']; [by eexists |].
  exists g'. rewrite SSABuilder_Visit_S. split; [done |].
  unfold SSABuilder_Visit_Store in Hg'. rewrite Ht in Hg'. inv_M.
  match goal with
  | E : retrieve_or_register _ _ = Done _ |- _ =>
      apply retrieve_or_register_graph in E as [Hl Hr]
  end.
  match goal with
  | E : mapM_st _ _ _ = Done _ |- _ => apply link_deps_graph in E as [Hl' Hr']
  end.
  unfold ret in Hg'. simplify_eq. split.
  - intros x y. by rewrite Hl', Hl.
  - intros id. rewrite Hr', Hr. tauto.
Qed.

(** The store [C[x, y] = T[x + 1, y]] on an empty graph. *)
Lemma SSABuilder_Visit_Store_graph_witness :
  exists g',
    SSABuilder_Visit Ex.depends 1 Ex.store_T [] = Done (Kept Ex.store_T, g')
    /\ (forall a b,
          LinkTo a b ∈ g'
          <-> LinkTo a b ∈ [] \/ (b = "C" /\ a ∈ ["T"]))
    /\ (forall id,
          id ∈ registered g' <-> id ∈ registered [] \/ id = "C" \/ id ∈ ["T"]).
Proof.
  apply (SSABuilder_Visit_Store_graph Ex.depends 0 (Ex.heap "C")
           (Load Ex.T [Binary Add (Ex.var "x") (IntImm 1); Ex.var "y"])
           [Ex.var "x"; Ex.var "y"] (Ex.heap_tensor "C") []).
  reflexivity.
Defined.
